(** * Graphinius: a shallow embedding of the graph compute engine

  The development follows the TypeScript sources: the node primitives
  ([BaseNode]), the projections of [ComputeGraph], the typed overlay of
  [TypedGraph], the PageRank iterator ([PageRankRandomWalk]) and the JSON
  reader ([JSONInput]).  JavaScript numbers are IEEE 754 binary64 values and
  are modelled by Rocq's primitive floats; JavaScript objects used as
  dictionaries are ordered property lists. *)

From Stdlib Require Import ZArith String Ascii.
From Stdlib Require Import Floats.PrimFloat Numbers.Cyclic.Int63.Uint63.
From Stdlib Require Floats.FloatAxioms Floats.SpecFloat Floats.FloatOps.
From stdpp Require Import base list strings pretty.

Open Scope string_scope.

(** ** JavaScript values *)

Module JS.

(** A JavaScript [number]. *)
Definition number : Type := float.

Definition POSITIVE_INFINITY : number := PrimFloat.infinity.
Definition NEGATIVE_INFINITY : number := PrimFloat.neg_infinity.
Definition NaN : number := PrimFloat.nan.

(** Integer counters (degrees, indices) enter the arithmetic as numbers;
    the conversion is exact below 2^53. *)
Definition of_Z (z : Z) : number :=
  if (z <? 0)%Z
  then PrimFloat.opp (PrimFloat.of_uint63 (Uint63.of_Z (- z)))
  else PrimFloat.of_uint63 (Uint63.of_Z z).

Definition isNaN (x : number) : bool := PrimFloat.is_nan x.
Definition isFinite (x : number) : bool := PrimFloat.is_finite x.

(** [x === x] on numbers: false for NaN only. *)
Definition strict_eq (x y : number) : bool := PrimFloat.eqb x y.

(** ToBoolean on a number: NaN, +0 and -0 are falsy. *)
Definition truthy (x : number) : bool :=
  negb (PrimFloat.is_nan x || PrimFloat.is_zero x).

(** [x || d] on numbers. *)
Definition or_else (x d : number) : number := if truthy x then x else d.

(** The counter [i] of a loop [for (let i = 0; ...; ++i)] after [n]
    increments.  It is a number: it counts exactly up to 2^53, where adding
    1 rounds back to 2^53. *)
Definition counter (n : nat) : number :=
  of_Z (Z.min (Z.of_nat n) 9007199254740992).

(** [o || d] where [o] is a property read: a missing property is
    [undefined], which is falsy. *)
Definition prop_or_else (o : option number) (d : number) : number :=
  match o with
  | Some x => or_else x d
  | None => d
  end.

(** [isFinite] of a property read: [isFinite(undefined)] is false. *)
Definition prop_isFinite (o : option number) : bool :=
  match o with
  | Some x => isFinite x
  | None => false
  end.

(** [String.prototype.toUpperCase], on the ASCII letters; other
    characters are left as they are. *)
Definition upper_ascii (c : ascii) : ascii :=
  let n := nat_of_ascii c in
  if (97 <=? n)%nat && (n <=? 122)%nat then ascii_of_nat (n - 32) else c.

Fixpoint toUpperCase (s : string) : string :=
  match s with
  | EmptyString => EmptyString
  | String c r => String (upper_ascii c) (toUpperCase r)
  end.

(** *** Objects used as dictionaries, and [Map]s

    A property list in enumeration order.  Writing an existing key
    replaces its value in place; writing a new key appends it.  JavaScript
    enumerates keys that are canonical array indices first, in ascending
    numeric order; the list keeps insertion order throughout, which is the
    same enumeration whenever such keys are written in ascending order (as
    the positions written by [clustCoef] are) or are not used at all. *)
Definition object (V : Type) : Type := list (string * V).

Section Object.
Context {V : Type}.

Fixpoint get (o : object V) (k : string) : option V :=
    match o with
    | [] => None
    | (k', v) :: r => if String.eqb k' k then Some v else get r k
    end.

Definition has (o : object V) (k : string) : bool :=
    match get o k with Some _ => true | None => false end.

Fixpoint set (o : object V) (k : string) (v : V) : object V :=
    match o with
    | [] => [(k, v)]
    | (k', v') :: r =>
        if String.eqb k' k then (k', v) :: r else (k', v') :: set r k v
    end.

Fixpoint delete (o : object V) (k : string) : object V :=
    match o with
    | [] => []
    | (k', v') :: r =>
        if String.eqb k' k then r else (k', v') :: delete r k
    end.

Definition keys (o : object V) : list string := map fst o.
Definition values (o : object V) : list V := map snd o.
Definition size (o : object V) : nat := length o.

End Object.

(** *** Properties inherited from [Object.prototype]

    An object created by [{}] inherits the properties of [Object.prototype]:
    a read [o[k]] of a name that [o] does not hold itself finds them there.
    They are the methods below, and the accessor [__proto__], whose read is
    the prototype object; all of them are truthy. *)
Definition Object_prototype : list string :=
  ["constructor"; "hasOwnProperty"; "isPrototypeOf"; "propertyIsEnumerable";
   "toLocaleString"; "toString"; "valueOf"; "__proto__";
   "__defineGetter__"; "__defineSetter__"; "__lookupGetter__"; "__lookupSetter__"].

Definition inherited (k : string) : bool := existsb (String.eqb k) Object_prototype.

(** What a read [o[k]] of a plain object yields: a value the object holds
    itself, or the built-in that [Object.prototype] holds under that name. *)
Inductive property (V : Type) : Type :=
| Own (v : V)
| Builtin (name : string).
Arguments Own {V} v.
Arguments Builtin {V} name.

(** [o[k]] on a plain object; [None] is [undefined]. *)
Definition read {V : Type} (o : object V) (k : string) : option (property V) :=
  match get o k with
  | Some v => Some (Own v)
  | None => if inherited k then Some (Builtin k) else None
  end.

(** [!!o[k]] on a plain object whose own values are objects (and so
    truthy). *)
Definition present {V : Type} (o : object V) (k : string) : bool :=
  has o k || inherited k.

(** *** Writing a property of a plain object

    A key that is an array index (the canonical decimal form of an integer
    below 2^32 - 1) is enumerated before the keys that are not, and the
    array indices are enumerated in ascending order, whatever the order in
    which they were written. *)
Definition digit (c : ascii) : option N :=
  let n := N_of_ascii c in
  if (48 <=? n)%N && (n <=? 57)%N then Some (n - 48)%N else None.

Fixpoint digits (s : string) (acc : N) : option N :=
  match s with
  | EmptyString => Some acc
  | String c r =>
      match digit c with
      | Some d => digits r (10 * acc + d)%N
      | None => None
      end
  end.

Definition array_index (k : string) : option N :=
  match k with
  | EmptyString => None
  | String c r =>
      if Ascii.eqb c "0" && negb (String.eqb r EmptyString)
      then None                                   (* a leading zero *)
      else match digits k 0 with
           | Some n => if (n <? 4294967295)%N then Some n else None
           | None => None
           end
  end.

(** The new array index [k], of value [n], takes its place among the array
    indices at the head of the enumeration. *)
Fixpoint insert_index {V : Type} (o : object V) (n : N) (k : string) (v : V)
    : object V :=
  match o with
  | [] => [(k, v)]
  | (k', v') :: r =>
      match array_index k' with
      | Some n' => if (n' <? n)%N then (k', v') :: insert_index r n k v
                   else (k, v) :: o
      | None => (k, v) :: o
      end
  end.

(** [o[k] = v] on a plain object, for a primitive [v]: the write of a
    primitive to [__proto__] is ignored by the accessor of
    [Object.prototype]; a property the object holds is replaced in place,
    and a new one takes its place in the enumeration. *)
Definition assign {V : Type} (o : object V) (k : string) (v : V) : object V :=
  if String.eqb k "__proto__" then o
  else if has o k then set o k v
  else match array_index k with
       | Some n => insert_index o n k v
       | None => set o k v
       end.

(** *** Exceptions *)
Inductive result (A : Type) : Type :=
| Ok (a : A)
| Throw (msg : string).
Arguments Ok {A} a.
Arguments Throw {A} msg.

Definition bind {A B : Type} (r : result A) (k : A -> result B) : result B :=
  match r with
  | Ok a => k a
  | Throw m => Throw m
  end.

Definition is_ok {A : Type} (r : result A) : bool :=
  match r with Ok _ => true | Throw _ => false end.

End JS.

#[global] Instance result_bind : MBind JS.result :=
  fun A B k r => JS.bind r k.
#[global] Instance result_ret : MRet JS.result := @JS.Ok.

(** A loop over a sequence whose body may throw: the state after the last
    element, or the first exception. *)
Fixpoint for_each {A S : Type} (f : S -> A -> JS.result S) (l : list A) (s : S)
    : JS.result S :=
  match l with
  | [] => JS.Ok s
  | a :: r => s' ← f s a; for_each f r s'
  end.

(** ** Edges *)

Module Edge.

(** Modelled from the spec: the edge class (BaseEdge.ts) is not among the
    sources.  An edge is the record of what its getters return: [getID],
    [getLabel], [getNodes] (the endpoints [a] and [b], held here by node
    id, ids being unique within a graph), [isDirected], [isWeighted] and
    the stored weight. *)
Record BaseEdge : Type := mkEdge {
  _id : string;
  _label : string;
  _node_a : string;
  _node_b : string;
  _directed : bool;
  _weighted : bool;
  _weight : JS.number
}.

Definition getID (e : BaseEdge) : string := _id e.
Definition getLabel (e : BaseEdge) : string := _label e.
Definition isDirected (e : BaseEdge) : bool := _directed e.

(** Modelled from the spec: an unweighted edge has no weight; its
    [getWeight()] is [undefined], read by the callers through [isNaN],
    so it is represented by NaN. *)
Definition getWeight (e : BaseEdge) : JS.number :=
  if _weighted e then _weight e else JS.NaN.

End Edge.

(** ** Nodes (BaseNode) *)

Module Node.
Import Edge.

(** Feature values: the ones the sources write are an index, a string and
    the coordinates object of the JSON reader. *)
Inductive any : Type :=
| ANum (n : nat)
| AStr (s : string)
| AObj (o : JS.object JS.number)
| ABuiltin (name : string).   (* the built-in [Object.prototype[name]] *)

Record NeighborEntry : Type := mkNE {
  node : string;      (* the neighbour, by id *)
  edge : BaseEdge
}.

Record BaseNode : Type := mkNode {
  _id : string;
  _label : string;
  _in_degree : Z;
  _out_degree : Z;
  _und_degree : Z;
  _self_degree : Z;
  _features : JS.object any;
  _in_edges : JS.object BaseEdge;
  _out_edges : JS.object BaseEdge;
  _und_edges : JS.object BaseEdge
}.

(** [new BaseNode(id, {label})]. *)
Definition new (id : string) (label : option string) : BaseNode :=
  {| _id := id;
     _label := match label with
               | Some l => if String.eqb l "" then id else l
               | None => id
               end;
     _in_degree := 0; _out_degree := 0; _und_degree := 0; _self_degree := 0;
     _features := [];
     _in_edges := []; _out_edges := []; _und_edges := [] |}.

Definition getID (n : BaseNode) : string := _id n.
Definition getLabel (n : BaseNode) : string := _label n.
(** [getFeature]: the read [this._features[key]] of the feature object,
    which is a plain object; [None] is [undefined]. *)
Definition getFeature (n : BaseNode) (key : string) : option any :=
  match JS.read (_features n) key with
  | Some (JS.Own v) => Some v
  | Some (JS.Builtin name) => Some (ABuiltin name)
  | None => None
  end.

(** [setFeature]: the write [this._features[key] = value] of an own
    property.  (The one name that is not written as an own property is
    [__proto__], whose write replaces the prototype; the callers among the
    sources write [PR_index] and [coords].) *)
Definition setFeature (n : BaseNode) (key : string) (value : any) : BaseNode :=
  {| _id := _id n; _label := _label n;
     _in_degree := _in_degree n; _out_degree := _out_degree n;
     _und_degree := _und_degree n; _self_degree := _self_degree n;
     _features := JS.set (_features n) key value;
     _in_edges := _in_edges n; _out_edges := _out_edges n;
     _und_edges := _und_edges n |}.

(** [setFeatures] stores a clone of the mapping. *)
Definition setFeatures (n : BaseNode) (features : JS.object any) : BaseNode :=
  {| _id := _id n; _label := _label n;
     _in_degree := _in_degree n; _out_degree := _out_degree n;
     _und_degree := _und_degree n; _self_degree := _self_degree n;
     _features := features;
     _in_edges := _in_edges n; _out_edges := _out_edges n;
     _und_edges := _und_edges n |}.

Definition inDegree (n : BaseNode) : Z := _in_degree n.
Definition outDegree (n : BaseNode) : Z := _out_degree n.
Definition degree (n : BaseNode) : Z := _und_degree n.
Definition selfDegree (n : BaseNode) : Z := _self_degree n.

Definition inEdges (n : BaseNode) : JS.object BaseEdge := _in_edges n.
Definition outEdges (n : BaseNode) : JS.object BaseEdge := _out_edges n.
Definition undEdges (n : BaseNode) : JS.object BaseEdge := _und_edges n.

Definition with_out (n : BaseNode) (k : string) (e : BaseEdge) : BaseNode :=
  {| _id := _id n; _label := _label n;
     _in_degree := _in_degree n; _out_degree := _out_degree n + 1;
     _und_degree := _und_degree n; _self_degree := _self_degree n;
     _features := _features n;
     _in_edges := _in_edges n; _out_edges := JS.set (_out_edges n) k e;
     _und_edges := _und_edges n |}.

Definition with_in (n : BaseNode) (k : string) (e : BaseEdge) : BaseNode :=
  {| _id := _id n; _label := _label n;
     _in_degree := _in_degree n + 1; _out_degree := _out_degree n;
     _und_degree := _und_degree n; _self_degree := _self_degree n;
     _features := _features n;
     _in_edges := JS.set (_in_edges n) k e; _out_edges := _out_edges n;
     _und_edges := _und_edges n |}.

Definition with_und (n : BaseNode) (k : string) (e : BaseEdge) : BaseNode :=
  {| _id := _id n; _label := _label n;
     _in_degree := _in_degree n; _out_degree := _out_degree n;
     _und_degree := _und_degree n + 1; _self_degree := _self_degree n;
     _features := _features n;
     _in_edges := _in_edges n; _out_edges := _out_edges n;
     _und_edges := JS.set (_und_edges n) k e |}.

(** [nodes.a === this]: object identity of nodes is identity of ids. *)
Definition is_this (this : BaseNode) (endpoint : string) : bool :=
  String.eqb endpoint (_id this).

(** [BaseNode.addEdge]: the node after the call, or the exception.  The
    buckets are plain objects, and the tests [!this._out_edges[edgeID]] and
    the like read them with what they inherit. *)
Definition addEdge (this : BaseNode) (edge : BaseEdge) : JS.result BaseNode :=
  if negb (is_this this (_node_a edge)) && negb (is_this this (_node_b edge))
  then JS.Throw "Cannot add edge that does not connect to this node"
  else
    let edgeID := Edge.getID edge in
    if isDirected edge then
      if is_this this (_node_a edge) && negb (JS.present (_out_edges this) edgeID)
      then
        let this1 := with_out this edgeID edge in
        if is_this this1 (_node_b edge) && negb (JS.present (_in_edges this1) edgeID)
        then JS.Ok (with_in this1 edgeID edge)
        else JS.Ok this1
      else if negb (JS.present (_in_edges this) edgeID)
      then JS.Ok (with_in this edgeID edge)
      else JS.Ok this
    else
      if JS.present (_und_edges this) (Edge.getID edge)
      then JS.Throw "Cannot add same undirected edge multiple times."
      else JS.Ok (with_und this (Edge.getID edge) edge).

Definition hasEdgeID (this : BaseNode) (id : string) : bool :=
  JS.present (_in_edges this) id || JS.present (_out_edges this) id
  || JS.present (_und_edges this) id.

Definition hasEdge (this : BaseNode) (edge : BaseEdge) : bool :=
  hasEdgeID this (Edge.getID edge).

(** [BaseNode.removeEdgeByID] (and [removeEdge], which differs only in
    taking the edge): each bucket whose read [this._und_edges[id]] is truthy
    loses the property (when it holds it itself) and its counter drops. *)
Definition removeEdgeByID (this : BaseNode) (id : string) : JS.result BaseNode :=
  if negb (hasEdgeID this id)
  then JS.Throw "Cannot remove unconnected edge."
  else
    let und := JS.present (_und_edges this) id in
    let inc := JS.present (_in_edges this) id in
    let out := JS.present (_out_edges this) id in
    JS.Ok {| _id := _id this; _label := _label this;
             _in_degree := if inc then _in_degree this - 1 else _in_degree this;
             _out_degree := if out then _out_degree this - 1 else _out_degree this;
             _und_degree := if und then _und_degree this - 1 else _und_degree this;
             _self_degree := _self_degree this;
             _features := _features this;
             _in_edges := if inc then JS.delete (_in_edges this) id else _in_edges this;
             _out_edges := if out then JS.delete (_out_edges this) id else _out_edges this;
             _und_edges := if und then JS.delete (_und_edges this) id else _und_edges this |}.

Definition removeEdge (this : BaseNode) (edge : BaseEdge) : JS.result BaseNode :=
  removeEdgeByID this (Edge.getID edge).

(** [prevNodes]: the sources of the incoming edges. *)
Definition prevNodes (this : BaseNode) : list NeighborEntry :=
  map (fun kv => {| node := _node_a (snd kv); edge := snd kv |}) (_in_edges this).

(** [nextNodes]: the targets of the outgoing edges. *)
Definition nextNodes (this : BaseNode) : list NeighborEntry :=
  map (fun kv => {| node := _node_b (snd kv); edge := snd kv |}) (_out_edges this).

(** [connNodes]: the other endpoint of each undirected edge. *)
Definition connNodes (this : BaseNode) : list NeighborEntry :=
  map (fun kv =>
         if is_this this (_node_a (snd kv))
         then {| node := _node_b (snd kv); edge := snd kv |}
         else {| node := _node_a (snd kv); edge := snd kv |})
      (_und_edges this).

(** Modelled from the spec: [structUtils.mergeArrays] is not among the
    sources ("concatenate while deduplicating by identity value").
    [reachNodes()] calls it with the default identity [ne => identity++],
    a fresh value per entry, so no entry is dropped: the result is the
    concatenation of [nextNodes()] and [connNodes()]. *)
Definition reachNodes (this : BaseNode) : list NeighborEntry :=
  nextNodes this ++ connNodes this.

(** Modelled from the spec: [allNeighbors()] calls [structUtils.mergeArrays]
    with the same default identity, so it is the concatenation of
    [prevNodes()], [nextNodes()] and [connNodes()]. *)
Definition allNeighbors (this : BaseNode) : list NeighborEntry :=
  prevNodes this ++ nextNodes this ++ connNodes this.

(** *** The label and the features *)

Definition with_features (n : BaseNode) (features : JS.object any) : BaseNode :=
  {| _id := _id n; _label := _label n;
     _in_degree := _in_degree n; _out_degree := _out_degree n;
     _und_degree := _und_degree n; _self_degree := _self_degree n;
     _features := features;
     _in_edges := _in_edges n; _out_edges := _out_edges n;
     _und_edges := _und_edges n |}.

Definition setLabel (n : BaseNode) (label : string) : BaseNode :=
  {| _id := _id n; _label := label;
     _in_degree := _in_degree n; _out_degree := _out_degree n;
     _und_degree := _und_degree n; _self_degree := _self_degree n;
     _features := _features n;
     _in_edges := _in_edges n; _out_edges := _out_edges n;
     _und_edges := _und_edges n |}.

Definition getFeatures (n : BaseNode) : JS.object any := _features n.

(** [deleteFeature]: the node after the call, and the value returned
    ([undefined] is [None]). *)
Definition deleteFeature (n : BaseNode) (key : string) : BaseNode * option any :=
  let feat := getFeature n key in
  (with_features n (JS.delete (_features n) key), feat).

Definition clearFeatures (n : BaseNode) : BaseNode := with_features n [].

(** *** Reading and clearing the buckets *)

(** [getEdge]: the in-bucket is read first, then the out-bucket, then the
    undirected one; the first read that is not [undefined] is returned, be
    it an edge of the bucket or what the bucket inherits under that name. *)
Definition getEdge (this : BaseNode) (id : string) : JS.result (JS.property BaseEdge) :=
  match JS.read (_in_edges this) id with
  | Some p => JS.Ok p
  | None =>
      match JS.read (_out_edges this) id with
      | Some p => JS.Ok p
      | None =>
          match JS.read (_und_edges this) id with
          | Some p => JS.Ok p
          | None => JS.Throw "Cannot retrieve non-existing edge."
          end
      end
  end.

Definition clearOutEdges (n : BaseNode) : BaseNode :=
  {| _id := _id n; _label := _label n;
     _in_degree := _in_degree n; _out_degree := 0;
     _und_degree := _und_degree n; _self_degree := _self_degree n;
     _features := _features n;
     _in_edges := _in_edges n; _out_edges := [];
     _und_edges := _und_edges n |}.

Definition clearInEdges (n : BaseNode) : BaseNode :=
  {| _id := _id n; _label := _label n;
     _in_degree := 0; _out_degree := _out_degree n;
     _und_degree := _und_degree n; _self_degree := _self_degree n;
     _features := _features n;
     _in_edges := []; _out_edges := _out_edges n;
     _und_edges := _und_edges n |}.

Definition clearUndEdges (n : BaseNode) : BaseNode :=
  {| _id := _id n; _label := _label n;
     _in_degree := _in_degree n; _out_degree := _out_degree n;
     _und_degree := 0; _self_degree := _self_degree n;
     _features := _features n;
     _in_edges := _in_edges n; _out_edges := _out_edges n;
     _und_edges := [] |}.

Definition clearEdges (n : BaseNode) : BaseNode :=
  clearUndEdges (clearOutEdges (clearInEdges n)).

(** [clone]: a new node of the same id, with the label and a copy of the
    features; the edges are not taken over. *)
Definition clone (this : BaseNode) : BaseNode :=
  setFeatures (setLabel (new (_id this) None) (_label this)) (getFeatures this).

End Node.

(** ** The graph container *)

Module Graph.
Import Edge Node.

Inductive GraphMode : Type := INIT | DIRECTED | UNDIRECTED | MIXED.

(** Modelled from the spec: the container class (BaseGraph.ts) is not among
    the sources.  Section 3 of the specification gives its state: the ordered
    mapping [nodes], and the separate ordered mappings of the directed and of
    the undirected edges.  The counters [nrNodes], [nrDirEdges] and
    [nrUndEdges] are the sizes of these mappings.  A node of the store holds
    its own edge buckets, and an edge names its endpoints by id, so an update
    of a node is an update of the store. *)
Record BaseGraph : Type := mkGraph {
  _label : string;
  _nodes : JS.object BaseNode;
  _dir_edges : JS.object BaseEdge;
  _und_edges : JS.object BaseEdge
}.

Definition new (label : string) : BaseGraph :=
  {| _label := label; _nodes := []; _dir_edges := []; _und_edges := [] |}.

Definition getNodes (g : BaseGraph) : JS.object BaseNode := _nodes g.
Definition getNodeById (g : BaseGraph) (id : string) : option BaseNode :=
  JS.get (_nodes g) id.
Definition hasNodeID (g : BaseGraph) (id : string) : bool := JS.has (_nodes g) id.
Definition hasEdgeID (g : BaseGraph) (id : string) : bool :=
  JS.has (_dir_edges g) id || JS.has (_und_edges g) id.
Definition nrNodes (g : BaseGraph) : nat := length (_nodes g).
Definition nrDirEdges (g : BaseGraph) : nat := length (_dir_edges g).
Definition nrUndEdges (g : BaseGraph) : nat := length (_und_edges g).

(** Modelled from the spec (4.2): "any directed edges and no undirected:
    DIRECTED; vice versa: UNDIRECTED; both: MIXED; neither: INIT". *)
Definition getMode (g : BaseGraph) : GraphMode :=
  match nrDirEdges g, nrUndEdges g with
  | O, O => INIT
  | S _, O => DIRECTED
  | O, S _ => UNDIRECTED
  | S _, S _ => MIXED
  end.

(** Modelled from the spec (section 6, result shapes): the statistics are
    the three counters and the mode; the density is a function of the
    counters whose formula the specification does not give, and is left
    out. *)
Record GraphStats : Type := mkStats {
  mode : GraphMode;
  nr_nodes : nat;
  nr_und_edges : nat;
  nr_dir_edges : nat
}.

Definition getStats (g : BaseGraph) : GraphStats :=
  {| mode := getMode g; nr_nodes := nrNodes g;
     nr_und_edges := nrUndEdges g; nr_dir_edges := nrDirEdges g |}.

Definition with_nodes (g : BaseGraph) (ns : JS.object BaseNode) : BaseGraph :=
  {| _label := _label g; _nodes := ns;
     _dir_edges := _dir_edges g; _und_edges := _und_edges g |}.

(** Modelled from the spec (4.2, section 7): [addNode] fails with DUPLICATE
    on an id already present and otherwise appends the node. *)
Definition addNode (g : BaseGraph) (n : BaseNode) : JS.result BaseGraph :=
  if hasNodeID g (Node.getID n)
  then JS.Throw "DUPLICATE"
  else JS.Ok (with_nodes g (JS.set (_nodes g) (Node.getID n) n)).

Definition addNodeByID (g : BaseGraph) (id : string) : JS.result (BaseGraph * BaseNode) :=
  let n := Node.new id None in
  g' ← addNode g n; JS.Ok (g', n).

(** The node object [id] of the store, after [f] has been called on it. *)
Definition on_node (g : BaseGraph) (id : string)
    (f : BaseNode -> JS.result BaseNode) : JS.result BaseGraph :=
  match getNodeById g id with
  | None => JS.Throw "INVALID_INPUT"
  | Some n => n' ← f n; JS.Ok (with_nodes g (JS.set (_nodes g) id n'))
  end.

(** Modelled from the spec (4.2, invariants 1 to 4, section 7): [addEdge]
    fails with INVALID_INPUT when an endpoint is missing and with DUPLICATE
    on an id already present; otherwise it attaches the edge to its first
    endpoint and to its second one ([BaseNode.addEdge], once only for an
    undirected self-loop) and records it in the directed or undirected
    mapping. *)
Definition addEdge (g : BaseGraph) (e : BaseEdge) : JS.result BaseGraph :=
  if negb (hasNodeID g (_node_a e)) || negb (hasNodeID g (_node_b e))
  then JS.Throw "INVALID_INPUT"
  else if hasEdgeID g (Edge.getID e)
  then JS.Throw "DUPLICATE"
  else
    g1 ← on_node g (_node_a e) (fun n => Node.addEdge n e);
    g2 ← (if isDirected e || negb (String.eqb (_node_a e) (_node_b e))
          then on_node g1 (_node_b e) (fun n => Node.addEdge n e)
          else JS.Ok g1);
    JS.Ok (if isDirected e
           then {| _label := _label g2; _nodes := _nodes g2;
                   _dir_edges := JS.set (_dir_edges g2) (Edge.getID e) e;
                   _und_edges := _und_edges g2 |}
           else {| _label := _label g2; _nodes := _nodes g2;
                   _dir_edges := _dir_edges g2;
                   _und_edges := JS.set (_und_edges g2) (Edge.getID e) e |}).

(** The options of [addEdgeByID]. *)
Record EdgeConfig : Type := mkEdgeConfig {
  directed : bool;
  weighted : bool;
  weight : option JS.number;      (* [None] is [undefined] *)
  label : option string
}.

(** Modelled from the spec (section 3, Edge; 4.2): [addEdgeByID(id, a, b,
    {directed, weighted, weight, label})] creates the edge with the given
    options (the label defaults to the id) and adds it. *)
Definition newEdge (id : string) (a b : string) (cfg : EdgeConfig) : BaseEdge :=
  {| Edge._id := id;
     Edge._label := match label cfg with
                    | Some l => if String.eqb l "" then id else l
                    | None => id
                    end;
     Edge._node_a := a; Edge._node_b := b;
     Edge._directed := directed cfg;
     Edge._weighted := weighted cfg;
     Edge._weight := match weight cfg with Some w => w | None => JS.NaN end |}.

Definition addEdgeByID (g : BaseGraph) (id : string) (a b : string)
    (cfg : EdgeConfig) : JS.result (BaseGraph * BaseEdge) :=
  let e := newEdge id a b cfg in
  g' ← addEdge g e; JS.Ok (g', e).

(** Modelled from the spec (4.2, section 7): [deleteEdge] fails with
    NOT_FOUND on an edge that the graph does not hold; otherwise it detaches
    the edge from its endpoints and removes it from its mapping. *)
Definition deleteEdge (g : BaseGraph) (e : BaseEdge) : JS.result BaseGraph :=
  if negb (hasEdgeID g (Edge.getID e))
  then JS.Throw "NOT_FOUND"
  else
    g1 ← on_node g (_node_a e) (fun n => Node.removeEdge n e);
    g2 ← (if negb (String.eqb (_node_a e) (_node_b e))
          then on_node g1 (_node_b e) (fun n => Node.removeEdge n e)
          else JS.Ok g1);
    JS.Ok {| _label := _label g2; _nodes := _nodes g2;
             _dir_edges := JS.delete (_dir_edges g2) (Edge.getID e);
             _und_edges := JS.delete (_und_edges g2) (Edge.getID e) |}.

(** Modelled from the spec (4.2, invariant 5): [deleteNode] fails with
    NOT_FOUND on a node that the graph does not hold; otherwise it first
    removes every incident edge and then the node. *)
Definition deleteNode (g : BaseGraph) (n : BaseNode) : JS.result BaseGraph :=
  match getNodeById g (Node.getID n) with
  | None => JS.Throw "NOT_FOUND"
  | Some stored =>
      let incident :=
        (JS.values (Node._in_edges stored) ++ JS.values (Node._out_edges stored)
         ++ JS.values (Node._und_edges stored))%list in
      g1 ← for_each (fun g' e => if hasEdgeID g' (Edge.getID e)
                                 then deleteEdge g' e else JS.Ok g')
              incident g;
      JS.Ok (with_nodes g1 (JS.delete (_nodes g1) (Node.getID n)))
  end.

End Graph.

(** ** ComputeGraph: the projections and the structural analytics *)

Module Compute.
Import Edge Node Graph.

Definition DEFAULT_WEIGHT : JS.number := JS.of_Z 1.

(** [{ u: { v: w } }] *)
Definition MinAdjacencyListDict : Type := JS.object (JS.object JS.number).
Definition MinAdjacencyListArray : Type := list (list JS.number).

(** [d[k1][k2]]; the read of a missing property is [undefined] ([None]).
    Every reader below passes a [k1] for which [adjListW] has made a row. *)
Definition read2 (d : MinAdjacencyListDict) (k1 k2 : string) : option JS.number :=
  match JS.get d k1 with
  | Some row => JS.get row k2
  | None => None
  end.

(** [d[k1][k2] = v]; a TypeError when [d[k1]] is [undefined]. *)
Definition write2 (d : MinAdjacencyListDict) (k1 k2 : string) (v : JS.number)
    : JS.result MinAdjacencyListDict :=
  match JS.get d k1 with
  | Some row => JS.Ok (JS.set d k1 (JS.set row k2 v))
  | None => JS.Throw "TypeError: cannot set properties of undefined"
  end.

(** The first loop of [adjListW]: an empty row per node, holding the
    distance to itself when [include_self]. *)
Definition adjListW_init (nodes : JS.object BaseNode) (include_self : bool)
    (self_dist : JS.number) : MinAdjacencyListDict :=
  fold_left
    (fun d kv =>
       let key := fst kv in
       JS.set d key (if include_self then JS.set [] key self_dist else []))
    nodes [].

(** The body of [neighbors.forEach] in [adjListW]. *)
Definition adjListW_visit (incoming : bool) (key : string)
    (adj_list_dict : MinAdjacencyListDict) (ne : NeighborEntry)
    : JS.result MinAdjacencyListDict :=
  let cur_dist :=
    JS.prop_or_else (read2 adj_list_dict key (node ne)) JS.POSITIVE_INFINITY in
  let cur_edge_weight :=
    if JS.isNaN (getWeight (edge ne)) then DEFAULT_WEIGHT else getWeight (edge ne) in
  if PrimFloat.ltb cur_edge_weight cur_dist then
    d1 ← write2 adj_list_dict key (node ne) cur_edge_weight;
    if incoming then write2 d1 (node ne) key cur_edge_weight else JS.Ok d1
  else
    d1 ← write2 adj_list_dict key (node ne) cur_dist;
    if incoming then write2 d1 (node ne) key cur_dist else JS.Ok d1.

(** The neighbours [adjListW] iterates for a node. *)
Definition adjListW_neighbors (incoming : bool) (n : BaseNode) : list NeighborEntry :=
  if incoming then reachNodes n ++ prevNodes n else reachNodes n.

(** [ComputeGraph.adjListW(incoming, include_self, self_dist)]. *)
Definition adjListW (g : BaseGraph) (incoming include_self : bool)
    (self_dist : JS.number) : JS.result MinAdjacencyListDict :=
  let nodes := getNodes g in
  for_each
    (fun d kv => for_each (adjListW_visit incoming (fst kv)) 
                   (adjListW_neighbors incoming (snd kv)) d)
    nodes (adjListW_init nodes include_self self_dist).

(** The rows [0 .. n-1] of an [n] x [n] matrix given cell by cell. *)
Definition build_matrix (n : nat) (cell : nat -> nat -> JS.number)
    : MinAdjacencyListArray :=
  map (fun i => map (fun j => cell i j) (seq 0 n)) (seq 0 n).

(** [adjDict[node_keys[i]][node_keys[j]]] *)
Definition read_keys (adjDict : MinAdjacencyListDict) (node_keys : list string)
    (i j : nat) : option JS.number :=
  match node_keys !! i, node_keys !! j with
  | Some ki, Some kj => read2 adjDict ki kj
  | _, _ => None
  end.

(** [ComputeGraph.adjMatrix()]. *)
Definition adjMatrix (g : BaseGraph) : JS.result MinAdjacencyListArray :=
  let node_keys := JS.keys (getNodes g) in
  adjDict ← adjListW g false false (JS.of_Z 0);
  JS.Ok (build_matrix (nrNodes g)
           (fun i j =>
              if Nat.eqb i j then JS.of_Z 0
              else if JS.prop_isFinite (read_keys adjDict node_keys i j)
                   then JS.of_Z 1 else JS.of_Z 0)).

(** [ComputeGraph.adjMatrixW(incoming, include_self, self_dist)]. *)
Definition adjMatrixW (g : BaseGraph) (incoming include_self : bool)
    (self_dist : JS.number) : JS.result MinAdjacencyListArray :=
  let node_keys := JS.keys (getNodes g) in
  adjDict ← adjListW g incoming include_self self_dist;
  JS.Ok (build_matrix (nrNodes g)
           (fun i j =>
              if Nat.eqb i j then self_dist
              else match read_keys adjDict node_keys i j with
                   | Some x => if JS.isFinite x then x else JS.POSITIVE_INFINITY
                   | None => JS.POSITIVE_INFINITY
                   end)).

(** The cell [(i, j)] of a matrix ([undefined] outside of it). *)
Definition cell (m : MinAdjacencyListArray) (i j : nat) : option JS.number :=
  match m !! i with
  | Some row => row !! j
  | None => None
  end.

(** Modelled from the spec: the matrix multiplier is an injected, external
    capability ([_tf]); "A2, A3 over the binary adjacency matrix" are plain
    matrix products, each cell the sum of the products of a row with a
    column. *)
Definition dot (r c : list JS.number) : JS.number :=
  fold_left PrimFloat.add (zip_with PrimFloat.mul r c) (JS.of_Z 0).

Definition column (m : MinAdjacencyListArray) (j : nat) : list JS.number :=
  map (fun row => match row !! j with Some x => x | None => JS.NaN end) m.

Definition matMul (a b : MinAdjacencyListArray) : MinAdjacencyListArray :=
  map (fun row => map (fun j => dot row (column b j))
                    (seq 0 (match b with r :: _ => length r | [] => 0 end)))
      a.

(** One pass of the loop of [clustCoef] over the indices of [aux3[0]]. *)
Definition clustCoef_entry (g : BaseGraph) (directed : bool)
    (aux3 : MinAdjacencyListArray) (keys : list string)
    (result : JS.object JS.number) (i : nat) : JS.result (JS.object JS.number) :=
  match keys !! i ≫= getNodeById g with
  | None => JS.Throw "TypeError: cannot read properties of undefined"
  | Some node =>
      let deg := if directed then (inDegree node + outDegree node)%Z else degree node in
      match aux3 !! i with
      | None => JS.Throw "TypeError: cannot read properties of undefined"
      | Some row =>
          let a3ii := match row !! i with Some x => x | None => JS.NaN end in
          let cci :=
            JS.or_else
              (PrimFloat.div a3ii
                 (PrimFloat.mul (JS.of_Z deg) (PrimFloat.sub (JS.of_Z deg) (JS.of_Z 1))))
              (JS.of_Z 0) in
          JS.Ok (JS.set result (pretty i)
                   (if directed then PrimFloat.mul (JS.of_Z 2) cci else cci))
      end
  end.

(** [ComputeGraph.clustCoef(directed)]; [tf] tells whether the matrix
    multiplier is present.  The promise resolves to [Ok] and rejects with
    [Throw]. *)
Definition clustCoef (g : BaseGraph) (tf : bool) (directed : bool)
    : JS.result (JS.object JS.number) :=
  if negb tf
  then JS.Throw "Tensorflow & TF matMul function must be present in order to compute clustering coef."
  else
    adj_list ← adjMatrix g;
    let a := adj_list in
    let aux2 := matMul a a in
    let aux3 := matMul a aux2 in
    let keys := JS.keys (getNodes g) in
    for_each (clustCoef_entry g directed aux3 keys)
      (seq 0 (match aux3 with r :: _ => length r | [] => 0 end)) [].

(** [NextArray]: a cell is a one-element array holding an index or [null]
    ([None]). *)
Definition NextArray : Type := list (list (list (option nat))).

(** [ComputeGraph.nextArray(incoming)]. *)
Definition nextArray (g : BaseGraph) (incoming : bool) : JS.result NextArray :=
  let node_keys := JS.keys (getNodes g) in
  adjDict ← adjListW g incoming true (JS.of_Z 0);
  JS.Ok (map (fun i =>
                map (fun j =>
                       [if Nat.eqb i j then Some j
                        else if JS.prop_isFinite (read_keys adjDict node_keys i j)
                             then Some j else None])
                    (seq 0 (nrNodes g)))
             (seq 0 (nrNodes g))).

(** [ComputeGraph.triadCount(directed)]. *)
Definition triadCount (g : BaseGraph) (directed : bool) : JS.number :=
  fold_left
    (fun triangle_count n =>
       if directed
       then PrimFloat.add triangle_count
              (PrimFloat.mul (JS.of_Z (inDegree n)) (JS.of_Z (outDegree n)))
       else PrimFloat.add triangle_count
              (PrimFloat.div
                 (PrimFloat.mul (JS.of_Z (degree n))
                                (PrimFloat.sub (JS.of_Z (degree n)) (JS.of_Z 1)))
                 (JS.of_Z 2)))
    (JS.values (getNodes g)) (JS.of_Z 0).

(** The trace [aux3[0][0] + ... + aux3[n-1][n-1]]. *)
Definition trace (aux3 : MinAdjacencyListArray) : JS.number :=
  fold_left
    (fun t i => PrimFloat.add t (match cell aux3 i i with Some x => x | None => JS.NaN end))
    (seq 0 (length aux3)) (JS.of_Z 0).

(** [ComputeGraph.triangleCount(directed)]. *)
Definition triangleCount (g : BaseGraph) (tf : bool) (directed : bool)
    : JS.result JS.number :=
  if negb tf
  then JS.Throw "Tensorflow & TF matMul function must be present in order to compute transitivity."
  else
    adj_list ← adjMatrix g;
    let a := adj_list in
    let aux2 := matMul a a in
    let aux3 := matMul a aux2 in
    JS.Ok (if directed then PrimFloat.div (trace aux3) (JS.of_Z 3)
           else PrimFloat.div (trace aux3) (JS.of_Z 6)).

(** [ComputeGraph.transitivity(directed)]. *)
Definition transitivity (g : BaseGraph) (tf : bool) (directed : bool)
    : JS.result JS.number :=
  triangles ← triangleCount g tf directed;
  let triads := triadCount g directed in
  JS.Ok (PrimFloat.div (PrimFloat.mul (JS.of_Z 3) triangles) triads).

End Compute.

(** ** TypedGraph: the typed overlay *)

Module Typed.
Import Edge Node Graph.

Definition GENERIC_TYPE : string := "GENERIC".

(** [Map<string, Map<string, IBaseNode>>]: a reference to a node or an edge
    is kept as its id, the object itself living in the base graph. *)
Definition TypedNodes : Type := JS.object (JS.object string).
Definition TypedEdges : Type := JS.object (JS.object string).

Record TypedGraph : Type := mkTyped {
  base : BaseGraph;           (* the state inherited from BaseGraph *)
  _typedNodes : TypedNodes;
  _typedEdges : TypedEdges
}.

Record TypedGraphStats : Type := mkTypedStats {
  base_stats : GraphStats;    (* [...super.getStats()] *)
  node_types : list string;
  edge_types : list string;
  typed_nodes : JS.object nat;
  typed_edges : JS.object nat
}.

(** [new TypedGraph(label)]. *)
Definition new (label : string) : TypedGraph :=
  {| base := Graph.new label;
     _typedNodes := JS.set [] GENERIC_TYPE [];
     _typedEdges := JS.set [] GENERIC_TYPE [] |}.

Definition nodeTypes (t : TypedGraph) : list string := JS.keys (_typedNodes t).
Definition edgeTypes (t : TypedGraph) : list string := JS.keys (_typedEdges t).

(** [null] is [None]. *)
Definition nrTypedNodes (t : TypedGraph) (type : string) : option nat :=
  JS.size <$> JS.get (_typedNodes t) (JS.toUpperCase type).


(** The writes of [addNode] and [addEdge] into the overlay [m]:
    [m.get(GENERIC_TYPE).set(id, x)] when [id === label], where [label] is
    the upper-cased label, and otherwise [m.get(label).set(id, x)] after the
    bucket has been created if it was missing. *)
Definition overlay_add (m : JS.object (JS.object string)) (id label : string)
    : JS.result (JS.object (JS.object string)) :=
  if String.eqb id label then
    match JS.get m GENERIC_TYPE with
    | Some bucket => JS.Ok (JS.set m GENERIC_TYPE (JS.set bucket id id))
    | None => JS.Throw "TypeError: cannot read properties of undefined"
    end
  else
    let m1 := if negb (JS.has m label) then JS.set m label [] else m in
    match JS.get m1 label with
    | Some bucket => JS.Ok (JS.set m1 label (JS.set bucket id id))
    | None => JS.Throw "TypeError: cannot read properties of undefined"
    end.

(** [TypedGraph.addNode]; the [true] it returns is the [Ok]. *)
Definition addNode (t : TypedGraph) (node : BaseNode) : JS.result TypedGraph :=
  b ← Graph.addNode (base t) node;
  let id := Node.getID node in
  let label := JS.toUpperCase (Node.getLabel node) in
  m ← overlay_add (_typedNodes t) id label;
  JS.Ok {| base := b; _typedNodes := m; _typedEdges := _typedEdges t |}.

(** [TypedGraph.addEdge]. *)
Definition addEdge (t : TypedGraph) (edge : BaseEdge) : JS.result TypedGraph :=
  b ← Graph.addEdge (base t) edge;
  let id := Edge.getID edge in
  let label := JS.toUpperCase (Edge.getLabel edge) in
  m ← overlay_add (_typedEdges t) id label;
  JS.Ok {| base := b; _typedNodes := _typedNodes t; _typedEdges := m |}.

(** The removals of [deleteNode] and [deleteEdge] from the overlay [m];
    [kind] is "Node" or "Edge" in the messages.  The bucket is named
    [GENERIC_TYPE] when the label (as it is) equals the id, and by the
    upper-cased label otherwise. *)
Definition overlay_delete (m : JS.object (JS.object string)) (id raw_label : string)
    (no_type nowhere : string) : JS.result (JS.object (JS.object string)) :=
  let label :=
    if String.eqb raw_label id then GENERIC_TYPE else JS.toUpperCase raw_label in
  match JS.get m label with
  | None => JS.Throw no_type
  | Some bucket =>
      if negb (JS.has bucket id) then JS.Throw nowhere
      else
        let m1 := JS.set m label (JS.delete bucket id) in
        (* [nrTyped...(label) === 0] reads the bucket [label.toUpperCase()] *)
        match JS.size <$> JS.get m1 (JS.toUpperCase label) with
        | Some O => JS.Ok (JS.delete m1 label)
        | _ => JS.Ok m1
        end
  end.

(** [TypedGraph.deleteNode]. *)
Definition deleteNode (t : TypedGraph) (node : BaseNode) : JS.result TypedGraph :=
  m ← overlay_delete (_typedNodes t) (Node.getID node) (Node.getLabel node)
        "Node type does not exist on this TypedGraph."
        "This particular node is nowhere to be found in its typed set.";
  b ← Graph.deleteNode (base t) node;
  JS.Ok {| base := b; _typedNodes := m; _typedEdges := _typedEdges t |}.

(** [TypedGraph.deleteEdge]. *)
Definition deleteEdge (t : TypedGraph) (edge : BaseEdge) : JS.result TypedGraph :=
  m ← overlay_delete (_typedEdges t) (Edge.getID edge) (Edge.getLabel edge)
        "Edge type does not exist on this TypedGraph."
        "This particular edge is nowhere to be found in its typed set.";
  b ← Graph.deleteEdge (base t) edge;
  JS.Ok {| base := b; _typedNodes := _typedNodes t; _typedEdges := m |}.

(** [TypedGraph.getStats]: the two [forEach] write the size of each bucket
    into a plain object, under the name of the type. *)
Definition getStats (t : TypedGraph) : TypedGraphStats :=
  {| base_stats := Graph.getStats (base t);
     node_types := nodeTypes t;
     edge_types := edgeTypes t;
     typed_nodes := fold_left (fun o kv => JS.assign o (fst kv) (JS.size (snd kv)))
                      (_typedNodes t) [];
     typed_edges := fold_left (fun o kv => JS.assign o (fst kv) (JS.size (snd kv)))
                      (_typedEdges t) [] |}.

End Typed.

(** ** PageRank by random walk *)

Module PageRank.
Import Edge Node Graph.

Definition DEFAULT_WEIGHTED : bool := false.
Definition DEFAULT_ALPHA : JS.number := 0x1.3333333333333p-3%float.   (* 0.15 *)
Definition DEFAULT_MAX_ITERATIONS : JS.number := JS.of_Z 1000.                (* 1e3 *)
Definition DEFAULT_CONVERGENCE : JS.number := 0x1.a36e2eb1c432dp-14%float.   (* 1e-4 *)
Definition defaultInit (graph : BaseGraph) : JS.number :=
  PrimFloat.div (JS.of_Z 1) (JS.of_Z (Z.of_nat (nrNodes graph))).
Definition defaultAlphaDamp (graph : BaseGraph) : JS.number :=
  JS.of_Z (Z.of_nat (nrNodes graph)).

(** [{[id: string]: number}] *)
Definition RankMap : Type := JS.object JS.number.

(** The optional fields of the configuration object; [None] is a field
    that is not given. *)
Record PrRandomWalkConfig : Type := mkConfig {
  weighted : option bool;
  alpha : option JS.number;
  alphaDamp : option (BaseGraph -> JS.number);
  convergence : option JS.number;
  iterations : option JS.number;
  init : option (BaseGraph -> JS.number)
}.

(** The arrays of the array version.  An entry of [pull] is the [PR_index]
    feature of a source node, [None] when that feature is [undefined]. *)
Record PRArrayDS : Type := mkDS {
  curr : list JS.number;
  old : list JS.number;
  outDeg : list Z;
  pull : list (list (option nat))
}.

Record PageRankRandomWalk : Type := mkPR {
  _graph : BaseGraph;
  _weighted : bool;
  _alpha : JS.number;
  _alphaDamp : JS.number;
  _convergence : JS.number;
  _maxIterations : JS.number;
  _init : JS.number;
  _PRArrayDS : PRArrayDS
}.

(** [arr[i] = v] on an array: in place below the length, an append at the
    length; beyond it the gap is filled with [hole] (the loops below only
    write at indices up to the length). *)
Definition array_set {A : Type} (hole : A) (arr : list A) (i : nat) (v : A) : list A :=
  if (i <? length arr)%nat then <[i := v]> arr
  else (arr ++ replicate (i - length arr) hole ++ [v])%list.

(** [node.getFeature('PR_index')] as an array index. *)
Definition PR_index (n : BaseNode) : option nat :=
  match getFeature n "PR_index" with
  | Some (ANum i) => Some i
  | _ => None
  end.

(** Modelled from the spec: [structUtils.mergeObjects] is not among the
    sources ("later entries overwrite earlier"): the properties of each
    object are written into the result in turn. *)
Definition mergeObjects {V : Type} (objs : list (JS.object V)) : JS.object V :=
  fold_left (fun acc o => fold_left (fun acc' kv => JS.set acc' (fst kv) (snd kv)) o acc)
    objs [].

(** The first loop of [setPRArrayDataStructs], one pass: the state is the
    graph (whose node receives the feature), the arrays and [i]. *)
Definition index_node (init_rank : JS.number)
    (st : BaseGraph * PRArrayDS * nat) (key : string)
    : JS.result (BaseGraph * PRArrayDS * nat) :=
  let '(g, ds, i) := st in
  match getNodeById g key with
  | None => JS.Throw "TypeError: cannot read properties of undefined"
  | Some node =>
      let g' := with_nodes g (JS.set (_nodes g) key (setFeature node "PR_index" (ANum i))) in
      JS.Ok (g',
             {| curr := array_set JS.NaN (curr ds) i init_rank;
                old := array_set JS.NaN (old ds) i init_rank;
                outDeg := array_set 0%Z (outDeg ds) i (outDegree node + degree node)%Z;
                pull := pull ds |},
             S i)
  end.

(** The source an edge of the pull set of [node] comes from: the index of
    the endpoint [a], or of [b] when [a] is the node itself.  The endpoint
    is the node object of the store. *)
Definition parent_idx (g : BaseGraph) (node : BaseNode) (edge : BaseEdge) : option nat :=
  let source :=
    if String.eqb (_node_a edge) (Node.getID node) then _node_b edge else _node_a edge in
  getNodeById g source ≫= PR_index.

(** The second loop of [setPRArrayDataStructs], one pass. *)
Definition pull_node (g : BaseGraph) (ds : PRArrayDS) (key : string)
    : JS.result PRArrayDS :=
  match getNodeById g key with
  | None => JS.Throw "TypeError: cannot read properties of undefined"
  | Some node =>
      let incomingEdges := mergeObjects [inEdges node; undEdges node] in
      let pull_i := map (fun kv => parent_idx g node (snd kv)) incomingEdges in
      match PR_index node with
      | Some node_idx =>
          JS.Ok {| curr := curr ds; old := old ds; outDeg := outDeg ds;
                   pull := array_set [] (pull ds) node_idx pull_i |}
      | None => JS.Ok ds     (* [pull[undefined] = pull_i]: no array entry *)
      end
  end.

(** [setPRArrayDataStructs]: the graph with its index features, and the
    arrays. *)
Definition setPRArrayDataStructs (g : BaseGraph) (init_rank : JS.number)
    (ds : PRArrayDS) : JS.result (BaseGraph * PRArrayDS) :=
  let nodes := JS.keys (getNodes g) in
  '(g1, ds1, _) ← for_each (index_node init_rank) nodes (g, ds, 0%nat);
  ds2 ← for_each (pull_node g1) nodes ds1;
  JS.Ok (g1, ds2).

(** [config.alpha || DEFAULT_ALPHA] and the like. *)
Definition constructor (graph : BaseGraph) (config : PrRandomWalkConfig)
    : JS.result PageRankRandomWalk :=
  let w := match weighted config with Some true => true | _ => DEFAULT_WEIGHTED end in
  let a := JS.prop_or_else (alpha config) DEFAULT_ALPHA in
  let m := JS.prop_or_else (iterations config) DEFAULT_MAX_ITERATIONS in
  let c := JS.prop_or_else (convergence config) DEFAULT_CONVERGENCE in
  let i := match init config with Some f => f graph | None => defaultInit graph end in
  let d := match alphaDamp config with Some f => f graph | None => defaultAlphaDamp graph end in
  '(g1, ds) ← setPRArrayDataStructs graph i
                {| curr := []; old := []; outDeg := []; pull := [] |};
  JS.Ok {| _graph := g1; _weighted := w; _alpha := a; _alphaDamp := d;
           _convergence := c; _maxIterations := m; _init := i; _PRArrayDS := ds |}.

(** An array read [arr[i]] used as a number: [undefined] behaves as NaN in
    the arithmetic. *)
Definition num_at (arr : list JS.number) (i : nat) : JS.number :=
  match arr !! i with Some x => x | None => JS.NaN end.

Definition ZERO_DIVISOR : string :=
  "GOT ZERO DIVISOR !!! -------------------------------------".

(** The body of [for (let source of ds.pull[node])]. *)
Definition pull_source (ds : PRArrayDS) (pull_rank : JS.number) (source : option nat)
    : JS.result JS.number :=
  match source with
  | Some j =>
      match outDeg ds !! j with
      | Some d =>
          if (d =? 0)%Z then JS.Throw ZERO_DIVISOR
          else JS.Ok (PrimFloat.add pull_rank
                        (PrimFloat.div (num_at (old ds) j) (JS.of_Z d)))
      | None => JS.Ok (PrimFloat.add pull_rank JS.NaN)   (* [old[j] / undefined] *)
      end
  | None => JS.Ok (PrimFloat.add pull_rank JS.NaN)       (* [undefined / undefined] *)
  end.

(** The rank written into [curr[node]]. *)
Definition new_rank (a d pull_rank : JS.number) : JS.number :=
  PrimFloat.add (PrimFloat.mul (PrimFloat.sub (JS.of_Z 1) a) pull_rank)
                (PrimFloat.div a d).

(** The body of [for (let node in ds.curr)]: the arrays and [delta_iter]. *)
Definition visit_node (a d : JS.number) (st : PRArrayDS * JS.number) (node : nat)
    : JS.result (PRArrayDS * JS.number) :=
  let '(ds, delta_iter) := st in
  match pull ds !! node with
  | None => JS.Throw "TypeError: ds.pull[node] is not iterable"
  | Some sources =>
      pull_rank ← for_each (pull_source ds) sources (JS.of_Z 0);
      let ds' := {| curr := array_set JS.NaN (curr ds) node (new_rank a d pull_rank);
                    old := old ds; outDeg := outDeg ds; pull := pull ds |} in
      JS.Ok (ds',
             PrimFloat.add delta_iter
               (PrimFloat.abs (PrimFloat.sub (num_at (curr ds') node) (num_at (old ds') node))))
  end.

(** The test [i < this._maxIterations] of the two main loops, at the pass
    number [i]. *)
Definition more_passes (m : JS.number) (i : nat) : bool :=
  PrimFloat.ltb (JS.counter i) m.

(** The loop [for (let i = 0; i < this._maxIterations; ++i)] of
    [getPRArray], from the pass number [i] on: the arrays at the return, or
    the exception.  The loop need not end (a bound that the counter never
    reaches, and no pass within the threshold): [fuel] is the number of
    tests of the loop that are followed, and [None] tells that the loop is
    still running after them. *)
Fixpoint getPRArray_loop (a d c m : JS.number) (fuel i : nat) (ds : PRArrayDS)
    : option (JS.result PRArrayDS) :=
  match fuel with
  | O => None
  | S fuel' =>
      if more_passes m i then
        match for_each (visit_node a d) (seq 0 (length (curr ds))) (ds, JS.of_Z 0) with
        | JS.Throw msg => Some (JS.Throw msg)
        | JS.Ok (ds1, delta_iter) =>
            if PrimFloat.leb delta_iter c
            then Some (JS.Ok ds1)                   (* CONVERGED *)
            else getPRArray_loop a d c m fuel' (S i)
                   {| curr := curr ds1; old := curr ds1;
                      outDeg := outDeg ds1; pull := pull ds1 |}
        end
      else Some (JS.Ok ds)                          (* ABORTED *)
  end.

(** [getRankMapFromArray]. *)
Definition getRankMapFromArray (g : BaseGraph) (ds : PRArrayDS) : RankMap :=
  fold_left
    (fun result kv =>
       JS.set result (fst kv)
         (match PR_index (snd kv) with
          | Some i => num_at (curr ds) i
          | None => JS.NaN
          end))
    (getNodes g) [].

(** [getPRArray], followed for [fuel] tests of its loop: the rank map or
    the exception, or [None] when the loop is still running. *)
Definition getPRArray (fuel : nat) (pr : PageRankRandomWalk)
    : option (JS.result RankMap) :=
  match getPRArray_loop (_alpha pr) (_alphaDamp pr) (_convergence pr)
          (_maxIterations pr) fuel 0 (_PRArrayDS pr) with
  | Some r => Some (ds ← r; JS.Ok (getRankMapFromArray (_graph pr) ds))
  | None => None
  end.

(** The entries of [structure] in [getPRDict]. *)
Record DictEntry : Type := mkEntry {
  deg : Z;
  inc : list string
}.

(** The state of the dictionary version. *)
Record PRDict : Type := mkDict {
  dcurr : RankMap;
  dold : RankMap;
  structure : JS.object DictEntry
}.

(** The set-up loop of [getPRDict], one pass. *)
Definition dict_node (g : BaseGraph) (init_rank : JS.number) (st : PRDict) (key : string)
    : JS.result PRDict :=
  match getNodeById g key with
  | None => JS.Throw "TypeError: cannot read properties of undefined"
  | Some node =>
      let incomingEdges := mergeObjects [inEdges node; undEdges node] in
      let sources :=
        map (fun kv =>
               if String.eqb (_node_a (snd kv)) (Node.getID node)
               then _node_b (snd kv) else _node_a (snd kv))
            incomingEdges in
      JS.Ok {| dcurr := JS.set (dcurr st) key init_rank;
               dold := JS.set (dold st) key init_rank;
               structure := JS.set (structure st) key
                              {| deg := (outDegree node + degree node)%Z;
                                 inc := sources |} |}
  end.

(** The body of [for (let k in sources)]. *)
Definition dict_source (st : PRDict) (pull_rank : JS.number) (p : string)
    : JS.result JS.number :=
  match JS.get (structure st) p with
  | None => JS.Throw "TypeError: cannot read properties of undefined"
  | Some entry =>
      JS.Ok (PrimFloat.add pull_rank
               (PrimFloat.div (match JS.get (dold st) p with
                               | Some x => x
                               | None => JS.NaN
                               end)
                              (JS.of_Z (deg entry))))
  end.

(** The body of [for (let key in nodes)] in the main loop of [getPRDict]. *)
Definition dict_visit (a d : JS.number) (st : PRDict * JS.number) (key : string)
    : JS.result (PRDict * JS.number) :=
  let '(s, delta_iter) := st in
  match JS.get (structure s) key with
  | None => JS.Throw "TypeError: cannot read properties of undefined"
  | Some entry =>
      pull_rank ← for_each (dict_source s) (inc entry) (JS.of_Z 0);
      let r := new_rank a d pull_rank in
      JS.Ok ({| dcurr := JS.set (dcurr s) key r; dold := dold s;
                structure := structure s |},
             PrimFloat.add delta_iter
               (PrimFloat.abs
                  (PrimFloat.sub r (match JS.get (dold s) key with
                                    | Some x => x
                                    | None => JS.NaN
                                    end))))
  end.

(** The main loop of [getPRDict], from the pass number [i] on: the map
    [curr] at the return; [fuel] and [None] are as for [getPRArray_loop]. *)
Fixpoint getPRDict_loop (keys : list string) (a d c m : JS.number) (fuel i : nat)
    (s : PRDict) : option (JS.result RankMap) :=
  match fuel with
  | O => None
  | S fuel' =>
      if more_passes m i then
        match for_each (dict_visit a d) keys (s, JS.of_Z 0) with
        | JS.Throw msg => Some (JS.Throw msg)
        | JS.Ok (s1, delta_iter) =>
            if PrimFloat.leb delta_iter c
            then Some (JS.Ok (dcurr s1))            (* CONVERGED *)
            else getPRDict_loop keys a d c m fuel' (S i)
                   {| dcurr := dcurr s1; dold := dcurr s1; structure := structure s1 |}
        end
      else Some (JS.Ok (dcurr s))                   (* ABORTED *)
  end.

(** [getPRDict], followed for [fuel] tests of its main loop. *)
Definition getPRDict (fuel : nat) (pr : PageRankRandomWalk)
    : option (JS.result RankMap) :=
  let keys := JS.keys (getNodes (_graph pr)) in
  match for_each (dict_node (_graph pr) (_init pr)) keys
          {| dcurr := []; dold := []; structure := [] |} with
  | JS.Throw msg => Some (JS.Throw msg)
  | JS.Ok s =>
      getPRDict_loop keys (_alpha pr) (_alphaDamp pr) (_convergence pr)
        (_maxIterations pr) fuel 0 s
  end.

End PageRank.

(** ** The JSON reader *)

Module JSONInput.
Import Edge Node Graph.

Definition DEFAULT_WEIGHT : JS.number := JS.of_Z 1.

(** The [weight] field of an edge entry. *)
Inductive json_weight : Type :=
| WAbsent
| WString (s : string)
| WNumber (x : JS.number).

Record EdgeInput : Type := mkEdgeInput {
  to : string;
  edge_directed : bool;       (* the truth value of [edge_input.directed] *)
  edge_weight : json_weight
}.

Record NodeInput : Type := mkNodeInput {
  features : option (JS.object any);
  coords : option (JS.object JS.number);
  edges : list EdgeInput
}.

Record JSONGraph : Type := mkJSON {
  name : string;
  data : JS.object NodeInput
}.

Record JSONInput : Type := mkInput {
  _explicit_direction : bool;
  _direction : bool;
  _weighted_mode : bool
}.

Section Reader.

(** [parseFloat] on a string, a built-in of the language. *)
Variable parseFloat : string -> JS.number.

(** [JSONInput.handleEdgeWeights]. *)
Definition handleEdgeWeights (edge_input : EdgeInput) : JS.number :=
  match edge_weight edge_input with
  | WString s =>
      if String.eqb s "undefined" then DEFAULT_WEIGHT
      else if String.eqb s "Infinity" then JS.POSITIVE_INFINITY
      else if String.eqb s "-Infinity" then JS.NEGATIVE_INFINITY
      else if String.eqb s "MAX" then 0x1.fffffffffffffp+1023%float
      else if String.eqb s "MIN" then 0x0.0000000000001p-1022%float
      else parseFloat s
  | WNumber x =>
      (* [parseFloat] of a number reads back its decimal form, in which
         -0 is written "0" *)
      if PrimFloat.is_zero x then JS.of_Z 0 else x
  | WAbsent => JS.NaN              (* [parseFloat(undefined)] *)
  end.

(** The node [id] of the graph, added first when missing. *)
Definition node_or_add (g : BaseGraph) (id : string) : JS.result BaseGraph :=
  if hasNodeID g id then JS.Ok g
  else '(g', _) ← addNodeByID g id; JS.Ok g'.

Definition dir_char (directed : bool) : string := if directed then "d" else "u".

(** Whether the entry names its edge as directed. *)
Definition entry_directed (inp : JSONInput) (edge_input : EdgeInput) : bool :=
  if _explicit_direction inp then edge_directed edge_input else _direction inp.

Definition edge_id (node_id : string) (inp : JSONInput) (edge_input : EdgeInput) : string :=
  node_id ++ "_" ++ to edge_input ++ "_" ++ dir_char (entry_directed inp edge_input).

Definition edge_id_u2 (node_id : string) (inp : JSONInput) (edge_input : EdgeInput) : string :=
  to edge_input ++ "_" ++ node_id ++ "_" ++ dir_char (entry_directed inp edge_input).

(** Whether the loop leaves the entry out ([continue]). *)
Definition skipped (inp : JSONInput) (g : BaseGraph) (node_id : string)
    (edge_input : EdgeInput) : bool :=
  hasEdgeID g (edge_id node_id inp edge_input)
  || (negb (entry_directed inp edge_input)
      && hasEdgeID g (edge_id_u2 node_id inp edge_input)).

(** The options handed to [addEdgeByID]. *)
Definition edge_config (inp : JSONInput) (edge_input : EdgeInput) : EdgeConfig :=
  let weight_float := handleEdgeWeights edge_input in
  let weight_info :=
    if JS.strict_eq weight_float weight_float then weight_float else DEFAULT_WEIGHT in
  let edge_weight := if _weighted_mode inp then Some weight_info else None in
  {| directed := entry_directed inp edge_input;
     weighted := _weighted_mode inp;
     weight := edge_weight;
     label := None |}.

(** The body of [for (var e in edges)] in [readFromJSON]. *)
Definition read_edge (inp : JSONInput) (node_id : string) (g : BaseGraph)
    (edge_input : EdgeInput) : JS.result BaseGraph :=
  g1 ← node_or_add g (to edge_input);
  if skipped inp g1 node_id edge_input then JS.Ok g1
  else
    '(g2, _) ← addEdgeByID g1 (edge_id node_id inp edge_input) node_id (to edge_input)
                 (edge_config inp edge_input);
    JS.Ok g2.

(** The body of [for (var node_id in json.data)] in [readFromJSON]. *)
Definition read_node (inp : JSONInput) (g : BaseGraph) (entry : string * NodeInput)
    : JS.result BaseGraph :=
  let node_id := fst entry in
  g1 ← node_or_add g node_id;
  g2 ← (match features (snd entry) with
        | Some f => on_node g1 node_id (fun n => JS.Ok (setFeatures n f))
        | None => JS.Ok g1
        end);
  g3 ← (match coords (snd entry) with
        | Some c => on_node g2 node_id (fun n => JS.Ok (setFeature n "coords" (AObj c)))
        | None => JS.Ok g2
        end);
  for_each (read_edge inp node_id) (edges (snd entry)) g3.

(** [JSONInput.readFromJSON]. *)
Definition readFromJSON (inp : JSONInput) (json : JSONGraph) : JS.result BaseGraph :=
  for_each (read_node inp) (data json) (Graph.new (name json)).

End Reader.

(** The edge [id] of a graph, directed or undirected. *)
Definition getEdgeById (g : BaseGraph) (id : string) : option BaseEdge :=
  match JS.get (_dir_edges g) id with
  | Some e => Some e
  | None => JS.get (_und_edges g) id
  end.

End JSONInput.

(** ** The invariants of the data model *)

Module Invariants.
Import Edge Node Graph.

Fixpoint distinct (l : list string) : bool :=
  match l with
  | [] => true
  | k :: r => negb (existsb (String.eqb k) r) && distinct r
  end.

(** The node [id] of the graph holds the edge in its out-bucket
    (respectively its undirected bucket). *)
Definition holds_out (g : BaseGraph) (id : string) (e : BaseEdge) : bool :=
  match getNodeById g id with
  | Some n => JS.has (_out_edges n) (Edge.getID e)
  | None => false
  end.

Definition holds_und (g : BaseGraph) (id : string) (e : BaseEdge) : bool :=
  match getNodeById g id with
  | Some n => JS.has (Node._und_edges n) (Edge.getID e)
  | None => false
  end.

(** Invariant 7, for one node: the counters are the sizes of the buckets. *)
Definition counters_ok (n : BaseNode) : bool :=
  (_in_degree n =? Z.of_nat (JS.size (_in_edges n)))%Z
  && (_out_degree n =? Z.of_nat (JS.size (_out_edges n)))%Z
  && (_und_degree n =? Z.of_nat (JS.size (Node._und_edges n)))%Z.

(** Invariants 1 and 2, seen from the in-bucket of the node [key]: an edge
    of the bucket is directed, comes into the node, and its source is a
    node of the graph that holds it as an outgoing edge. *)
Definition in_edge_ok (g : BaseGraph) (key : string) (e : BaseEdge) : bool :=
  isDirected e && String.eqb (_node_b e) key && holds_out g (_node_a e) e.

(** Invariants 1 and 3, seen from the undirected bucket of the node [key]:
    an edge of the bucket is undirected, has the node as an endpoint, and
    both endpoints are nodes of the graph that hold it. *)
Definition und_edge_ok (g : BaseGraph) (key : string) (e : BaseEdge) : bool :=
  negb (isDirected e)
  && (String.eqb (_node_a e) key || String.eqb (_node_b e) key)
  && holds_und g (_node_a e) e && holds_und g (_node_b e) e.

Definition node_ok (g : BaseGraph) (kv : string * BaseNode) : bool :=
  String.eqb (Node._id (snd kv)) (fst kv)
  && counters_ok (snd kv)
  && forallb (fun ke => in_edge_ok g (fst kv) (snd ke)) (_in_edges (snd kv))
  && forallb (fun ke => und_edge_ok g (fst kv) (snd ke)) (Node._und_edges (snd kv)).

(** The invariants of section 3 of the specification that the algorithms
    rely on: the node ids are distinct and are the keys of the store
    (Node: "stable unique string within a graph"), and the invariants 1, 2,
    3 and 7 hold at every node. *)
Definition well_formed (g : BaseGraph) : bool :=
  distinct (JS.keys (getNodes g)) && forallb (node_ok g) (getNodes g).

End Invariants.

(** ** The power iteration of the specification *)

Module PowerIteration.

Section Iteration.
(** The teleport probability, the denominator of the teleport term and the
    convergence threshold. *)
Variables (alpha alphaDamp convergence : JS.number).
(** The out-degrees and the pull lists, by node index. *)
Variables (outDeg : list Z) (pull : list (list nat)).

(** [s = sum over j in pull[i] of old[j] / outDeg[j]] *)
Definition pulled (old : list JS.number) (sources : list nat) : JS.number :=
  fold_left
    (fun s j => PrimFloat.add s
                  (PrimFloat.div (PageRank.num_at old j)
                                 (JS.of_Z (default 0%Z (outDeg !! j)))))
    sources 0%float.

(** [curr[i] = (1 - alpha) * s + alpha / alphaDamp], for every [i]. *)
Definition update (old : list JS.number) : list JS.number :=
  map (fun sources =>
         PrimFloat.add (PrimFloat.mul (PrimFloat.sub 1%float alpha) (pulled old sources))
                       (PrimFloat.div alpha alphaDamp))
      pull.

(** [delta = sum over i of |curr[i] - old[i]|], accumulated in index
    order. *)
Definition delta (curr old : list JS.number) : JS.number :=
  fold_left
    (fun acc i => PrimFloat.add acc
                    (PrimFloat.abs (PrimFloat.sub (PageRank.num_at curr i)
                                                  (PageRank.num_at old i))))
    (seq 0 (length curr)) 0%float.

(** The ranks after [t] iterations from [start], and the delta of the
    iteration number [t] (counted from 0). *)
Definition ranks (start : list JS.number) (t : nat) : list JS.number :=
  Nat.iter t update start.

Definition delta_at (start : list JS.number) (t : nat) : JS.number :=
  delta (ranks start (S t)) (ranks start t).

Definition converged_at (start : list JS.number) (t : nat) : bool :=
  PrimFloat.leb (delta_at start t) convergence.

(** The number of iterations performed when [t] have been, for a loop
    whose test lets the iteration number [i] begin when [more i] holds and
    which breaks after the first iteration whose delta is within the
    threshold; [None] when the loop has not ended after [fuel] tests. *)
Fixpoint performed (start : list JS.number) (more : nat -> bool) (fuel t : nat)
    : option nat :=
  match fuel with
  | O => None
  | S fuel' =>
      if more t then
        if converged_at start t then Some (S t) else performed start more fuel' (S t)
      else Some t
  end.

End Iteration.

(** The indices of a pull list of the arrays. *)
Definition sources (l : list (option nat)) : list nat := omap id l.

End PowerIteration.

(** ** Closed forms of the loops *)

Module ClosedForms.
Import Edge Node Graph Compute PageRank Invariants PowerIteration.

(** The out-degree entry of a node. *)
Definition out_und (kv : string * BaseNode) : Z := (outDegree (snd kv) + degree (snd kv))%Z.

(** The endpoint an edge of the pull set of [node] is pulled from. *)
Definition source_id (node : BaseNode) (e : BaseEdge) : string :=
  if String.eqb (_node_a e) (Node.getID node) then _node_b e else _node_a e.

(** The nodes with their positions, counted from [i], as [PR_index]. *)
Fixpoint index_from (i : nat) (nodes : JS.object BaseNode) : JS.object BaseNode :=
  match nodes with
  | [] => []
  | kv :: r => (fst kv, setFeature (snd kv) "PR_index" (ANum i)) :: index_from (S i) r
  end.

(** The graph after the first loop of [setPRArrayDataStructs]. *)
Definition indexed (g : BaseGraph) : BaseGraph :=
  with_nodes g (index_from 0 (getNodes g)).

(** The pull list the second loop of [setPRArrayDataStructs] builds for a
    node. *)
Definition pull_of (g : BaseGraph) (node : BaseNode) : list (option nat) :=
  map (λ kv, parent_idx g node (snd kv)) (mergeObjects [inEdges node; undEdges node]).

(** The parameters the constructor derives from the configuration. *)
Definition alpha_of (cfg : PrRandomWalkConfig) : JS.number :=
  JS.prop_or_else (alpha cfg) DEFAULT_ALPHA.

Definition convergence_of (cfg : PrRandomWalkConfig) : JS.number :=
  JS.prop_or_else (convergence cfg) DEFAULT_CONVERGENCE.

Definition iterations_of (cfg : PrRandomWalkConfig) : JS.number :=
  JS.prop_or_else (iterations cfg) DEFAULT_MAX_ITERATIONS.

Definition init_of (cfg : PrRandomWalkConfig) (g : BaseGraph) : JS.number :=
  match init cfg with Some f => f g | None => defaultInit g end.

Definition alphaDamp_of (cfg : PrRandomWalkConfig) (g : BaseGraph) : JS.number :=
  match alphaDamp cfg with Some f => f g | None => defaultAlphaDamp g end.

(** The arrays after the preprocessing. *)
Definition arrays_of (cfg : PrRandomWalkConfig) (g : BaseGraph) : PRArrayDS :=
  {| curr := replicate (nrNodes g) (init_of cfg g);
     old := replicate (nrNodes g) (init_of cfg g);
     outDeg := map out_und (getNodes g);
     pull := map (λ kv, pull_of (indexed g) (snd kv)) (getNodes (indexed g)) |}.

(** Every entry of every pull list is an index with a non-zero out-degree
    entry, and there is a pull list per rank. *)
Definition resolved (ds : PRArrayDS) : Prop :=
  length (curr ds) = length (pull ds)
  ∧ ∀ i srcs s, pull ds !! i = Some srcs → s ∈ srcs →
      ∃ p d, s = Some p ∧ outDeg ds !! p = Some d ∧ d ≠ 0%Z.

(** The rank the specification gives a node whose pull list is [srcs]. *)
Definition rank_of (a d : JS.number) (ds : PRArrayDS) (srcs : list (option nat))
    : JS.number :=
  PrimFloat.add
    (PrimFloat.mul (PrimFloat.sub 1%float a)
                   (pulled (outDeg ds) (old ds) (sources srcs)))
    (PrimFloat.div a d).






End ClosedForms.

(** ** The invariants the container maintains *)

Module Container.
Import Edge Node Graph Invariants.

(** Every edge of a bucket is stored under its id, is an edge of the
    graph, and satisfies [P]. *)
Definition bucket_ok (g : BaseGraph) (P : BaseEdge -> Prop)
    (bucket : JS.object BaseEdge) : Prop :=
  ∀ ek e, (ek, e) ∈ bucket → ek = Edge.getID e ∧ hasEdgeID g ek = true ∧ P e.

(** The invariants at the node [n] stored under the key [k]. *)
Record node_consistent (g : BaseGraph) (k : string) (n : BaseNode) : Prop := {
  nc_id : Node._id n = k;
  nc_counters : counters_ok n = true;
  nc_in : bucket_ok g (λ e, in_edge_ok g k e = true) (_in_edges n);
  nc_out : bucket_ok g (λ _, True) (_out_edges n);
  nc_und : bucket_ok g (λ e, und_edge_ok g k e = true) (Node._und_edges n)
}.

(** The invariants the container maintains: those of [well_formed], and
    that the buckets hold edges of the graph under their ids. *)
Definition consistent (g : BaseGraph) : Prop :=
  NoDup (JS.keys (getNodes g))
  ∧ ∀ k n, getNodeById g k = Some n → node_consistent g k n.

(** Every node of [g] is a node of [g'], with buckets that hold at least
    the same ids, and every edge of [g] is an edge of [g']. *)
Definition grows (g g' : BaseGraph) : Prop :=
  (∀ id, hasEdgeID g id = true → hasEdgeID g' id = true)
  ∧ ∀ x n, getNodeById g x = Some n →
      ∃ n', getNodeById g' x = Some n'
        ∧ (∀ id, JS.has (_out_edges n) id = true → JS.has (_out_edges n') id = true)
        ∧ (∀ id, JS.has (Node._und_edges n) id = true
                 → JS.has (Node._und_edges n') id = true).

(** The id of the edge reads as [undefined] in every bucket of the node:
    no bucket holds it, and it names no inherited property. *)
Definition unattached (n : BaseNode) (e : BaseEdge) : Prop :=
  JS.present (_in_edges n) (Edge.getID e) = false
  ∧ JS.present (_out_edges n) (Edge.getID e) = false
  ∧ JS.present (Node._und_edges n) (Edge.getID e) = false.

(** The first endpoint of a new edge after [addEdge], and the second one
    when it is another node. *)
Definition attach_first (n : BaseNode) (e : BaseEdge) : BaseNode :=
  if isDirected e then
    if String.eqb (_node_b e) (Node._id n)
    then with_in (with_out n (Edge.getID e) e) (Edge.getID e) e
    else with_out n (Edge.getID e) e
  else with_und n (Edge.getID e) e.

Definition attach_second (n : BaseNode) (e : BaseEdge) : BaseNode :=
  if isDirected e then with_in n (Edge.getID e) e else with_und n (Edge.getID e) e.

(** The store after a successful [addEdge]. *)
Definition nodes_after (g : BaseGraph) (e : BaseEdge) (na nb : BaseNode)
    : JS.object BaseNode :=
  if String.eqb (_node_a e) (_node_b e)
  then JS.set (_nodes g) (_node_a e) (attach_first na e)
  else JS.set (JS.set (_nodes g) (_node_a e) (attach_first na e))
         (_node_b e) (attach_second nb e).

(** The graph [addEdge] returns. *)
Definition graph_after (g : BaseGraph) (e : BaseEdge) (na nb : BaseNode) : BaseGraph :=
  {| Graph._label := Graph._label g;
     _nodes := nodes_after g e na nb;
     _dir_edges := if isDirected e
                   then JS.set (_dir_edges g) (Edge.getID e) e else _dir_edges g;
     Graph._und_edges := if isDirected e
                         then Graph._und_edges g
                         else JS.set (Graph._und_edges g) (Edge.getID e) e |}.

(** The graphs obtained from an empty one by [addNodeByID] (or [addNode]
    of a new node object) and [addEdgeByID] (or [addEdge]). *)
Inductive built : BaseGraph -> Prop :=
| built_new (label : string) : built (Graph.new label)
| built_addNode (g g' : BaseGraph) (id : string) (label : option string) :
    built g → Graph.addNode g (Node.new id label) = JS.Ok g' → built g'
| built_addEdge (g g' : BaseGraph) (e : BaseEdge) :
    built g → Graph.addEdge g e = JS.Ok g' → built g'.

End Container.

(** ** Sample graphs *)

Module Examples.
Import Edge Node Graph.

(** An unweighted and a weighted edge configuration. *)
Definition plain (directed : bool) : EdgeConfig :=
  {| directed := directed; weighted := false; weight := None; label := None |}.
Definition heavy (directed : bool) (w : JS.number) : EdgeConfig :=
  {| directed := directed; weighted := true; weight := Some w; label := None |}.

(** The graph after [addNodeByID] for each id, in this order. *)
Definition with_node_ids (ids : list string) : JS.result BaseGraph :=
  for_each (fun g id => '(g', _) ← addNodeByID g id; JS.Ok g') ids (Graph.new "sample").

(** The graph after [addEdgeByID] for each [(id, a, b, options)]. *)
Definition with_edges (es : list (string * string * string * EdgeConfig))
    (g : BaseGraph) : JS.result BaseGraph :=
  for_each (fun g '(id, a, b, cfg) => '(g', _) ← addEdgeByID g id a b cfg; JS.Ok g') es g.

(** The graph a script of additions builds; the empty graph if the script
    throws (none of the scripts below does). *)
Definition build (ids : list string) (es : list (string * string * string * EdgeConfig))
    : BaseGraph :=
  match with_node_ids ids ≫= with_edges es with
  | JS.Ok g => g
  | JS.Throw _ => Graph.new "sample"
  end.

(** A single node, no edge. *)
Definition lone : BaseGraph := build ["A"] [].

(** Two parallel directed edges from A to B, of weights 0 and 5. *)
Definition parallel_0_5 : BaseGraph :=
  build ["A"; "B"]
    [("e1", "A", "B", heavy true 0%float); ("e2", "A", "B", heavy true 5%float)].

(** Two parallel directed edges from A to B, of weights 3 and 5, and an
    unweighted edge from B to C. *)
Definition parallel_3_5 : BaseGraph :=
  build ["A"; "B"; "C"]
    [("e1", "A", "B", heavy true 5%float); ("e2", "A", "B", heavy true 3%float);
     ("e3", "B", "C", plain true)].

(** The directed ring A -> B -> C -> A. *)
Definition ring3 : BaseGraph :=
  build ["A"; "B"; "C"]
    [("e1", "A", "B", plain true); ("e2", "B", "C", plain true);
     ("e3", "C", "A", plain true)].

(** The undirected triangle on A, B, C. *)
Definition triangle : BaseGraph :=
  build ["A"; "B"; "C"]
    [("e1", "A", "B", plain false); ("e2", "B", "C", plain false);
     ("e3", "C", "A", plain false)].

(** A mixed graph: A -> B, B - C undirected, C -> A. *)
Definition mixed3 : BaseGraph :=
  build ["A"; "B"; "C"]
    [("e1", "A", "B", plain true); ("e2", "B", "C", plain false);
     ("e3", "C", "A", plain true)].

(** The directed edge e1 from A to B, and the node A holding it. *)
Definition e1_AB : BaseEdge := newEdge "e1" "A" "B" (plain true).
Definition E1_AB : BaseEdge := newEdge "E1" "A" "B" (plain true).
Definition node_A_with_e1 : BaseNode :=
  Node.with_out (Node.new "A" None) "e1" e1_AB.

(** A typed graph holding the nodes A and B. *)
Definition typed_AB : JS.result Typed.TypedGraph :=
  t ← Typed.addNode (Typed.new "typed") (Node.new "A" None);
  Typed.addNode t (Node.new "B" None).

(** The dictionary and the matrix of [parallel_3_5] with the default
    arguments. *)
Definition parallel_3_5_dict : Compute.MinAdjacencyListDict :=
  [("A", [("B", 3%float)]); ("B", [("C", 1%float)]); ("C", [])].

End Examples.

(** ** Sample configurations and inputs *)

Module PageRankSamples.
Import Edge Node Graph PageRank Examples.

(** The configuration of the convergence scenario: alpha 0.15 (the
    default), at most 100 iterations, threshold 1e-6. *)
Definition scenario_config : PrRandomWalkConfig :=
  {| weighted := None; alpha := None; alphaDamp := None;
     convergence := Some 0x1.0c6f7a0b5ed8dp-20%float;
     iterations := Some 100%float; init := None |}.

(** The default configuration, but for the number of iterations, which is
    given as 0. *)
Definition no_iterations : PrRandomWalkConfig :=
  {| weighted := None; alpha := None; alphaDamp := None; convergence := None;
     iterations := Some 0%float; init := None |}.

(** A store that breaks the invariants: the node A holds an edge from B in
    its in-bucket while B holds no edge. *)
Definition broken : BaseGraph :=
  {| Graph._label := "broken";
     _nodes := [("A", with_in (Node.new "A" None) "e1" (newEdge "e1" "B" "A" (plain true)));
                ("B", Node.new "B" None)];
     _dir_edges := []; Graph._und_edges := [] |}.

End PageRankSamples.

Module JSONSamples.
Import Edge Node Graph JSONInput.

(** The JSON graph of the scenario: A with an edge to B of weight
    "Infinity" and an undirected edge to C of weight "undefined". *)
Definition sentinel_json : JSONGraph :=
  {| name := "sentinels";
     data := [("A", {| features := None; coords := None;
                       edges := [ {| to := "B"; edge_directed := true;
                                     edge_weight := WString "Infinity" |};
                                  {| to := "C"; edge_directed := false;
                                     edge_weight := WString "undefined" |} ] |})] |}.

(** A reader in weighted mode, with explicit directions. *)
Definition weighted_input : JSONInput :=
  {| _explicit_direction := true; _direction := false; _weighted_mode := true |}.

(** The graph holding the node A only, where the reader stands when it
    meets the first edge entry of [sentinel_json]. *)
Definition graph_A : BaseGraph :=
  {| Graph._label := "sentinels"; _nodes := [("A", Node.new "A" None)];
     _dir_edges := []; Graph._und_edges := [] |}.

(** An edge entry to B whose weight is the string "Infinity". *)
Definition entry_B_infinity : EdgeInput :=
  {| to := "B"; edge_directed := true; edge_weight := WString "Infinity" |}.

(** The graph after the reader has met that entry. *)
Definition graph_A_B : BaseGraph :=
  Eval vm_compute in
    match read_edge (fun _ => JS.NaN) weighted_input "A" graph_A entry_B_infinity with
    | JS.Ok g => g
    | JS.Throw _ => graph_A
    end.

End JSONSamples.

(** ** Closed forms of the projections *)

Module AdjacencyForms.
Import Edge Node Graph Compute.



(** The row a node starts with. *)
Definition row_init (include_self : bool) (self_dist : JS.number) (key : string)
    : JS.object JS.number :=
  if include_self then JS.set [] key self_dist else [].





End AdjacencyForms.

(** ** The buckets of the typed overlay *)

Module TypedForms.
Import Typed.

(** The bucket [addNode] and [addEdge] file an id under ([id === label]
    with the upper-cased label), and the bucket [deleteNode] and
    [deleteEdge] look for it in ([getLabel() === id] with the label as it
    is). *)
Definition bucket_of_add (id label : string) : string :=
  if String.eqb id (JS.toUpperCase label) then GENERIC_TYPE else JS.toUpperCase label.

Definition bucket_of_delete (id label : string) : string :=
  if String.eqb label id then GENERIC_TYPE else JS.toUpperCase label.

End TypedForms.

(** ** Relations between two states *)

Module States.
Import Graph PageRank.

(** Every node of [g] is a node of [g']. *)
Definition extends (g g' : BaseGraph) : Prop :=
  ∀ x, hasNodeID g x = true → hasNodeID g' x = true.

(** The arrays a pass of [getPRArray] may leave: the out-degrees and the
    pull lists are those of [ds], and there are as many ranks. *)
Definition same_shape (ds ds' : PRArrayDS) : Prop :=
  outDeg ds' = outDeg ds ∧ pull ds' = pull ds ∧ length (curr ds') = length (curr ds).

End States.

(** ** More samples *)

Module MoreSamples.
Import Edge Node Graph Compute Typed PageRank JSONInput Examples JSONSamples.

(** The dictionary and the next-array of [mixed3] with the incoming edges
    and the self entries. *)
Definition mixed3_incoming : MinAdjacencyListDict :=
  Eval vm_compute in
    match adjListW mixed3 true true 0%float with
    | JS.Ok d => d
    | JS.Throw _ => []
    end.

Definition mixed3_next : NextArray :=
  Eval vm_compute in
    match nextArray mixed3 true with
    | JS.Ok next => next
    | JS.Throw _ => []
    end.

(** The node A of [triangle], with its two undirected edges. *)
Definition triangle_A : BaseNode :=
  Eval vm_compute in default (Node.new "A" None) (getNodeById triangle "A").

(** A node of the type person, and the typed graphs before it is added,
    once it is added, and once it is deleted again; in between, a second
    person. *)
Definition person_a1 : BaseNode := Node.new "a1" (Some "person").
Definition person_a2 : BaseNode := Node.new "a2" (Some "Person").

Definition typed_one : TypedGraph :=
  Eval vm_compute in
    match Typed.addNode (Typed.new "typed") person_a2 with
    | JS.Ok t => t
    | JS.Throw _ => Typed.new "typed"
    end.


Definition typed_two : TypedGraph :=
  Eval vm_compute in
    match Typed.addNode typed_one person_a1 with
    | JS.Ok t => t
    | JS.Throw _ => Typed.new "typed"
    end.

Definition typed_one_again : TypedGraph :=
  Eval vm_compute in
    match Typed.deleteNode typed_two person_a1 with
    | JS.Ok t => t
    | JS.Throw _ => Typed.new "typed"
    end.

(** The graph the reader makes of [sentinel_json] in weighted mode. *)
Definition sentinel_graph : BaseGraph :=
  Eval vm_compute in
    match readFromJSON (fun _ => JS.NaN) weighted_input sentinel_json with
    | JS.Ok g => g
    | JS.Throw _ => Graph.new "sentinels"
    end.

(** Contrived arrays: the first node pulls from the second, whose
    out-degree entry is zero. *)
Definition contrived : PageRankRandomWalk :=
  {| _graph := Graph.new "contrived"; _weighted := false;
     _alpha := DEFAULT_ALPHA; _alphaDamp := 2%float;
     _convergence := DEFAULT_CONVERGENCE; _maxIterations := 10%float;
     _init := 0.5%float;
     _PRArrayDS := {| curr := [0.5%float; 0.5%float]; old := [0.5%float; 0.5%float];
                      outDeg := [1%Z; 0%Z]; pull := [[Some 1]; [Some 0]] |} |}.

(** A configuration that asks for a negative number of iterations. *)
Definition negative_iterations : PrRandomWalkConfig :=
  {| weighted := None; alpha := None; alphaDamp := None;
     convergence := None; iterations := Some (-1)%float; init := None |}.

(** A configuration that asks for a teleport probability of zero and for
    no iteration. *)
Definition zero_config : PrRandomWalkConfig :=
  {| weighted := None; alpha := Some 0%float; alphaDamp := None;
     convergence := None; iterations := Some 0%float; init := None |}.

End MoreSamples.

(** ** What the reader leaves in the graph *)

Module ReaderForms.
Import Edge Node Graph JSONInput.

(** The features the reader leaves a node of [data] with: the mapping
    given (none: the empty one), with the coordinates under "coords". *)
Definition stored_features (entry : NodeInput) : JS.object any :=
  let f := match features entry with Some f => f | None => [] end in
  match coords entry with
  | Some c => JS.set f "coords" (AObj c)
  | None => f
  end.

(** The edge of an entry, or its mirror when undirected, is in the graph. *)
Definition present (inp : JSONInput) (g : BaseGraph) (node_id : string)
    (edge_input : EdgeInput) : Prop :=
  hasEdgeID g (edge_id node_id inp edge_input) = true
  ∨ (entry_directed inp edge_input = false
     ∧ hasEdgeID g (edge_id_u2 node_id inp edge_input) = true).

(** The features of the node [x] of a graph, if there is such a node. *)
Definition features_at (g : BaseGraph) (x : string) : option (JS.object any) :=
  _features <$> getNodeById g x.


(** Every edge of [g] is an edge of [g']. *)
Definition keeps_edges (g g' : BaseGraph) : Prop :=
  ∀ id, hasEdgeID g id = true → hasEdgeID g' id = true.

(** The features of [x] in [g'] are those in [g]; a node that [g] does not
    have is missing in [g'] too, or is new, without features. *)
Definition settled_at (x : string) (g g' : BaseGraph) : Prop :=
  match features_at g x with
  | Some f => features_at g' x = Some f
  | None => features_at g' x = None ∨ features_at g' x = Some []
  end.

(** The nodes after the entries [pre]: the node of an entry has the
    features the entry stores, any other node has none. *)
Definition stored (pre : JS.object NodeInput) (g : BaseGraph) : Prop :=
  ∀ x, match JS.get pre x with
       | Some entry => features_at g x = Some (stored_features entry)
       | None => features_at g x = None ∨ features_at g x = Some []
       end.

End ReaderForms.

(** ** A JSON graph with features *)

Module FeatureSamples.
Import Edge Node Graph JSONInput JSONSamples.

(** The node A with a feature and coordinates and an undirected edge to B;
    the node B listed after it, without features, with the same edge seen
    from its side. *)
Definition featured_A : NodeInput :=
  {| features := Some [("kind", AStr "hub")];
     coords := Some [("x", 1%float); ("y", 2%float)];
     edges := [ {| to := "B"; edge_directed := false;
                   edge_weight := WNumber 3%float |} ] |}.

Definition featured_json : JSONGraph :=
  {| name := "featured";
     data := [("A", featured_A);
              ("B", {| features := None; coords := None;
                       edges := [ {| to := "A"; edge_directed := false;
                                     edge_weight := WNumber 3%float |} ] |})] |}.

Definition featured_graph : BaseGraph :=
  Eval vm_compute in
    match readFromJSON (fun _ => JS.NaN) weighted_input featured_json with
    | JS.Ok g => g
    | JS.Throw _ => Graph.new "featured"
    end.

End FeatureSamples.

(** * Properties *)

Open Scope list_scope.
Open Scope nat_scope.

(** ** Objects *)

Module ObjectFacts.

Section Facts.
Context {V : Type}.
Implicit Types (o : JS.object V) (k : string) (v : V).

Lemma get_set_eq o k v : JS.get (JS.set o k v) k = Some v.
Proof.
  induction o as [|[k' v'] o IH]; simpl.
  - by rewrite String.eqb_refl.
  - destruct (String.eqb k' k) eqn:E; simpl; rewrite E; auto.
Qed.

Lemma get_set_ne o k k' v : k ≠ k' → JS.get (JS.set o k v) k' = JS.get o k'.
Proof.
  intros Hne. induction o as [|[k0 v0] o IH]; simpl.
  - destruct (String.eqb k k') eqn:E; [apply String.eqb_eq in E; done | done].
  - destruct (String.eqb k0 k) eqn:E; simpl.
    + apply String.eqb_eq in E; subst k0.
      destruct (String.eqb k k') eqn:E'; [apply String.eqb_eq in E'; done | done].
    + destruct (String.eqb k0 k'); auto.
Qed.

Lemma get_set o k k' v :
  JS.get (JS.set o k v) k' = if String.eqb k k' then Some v else JS.get o k'.
Proof.
  destruct (String.eqb k k') eqn:E.
  - apply String.eqb_eq in E; subst. apply get_set_eq.
  - apply get_set_ne. intros ->. by rewrite String.eqb_refl in E.
Qed.

Lemma has_set o k k' v :
  JS.has (JS.set o k v) k' = String.eqb k k' || JS.has o k'.
Proof. unfold JS.has. rewrite get_set. by destruct (String.eqb k k'). Qed.

Lemma get_None_not_in o k : JS.get o k = None ↔ k ∉ JS.keys o.
Proof.
  induction o as [|[k' v'] o IH]; simpl.
  - split; [intros _; apply not_elem_of_nil | done].
  - destruct (String.eqb k' k) eqn:E.
    + apply String.eqb_eq in E; subst. split; [done | intros H; destruct H; left].
    + rewrite IH. rewrite not_elem_of_cons. split; [|tauto].
      intros H; split; [|done]. intros ->. by rewrite String.eqb_refl in E.
Qed.

Lemma get_Some_in o k v : JS.get o k = Some v → (k, v) ∈ o.
Proof.
  induction o as [|[k' v'] o IH]; simpl; [done|].
  destruct (String.eqb k' k) eqn:E.
  - apply String.eqb_eq in E; subst. intros [= ->]. left.
  - intros H. right. auto.
Qed.

Lemma in_keys_get o k : k ∈ JS.keys o → is_Some (JS.get o k).
Proof.
  intros H. destruct (JS.get o k) eqn:E; [eauto|].
  apply get_None_not_in in E. done.
Qed.

(** Writing a new key appends the property. *)
Lemma set_fresh o k v : JS.get o k = None → JS.set o k v = o ++ [(k, v)].
Proof.
  induction o as [|[k' v'] o IH]; simpl; [done|].
  destruct (String.eqb k' k); [done|]. intros H. by rewrite IH.
Qed.

(** Writing a key never changes the order of the keys already there. *)
Lemma keys_set o k v :
  JS.keys (JS.set o k v) = if JS.has o k then JS.keys o else JS.keys o ++ [k].
Proof.
  unfold JS.has. induction o as [|[k' v'] o IH]; simpl; [done|].
  destruct (String.eqb k' k) eqn:E; simpl; [done|].
  rewrite IH. by destruct (JS.get o k).
Qed.

(** The read at the [i]-th key, when no key occurs twice. *)
Lemma get_lookup o i k v :
  NoDup (JS.keys o) → o !! i = Some (k, v) → JS.get o k = Some v.
Proof.
  revert i. induction o as [|[k' v'] o IH]; intros i Hnd Hi; [done|].
  simpl in Hnd. apply NoDup_cons in Hnd as [Hk' Hnd]. simpl.
  destruct i as [|i]; simpl in Hi.
  - injection Hi as -> ->. by rewrite String.eqb_refl.
  - destruct (String.eqb k' k) eqn:E.
    + apply String.eqb_eq in E; subst. exfalso. apply Hk'.
      apply list_elem_of_lookup. exists i. unfold JS.keys.
      by rewrite list_lookup_fmap, Hi.
    + eauto.
Qed.

(** *** Reads that see the inherited properties *)

Lemma present_has o k : JS.has o k = true → JS.present o k = true.
Proof. unfold JS.present. by intros ->. Qed.

Lemma present_false o k :
  JS.present o k = false ↔ JS.has o k = false ∧ JS.inherited k = false.
Proof. unfold JS.present. apply orb_false_iff. Qed.

Lemma present_ordinary o k : JS.inherited k = false → JS.present o k = JS.has o k.
Proof. unfold JS.present. intros ->. apply orb_false_r. Qed.

Lemma present_set o k k' v :
  JS.present (JS.set o k v) k' = String.eqb k k' || JS.present o k'.
Proof. unfold JS.present. rewrite has_set. by rewrite orb_assoc. Qed.

Lemma read_set_eq o k v : JS.read (JS.set o k v) k = Some (JS.Own v).
Proof. unfold JS.read. by rewrite get_set_eq. Qed.

Lemma read_set_ne o k k' v : k ≠ k' → JS.read (JS.set o k v) k' = JS.read o k'.
Proof. intros H. unfold JS.read. by rewrite get_set_ne. Qed.

Lemma read_ordinary o k :
  JS.inherited k = false → JS.read o k = JS.Own <$> JS.get o k.
Proof. unfold JS.read. intros ->. by destruct (JS.get o k). Qed.

End Facts.

End ObjectFacts.

(** ** Loops *)

Lemma for_each_app {A S : Type} (f : S -> A -> JS.result S) (l1 l2 : list A) (s : S) :
  for_each f (l1 ++ l2) s = for_each f l1 s ≫= for_each f l2.
Proof.
  revert s. induction l1 as [|a l1 IH]; intros s; simpl; [done|].
  unfold mbind, result_bind. destruct (f s a) as [s'|m]; simpl; [apply IH | done].
Qed.

(** A loop whose body preserves an invariant and never throws under it
    returns, in a state that satisfies the invariant. *)
Lemma for_each_invariant {A S : Type} (P : S -> Prop) (f : S -> A -> JS.result S)
    (l : list A) (s : S) :
  P s →
  (∀ s a, a ∈ l → P s → ∃ s', f s a = JS.Ok s' ∧ P s') →
  ∃ s', for_each f l s = JS.Ok s' ∧ P s'.
Proof.
  revert s. induction l as [|a l IH]; intros s Hs Hf; simpl; [eauto|].
  destruct (Hf s a) as (s1 & E & Hs1); [left | done |].
  rewrite E. simpl. apply IH; [done|].
  intros s2 a2 Ha2. apply Hf. by right.
Qed.

(** ** BaseNode.addEdge *)

Module NodeFacts.
Import Edge Node Graph Examples.

(** A feature read after a write: the value written under the same key,
    the former read under another. *)
Lemma getFeature_setFeature (n : BaseNode) (k k' : string) (v : any) :
  getFeature (setFeature n k v) k' = if String.eqb k k' then Some v else getFeature n k'.
Proof.
  unfold getFeature, setFeature, JS.read. cbn [_features].
  rewrite ObjectFacts.get_set. by destruct (String.eqb k k').
Qed.

(** A directed edge leaving the node and already in its out-bucket takes
    the second branch of [addEdge], which tests the in-bucket only. *)
Lemma addEdge_duplicate_out (n : BaseNode) (e : BaseEdge) :
  isDirected e = true →
  _node_a e = Node._id n →
  JS.has (_out_edges n) (Edge.getID e) = true →
  JS.present (_in_edges n) (Edge.getID e) = false →
  Node.addEdge n e = JS.Ok (with_in n (Edge.getID e) e).
Proof.
  intros Hd Ha Hout%ObjectFacts.present_has Hin. unfold Node.addEdge, is_this.
  rewrite Ha, String.eqb_refl, Hd, Hout, Hin. reflexivity.
Qed.

(** C6, at the node A: the directed edge e1 = (A -> B), B distinct from A,
    is in the out-bucket of A and in no other bucket; a further
    [A.addEdge(e1)] returns normally, puts e1 into the in-bucket of A as
    well and raises the in-degree of A from 0 to 1.  The claim expects all
    buckets and counters unchanged. *)
Lemma addEdge_again_fills_in_bucket :
  Node.addEdge (Node.new "A" None) e1_AB = JS.Ok node_A_with_e1
  ∧ _out_edges node_A_with_e1 = [("e1", e1_AB)]
  ∧ _in_edges node_A_with_e1 = []
  ∧ _in_degree node_A_with_e1 = 0%Z
  ∧ Node.addEdge node_A_with_e1 e1_AB = JS.Ok (with_in node_A_with_e1 "e1" e1_AB)
  ∧ _in_edges (with_in node_A_with_e1 "e1" e1_AB) = [("e1", e1_AB)]
  ∧ _in_degree (with_in node_A_with_e1 "e1" e1_AB) = 1%Z.
Proof. repeat split; vm_compute; reflexivity. Qed.

End NodeFacts.

(** ** TypedGraph *)

Module TypedFacts.
Import Edge Node Graph Typed Examples.

(** The bucket [addNode] and [addEdge] write to is GENERIC exactly when the
    id equals the upper-cased label. *)
Lemma overlay_add_generic (m : JS.object (JS.object string)) (id label : string)
    (bucket : JS.object string) :
  id = label →
  JS.get m GENERIC_TYPE = Some bucket →
  overlay_add m id label = JS.Ok (JS.set m GENERIC_TYPE (JS.set bucket id id)).
Proof.
  intros -> Hb. unfold overlay_add. by rewrite String.eqb_refl, Hb.
Qed.

Lemma overlay_add_typed (m : JS.object (JS.object string)) (id label : string) :
  id ≠ label →
  ∃ bucket, overlay_add m id label = JS.Ok (JS.set
              (if negb (JS.has m label) then JS.set m label [] else m)
              label (JS.set bucket id id))
            ∧ bucket = default [] (JS.get m label).
Proof.
  intros Hne. unfold overlay_add.
  destruct (String.eqb id label) eqn:E; [apply String.eqb_eq in E; done|].
  unfold JS.has. destruct (JS.get m label) as [b|] eqn:Eb; simpl.
  - rewrite Eb. eauto.
  - rewrite ObjectFacts.get_set_eq. eauto.
Qed.

(** C4, at the node of id "a" and at the edge of id "e1", each with its id
    as label: [addNode] on a fresh typed graph succeeds and stores the node
    in the bucket "A", created for it, and [addEdge] stores the edge in the
    bucket "E1"; the GENERIC buckets stay empty.  The claim expects an
    entity whose label equals its id in the GENERIC bucket. *)
Lemma add_lowercase_id_leaves_generic :
  Node.getLabel (Node.new "a" None) = Node.getID (Node.new "a" None)
  ∧ (t ← Typed.addNode (Typed.new "typed") (Node.new "a" None);
     JS.Ok (_typedNodes t))
    = JS.Ok [("GENERIC", []); ("A", [("a", "a")])]
  ∧ Edge.getLabel e1_AB = Edge.getID e1_AB
  ∧ (t ← typed_AB; t' ← Typed.addEdge t e1_AB; JS.Ok (_typedEdges t'))
    = JS.Ok [("GENERIC", []); ("E1", [("e1", "e1")])].
Proof. repeat split; vm_compute; reflexivity. Qed.

(** C5, on the typed graph holding the nodes A and B.  The edge e1 (id
    "e1", label "e1") is not in the graph; [addEdge(e1)] succeeds and
    [deleteEdge(e1)] then throws, since it looks for e1 in the GENERIC
    bucket while [addEdge] has stored it under "E1".  The edge E1 (id and
    label "E1") is added and deleted without error, but the deletion also
    removes the emptied GENERIC bucket, so the statistics do not return to
    their values: [edge_types] was ["GENERIC"] and is empty afterwards.
    The claim expects both calls to succeed and the statistics to be
    restored. *)
Lemma addEdge_deleteEdge_not_restoring :
  (t ← typed_AB; JS.Ok (Graph.hasEdgeID (base t) "e1" || Graph.hasEdgeID (base t) "E1"))
    = JS.Ok false
  ∧ (t ← typed_AB; t' ← Typed.addEdge t e1_AB; JS.Ok (edge_types (Typed.getStats t')))
    = JS.Ok ["GENERIC"; "E1"]
  ∧ (t ← typed_AB; t' ← Typed.addEdge t e1_AB; Typed.deleteEdge t' e1_AB)
    = JS.Throw "This particular edge is nowhere to be found in its typed set."
  ∧ (t ← typed_AB; JS.Ok (edge_types (Typed.getStats t), typed_edges (Typed.getStats t)))
    = JS.Ok (["GENERIC"], [("GENERIC", 0)])
  ∧ (t ← typed_AB; t' ← Typed.addEdge t E1_AB; t'' ← Typed.deleteEdge t' E1_AB;
     JS.Ok (edge_types (Typed.getStats t''), typed_edges (Typed.getStats t'')))
    = JS.Ok ([], []).
Proof. repeat split; vm_compute; reflexivity. Qed.

End TypedFacts.

(** ** The JSON reader *)

Module JSONFacts.
Import Edge Node Graph JSONInput Examples JSONSamples.

(** Calling a method on a node of the store leaves the edge mappings of
    the graph as they are. *)
Lemma on_node_edges (g g' : BaseGraph) (id : string) (f : BaseNode -> JS.result BaseNode) :
  on_node g id f = JS.Ok g' →
  _dir_edges g' = _dir_edges g ∧ Graph._und_edges g' = Graph._und_edges g.
Proof.
  unfold on_node. destruct (getNodeById g id) as [n|]; [|done].
  unfold mbind, result_bind, JS.bind. destruct (f n); [|done].
  by intros [= <-].
Qed.

(** An edge that [addEdge] accepts is, afterwards, the edge of its id. *)
Lemma addEdge_stores (g g' : BaseGraph) (e : BaseEdge) :
  Graph.addEdge g e = JS.Ok g' → getEdgeById g' (Edge.getID e) = Some e.
Proof.
  unfold Graph.addEdge, getEdgeById, hasEdgeID, JS.has.
  destruct (negb _ || negb _); [done|].
  destruct (JS.get (_dir_edges g) (Edge.getID e)) eqn:Ed; [done|].
  destruct (JS.get (Graph._und_edges g) (Edge.getID e)) eqn:Eu; [done|].
  simpl. unfold mbind, result_bind, JS.bind.
  destruct (on_node g (_node_a e) _) as [g1|] eqn:E1; [|done].
  apply on_node_edges in E1 as [Hd1 Hu1].
  destruct (isDirected e || negb (_node_a e =? _node_b e)%string).
  - destruct (on_node g1 (_node_b e) _) as [g2|] eqn:E2; [|done].
    apply on_node_edges in E2 as [Hd2 Hu2].
    destruct (isDirected e); intros [= <-]; simpl.
    + by rewrite ObjectFacts.get_set_eq.
    + by rewrite Hd2, Hd1, Ed, ObjectFacts.get_set_eq.
  - destruct (isDirected e); intros [= <-]; simpl.
    + by rewrite ObjectFacts.get_set_eq.
    + by rewrite Hd1, Ed, ObjectFacts.get_set_eq.
Qed.

Lemma node_or_add_edges (g g' : BaseGraph) (id : string) :
  node_or_add g id = JS.Ok g' →
  _dir_edges g' = _dir_edges g ∧ Graph._und_edges g' = Graph._und_edges g.
Proof.
  unfold node_or_add. destruct (hasNodeID g id); [by intros [= <-]|].
  unfold addNodeByID, Graph.addNode.
  destruct (hasNodeID g _); [done|]. by intros [= <-].
Qed.

Lemma skipped_node_or_add (inp : JSONInput) (g g' : BaseGraph) (id node_id : string)
    (entry : EdgeInput) :
  node_or_add g id = JS.Ok g' →
  skipped inp g' node_id entry = skipped inp g node_id entry.
Proof.
  intros [Hd Hu]%node_or_add_edges. unfold skipped, hasEdgeID. by rewrite Hd, Hu.
Qed.

(** The weight of the edge an entry yields, in weighted mode. *)
Lemma newEdge_weight (parseFloat : string -> JS.number) (inp : JSONInput)
    (id a b : string) (entry : EdgeInput) :
  _weighted_mode inp = true →
  getWeight (newEdge id a b (edge_config parseFloat inp entry))
  = (if JS.strict_eq (handleEdgeWeights parseFloat entry) (handleEdgeWeights parseFloat entry)
     then handleEdgeWeights parseFloat entry else DEFAULT_WEIGHT).
Proof. intros Hw. unfold getWeight, newEdge, edge_config. simpl. by rewrite Hw. Qed.

(** C9: in weighted mode, an edge entry that the reader does not leave out
    yields the edge of its id, and that edge has weight positive infinity
    when the weight field is the string "Infinity", and weight 1 when it is
    the string "undefined". *)
Theorem sentinel_weights (parseFloat : string -> JS.number) (inp : JSONInput)
    (node_id : string) (g g' : BaseGraph) (entry : EdgeInput) :
  _weighted_mode inp = true →
  skipped inp g node_id entry = false →
  read_edge parseFloat inp node_id g entry = JS.Ok g' →
  ∃ e, getEdgeById g' (edge_id node_id inp entry) = Some e
       ∧ (edge_weight entry = WString "Infinity" → getWeight e = JS.POSITIVE_INFINITY)
       ∧ (edge_weight entry = WString "undefined" → getWeight e = 1%float).
Proof.
  intros Hw Hskip. unfold read_edge.
  destruct (node_or_add g (to entry)) as [g1|] eqn:E1; [|done]. simpl.
  rewrite (skipped_node_or_add _ _ _ _ _ _ E1), Hskip.
  unfold addEdgeByID.
  set (e := newEdge _ _ _ _).
  destruct (Graph.addEdge g1 e) as [g2|] eqn:E2; [|done]. simpl.
  intros [= <-]. exists e. split.
  - apply addEdge_stores in E2. exact E2.
  - subst e. rewrite (newEdge_weight _ _ _ _ _ _ Hw).
    unfold handleEdgeWeights. split; intros ->; reflexivity.
Qed.

Lemma sentinel_weights_witness :
  read_edge (fun _ => JS.NaN) weighted_input "A" graph_A entry_B_infinity
  = JS.Ok graph_A_B
  ∧ ∃ e, getEdgeById graph_A_B "A_B_d" = Some e ∧ getWeight e = JS.POSITIVE_INFINITY.
Proof.
  split; [vm_compute; reflexivity|].
  destruct (sentinel_weights (fun _ => JS.NaN) weighted_input "A" graph_A graph_A_B
              entry_B_infinity)
    as (e & He & Hinf & _); [vm_compute; reflexivity ..|].
  exists e. split; [exact He | apply Hinf; reflexivity].
Defined.

(** The whole reader on the scenario: the two edges and their weights. *)
Example readFromJSON_sentinels :
  (g ← readFromJSON (fun _ => JS.NaN) weighted_input sentinel_json;
   JS.Ok (getWeight <$> getEdgeById g "A_B_d", getWeight <$> getEdgeById g "A_C_u"))
  = JS.Ok (Some JS.POSITIVE_INFINITY, Some 1%float).
Proof. vm_compute. reflexivity. Qed.

End JSONFacts.

(** ** ComputeGraph *)

Module ComputeFacts.
Import Edge Node Graph Compute Examples.

Lemma build_matrix_length (n : nat) (f : nat -> nat -> JS.number) :
  length (build_matrix n f) = n.
Proof. unfold build_matrix. by rewrite length_map, length_seq. Qed.

Lemma build_matrix_row (n : nat) (f : nat -> nat -> JS.number) (i : nat) :
  i < n → build_matrix n f !! i = Some (map (f i) (seq 0 n)).
Proof.
  intros Hi. unfold build_matrix.
  change (map ?g ?l !! i) with ((g <$> l) !! i).
  by rewrite list_lookup_fmap, lookup_seq_lt.
Qed.

Lemma build_matrix_cell (n : nat) (f : nat -> nat -> JS.number) (i j : nat) :
  i < n → j < n → cell (build_matrix n f) i j = Some (f i j).
Proof.
  intros Hi Hj. unfold cell. rewrite build_matrix_row by done.
  change (map ?g ?l !! j) with ((g <$> l) !! j).
  by rewrite list_lookup_fmap, lookup_seq_lt.
Qed.

(** C7, off the diagonal (and what the diagonal holds instead): when
    [adjListW] returns the dictionary [d], [adjMatrixW] with the same
    arguments returns a matrix whose cell (i, j), for i and j distinct
    positions of nodes, is finite exactly when d[u_i][u_j] is finite; the
    cell (i, i) is [self_dist] whatever the dictionary holds. *)
Theorem adjMatrixW_finite_off_diagonal (g : BaseGraph) (incoming include_self : bool)
    (self_dist : JS.number) (d : MinAdjacencyListDict) :
  adjListW g incoming include_self self_dist = JS.Ok d →
  ∃ m, adjMatrixW g incoming include_self self_dist = JS.Ok m
       ∧ ∀ i j, i < nrNodes g → j < nrNodes g →
           (i ≠ j → JS.prop_isFinite (cell m i j)
                    = JS.prop_isFinite (read_keys d (JS.keys (getNodes g)) i j))
           ∧ cell m i i = Some self_dist.
Proof.
  intros Hd. unfold adjMatrixW. rewrite Hd. simpl. eexists. split; [reflexivity|].
  intros i j Hi Hj. rewrite !build_matrix_cell by done. split.
  - intros Hne. destruct (Nat.eqb_spec i j) as [|_]; [done|].
    simpl. destruct (read_keys d _ i j) as [x|]; simpl; [|reflexivity].
    destruct (JS.isFinite x) eqn:E; [exact E | reflexivity].
  - by rewrite Nat.eqb_refl.
Qed.

Lemma adjMatrixW_finite_off_diagonal_witness :
  adjListW parallel_3_5 false false 0%float = JS.Ok parallel_3_5_dict
  ∧ ∃ m, adjMatrixW parallel_3_5 false false 0%float = JS.Ok m
       ∧ ∀ i j, i < nrNodes parallel_3_5 → j < nrNodes parallel_3_5 →
           (i ≠ j → JS.prop_isFinite (cell m i j)
                    = JS.prop_isFinite
                        (read_keys parallel_3_5_dict (JS.keys (getNodes parallel_3_5)) i j))
           ∧ cell m i i = Some 0%float.
Proof.
  split; [vm_compute; reflexivity|].
  apply (adjMatrixW_finite_off_diagonal parallel_3_5 false false 0%float parallel_3_5_dict).
  vm_compute; reflexivity.
Defined.

(** C7 fails on the diagonal: for the graph of the single node A and the
    default arguments, the cell (0, 0) of [adjMatrixW] is 0, which is
    finite, while [adjListW] has no entry for (A, A), which is not. *)
Lemma adjMatrixW_diagonal_finite_without_entry :
  adjListW lone false false 0%float = JS.Ok [("A", [])]
  ∧ adjMatrixW lone false false 0%float = JS.Ok [[0%float]]
  ∧ JS.prop_isFinite (cell [[0%float]] 0 0) = true
  ∧ JS.prop_isFinite (read_keys [("A", [])] (JS.keys (getNodes lone)) 0 0) = false.
Proof. repeat split; vm_compute; reflexivity. Qed.

(** C2, at two parallel edges from A to B whose weights are 0 and 5: both
    are weighted, so their effective weights are 0 and 5, and the
    dictionary of [adjListW()] holds 5 for (A, B).  The claim expects the
    minimum, 0. *)
Lemma adjListW_zero_weight_overridden :
  map (fun ne => (node ne, getWeight (edge ne))) (adjListW_neighbors false
        (default (Node.new "A" None) (getNodeById parallel_0_5 "A")))
  = [("B", 0%float); ("B", 5%float)]
  ∧ adjListW parallel_0_5 false false 0%float = JS.Ok [("A", [("B", 5%float)]); ("B", [])].
Proof. split; vm_compute; reflexivity. Qed.

End ComputeFacts.

Module ClusteringFacts.
Import Edge Node Graph Compute Examples ClosedForms.

(** *** [adjListW] without the incoming edges always returns *)

Lemma write2_ok (d : MinAdjacencyListDict) (k1 k2 : string) (v : JS.number) :
  JS.has d k1 = true →
  ∃ d', write2 d k1 k2 v = JS.Ok d' ∧ ∀ k, JS.has d' k = JS.has d k.
Proof.
  unfold write2, JS.has. destruct (JS.get d k1) as [row|] eqn:E; [|done].
  intros _. eexists. split; [reflexivity|]. intros k.
  rewrite ObjectFacts.get_set. destruct (String.eqb_spec k1 k) as [<-|]; [|done].
  by rewrite E.
Qed.

Lemma adjListW_init_rows (nodes : JS.object BaseNode) (include_self : bool)
    (self_dist : JS.number) (k : string) :
  k ∈ JS.keys nodes → JS.has (adjListW_init nodes include_self self_dist) k = true.
Proof.
  unfold adjListW_init.
  assert (∀ d0, (k ∈ JS.keys nodes ∨ JS.has d0 k = true) →
    JS.has (fold_left (λ d kv, JS.set d kv.1
              (if include_self then JS.set [] kv.1 self_dist else [])) nodes d0) k
    = true) as H.
  { induction nodes as [|[k' n] nodes IH]; intros d0 Hk; simpl.
    - destruct Hk as [Hk|Hk]; [by apply elem_of_nil in Hk | done].
    - apply IH. rewrite ObjectFacts.has_set.
      destruct Hk as [Hk|Hk].
      + simpl in Hk. apply elem_of_cons in Hk as [->|Hk]; [|by left].
        right. by rewrite String.eqb_refl.
      + right. rewrite Hk. apply orb_true_r. }
  intros Hk. apply H. by left.
Qed.

Lemma adjListW_outgoing_returns (g : BaseGraph) (include_self : bool)
    (self_dist : JS.number) :
  ∃ d, adjListW g false include_self self_dist = JS.Ok d.
Proof.
  unfold adjListW.
  destruct (for_each_invariant
    (λ d, ∀ k, k ∈ JS.keys (getNodes g) → JS.has d k = true)
    (λ d kv, for_each (adjListW_visit false kv.1) (adjListW_neighbors false kv.2) d)
    (getNodes g) (adjListW_init (getNodes g) include_self self_dist))
    as (d & Hd & _); [| |eauto].
  - intros k. apply adjListW_init_rows.
  - intros d [key n] Hin Hrows. simpl.
    assert (Hkey : key ∈ JS.keys (getNodes g)).
    { unfold JS.keys. apply list_elem_of_fmap. by exists (key, n). }
    apply for_each_invariant; [done|].
    intros d1 ne _ Hrows1. unfold adjListW_visit.
    destruct (PrimFloat.ltb _ _).
    + destruct (write2_ok d1 key (node ne)
                  (if JS.isNaN (getWeight (edge ne)) then DEFAULT_WEIGHT
                   else getWeight (edge ne))) as (d2 & -> & H2); [by apply Hrows1|].
      simpl. eexists. split; [reflexivity|]. intros k Hk. rewrite H2. by apply Hrows1.
    + destruct (write2_ok d1 key (node ne)
                  (JS.prop_or_else (read2 d1 key (node ne)) JS.POSITIVE_INFINITY))
        as (d2 & -> & H2); [by apply Hrows1|].
      simpl. eexists. split; [reflexivity|]. intros k Hk. rewrite H2. by apply Hrows1.
Qed.

(** *** The shape of the matrices *)




(** *** The loop of [clustCoef] *)





(** On the undirected triangle every coefficient is 1. *)
Example clustCoef_triangle :
  clustCoef triangle true false = JS.Ok [("0", 1%float); ("1", 1%float); ("2", 1%float)].
Proof. vm_compute. reflexivity. Qed.

End ClusteringFacts.

(** ** PageRank: the preprocessing *)

Module PreprocessingFacts.
Import Edge Node Graph PageRank Invariants ClosedForms.

Lemma distinct_NoDup (l : list string) : distinct l = true → NoDup l.
Proof.
  induction l as [|k l IH]; simpl; [intros _; constructor|].
  intros [Hk Hl]%andb_true_iff. constructor; [|auto].
  intros Hin. apply negb_true_iff in Hk.
  assert (existsb (String.eqb k) l = true) as E; [|by rewrite E in Hk].
  apply existsb_exists. exists k. split; [by apply list_elem_of_In|].
  apply String.eqb_refl.
Qed.

Section Objects.
Context {V : Type}.
Implicit Types (o pre : JS.object V) (k : string) (v : V).

Lemma get_app_fresh pre o k : k ∉ JS.keys pre → JS.get (pre ++ o) k = JS.get o k.
Proof.
  induction pre as [|[k' v'] pre IH]; simpl; [done|].
  intros [Hne Hk]%not_elem_of_cons.
  destruct (String.eqb_spec k' k) as [->|_]; [done | auto].
Qed.

Lemma set_app_fresh pre o k v :
  k ∉ JS.keys pre → JS.set (pre ++ o) k v = pre ++ JS.set o k v.
Proof.
  induction pre as [|[k' v'] pre IH]; simpl; [done|].
  intros [Hne Hk]%not_elem_of_cons.
  destruct (String.eqb_spec k' k) as [->|_]; [done|]. by rewrite IH.
Qed.

Lemma get_position o k v : JS.get o k = Some v → ∃ i, o !! i = Some (k, v).
Proof.
  induction o as [|[k' v'] o IH]; simpl; [done|].
  destruct (String.eqb_spec k' k) as [->|_].
  - intros [= ->]. by exists 0.
  - intros [i Hi]%IH. by exists (S i).
Qed.

Lemma set_elem o k v k' v' :
  (k', v') ∈ JS.set o k v → (k', v') ∈ o ∨ (k', v') = (k, v).
Proof.
  induction o as [|[k0 v0] o IH]; simpl.
  - intros ->%list_elem_of_singleton. by right.
  - destruct (String.eqb_spec k0 k) as [->|_].
    + intros [->|H]%elem_of_cons; [by right | left; by right].
    + intros [->|H]%elem_of_cons; [left; left|].
      destruct (IH H) as [?|?]; [left; by right | by right].
Qed.

Lemma mergeObjects_elem (o1 o2 : JS.object V) k v :
  (k, v) ∈ mergeObjects [o1; o2] → (k, v) ∈ o1 ∨ (k, v) ∈ o2.
Proof.
  unfold mergeObjects. simpl.
  assert (∀ (o acc : JS.object V),
            (k, v) ∈ fold_left (λ acc' kv, JS.set acc' kv.1 kv.2) o acc →
            (k, v) ∈ acc ∨ (k, v) ∈ o) as H.
  { induction o as [|[k0 v0] o IH]; intros acc; simpl; [by left|].
    intros [H|H]%IH; [|right; by right].
    apply set_elem in H as [H| ->]; [by left | right; left]. }
  intros [H1|H1]%H; [|by right].
  apply H in H1 as [H1|H1]; [by apply elem_of_nil in H1 | by left].
Qed.

End Objects.

(** *** The first loop: every node receives its position as [PR_index] *)

Lemma index_from_keys (i : nat) (nodes : JS.object BaseNode) :
  JS.keys (index_from i nodes) = JS.keys nodes.
Proof. revert i. induction nodes as [|kv r IH]; intros i; simpl; [done|]. by rewrite IH. Qed.

Lemma index_from_length (i : nat) (nodes : JS.object BaseNode) :
  length (index_from i nodes) = length nodes.
Proof. revert i. induction nodes as [|kv r IH]; intros i; simpl; [done|]. by rewrite IH. Qed.

Lemma index_from_lookup (i j : nat) (nodes : JS.object BaseNode) :
  index_from i nodes !! j
  = (λ kv, (fst kv, setFeature (snd kv) "PR_index" (ANum (i + j)))) <$> nodes !! j.
Proof.
  revert i j. induction nodes as [|kv r IH]; intros i j; [done|].
  destruct j as [|j]; simpl.
  - by rewrite Nat.add_0_r.
  - rewrite IH. by rewrite Nat.add_succ_r.
Qed.

Lemma PR_index_setFeature (n : BaseNode) (i : nat) :
  PR_index (setFeature n "PR_index" (ANum i)) = Some i.
Proof. unfold PR_index. by rewrite NodeFacts.getFeature_setFeature. Qed.

Lemma array_set_end {A : Type} (hole : A) (arr : list A) (i : nat) (v : A) :
  length arr = i → array_set hole arr i v = arr ++ [v].
Proof.
  intros <-. unfold array_set. rewrite Nat.ltb_irrefl, Nat.sub_diag. reflexivity.
Qed.

Lemma index_loop (init_rank : JS.number) (todo : JS.object BaseNode) :
  ∀ (pre : JS.object BaseNode) (g : BaseGraph) (ds : PRArrayDS) (i : nat),
    _nodes g = pre ++ todo →
    NoDup (JS.keys (pre ++ todo)) →
    length (curr ds) = i → length (old ds) = i → length (outDeg ds) = i →
    for_each (index_node init_rank) (JS.keys todo) (g, ds, i)
    = JS.Ok (with_nodes g (pre ++ index_from i todo),
             {| curr := curr ds ++ replicate (length todo) init_rank;
                old := old ds ++ replicate (length todo) init_rank;
                outDeg := outDeg ds ++ map out_und todo;
                pull := pull ds |},
             i + length todo).
Proof.
  induction todo as [|[k n] todo IH]; intros pre g ds i Hg Hnd Hc Ho Hd.
  - simpl. rewrite !app_nil_r, Nat.add_0_r. rewrite app_nil_r in Hg.
    destruct g, ds. simpl in *. unfold with_nodes. simpl. by rewrite Hg.
  - assert (Hk : k ∉ JS.keys pre).
    { unfold JS.keys in *. rewrite fmap_app in Hnd. apply NoDup_app in Hnd as (_ & Hnd & _).
      intros Hin. apply (Hnd k Hin). left. }
    simpl. unfold getNodeById. rewrite Hg, get_app_fresh by done.
    simpl. rewrite String.eqb_refl.
    rewrite set_app_fresh by done. simpl. rewrite String.eqb_refl.
    rewrite !array_set_end by done.
    rewrite (IH (pre ++ [(k, setFeature n "PR_index" (ANum i))])).
    + simpl. unfold with_nodes. simpl. rewrite <- !app_assoc. simpl.
      by rewrite Nat.add_succ_r.
    + simpl. by rewrite <- app_assoc.
    + unfold JS.keys in *. rewrite <- app_assoc. simpl.
      rewrite !fmap_app in *. exact Hnd.
    + simpl. rewrite length_app. simpl. lia.
    + simpl. rewrite length_app. simpl. lia.
    + simpl. rewrite length_app. simpl. lia.
Qed.

(** *** The second loop: the pull list of every node *)

Lemma pull_node_step (g : BaseGraph) (ds : PRArrayDS) (k : string) (n : BaseNode) :
  getNodeById g k = Some n →
  PR_index n = Some (length (pull ds)) →
  pull_node g ds k
  = JS.Ok {| curr := curr ds; old := old ds; outDeg := outDeg ds;
             pull := pull ds ++ [pull_of g n] |}.
Proof.
  intros Hget Hidx. unfold pull_node. rewrite Hget, Hidx.
  by rewrite array_set_end.
Qed.

Lemma pull_loop (g : BaseGraph) (todo : JS.object BaseNode) :
  ∀ (ds : PRArrayDS),
    (∀ j kv, todo !! j = Some kv →
       getNodeById g (fst kv) = Some (snd kv)
       ∧ PR_index (snd kv) = Some (length (pull ds) + j)) →
    for_each (pull_node g) (JS.keys todo) ds
    = JS.Ok {| curr := curr ds; old := old ds; outDeg := outDeg ds;
               pull := pull ds ++ map (λ kv, pull_of g (snd kv)) todo |}.
Proof.
  induction todo as [|[k n] todo IH]; intros ds Hl.
  - simpl. rewrite app_nil_r. by destruct ds.
  - destruct (Hl 0 (k, n) eq_refl) as [Hget Hidx]. simpl in Hget, Hidx.
    rewrite Nat.add_0_r in Hidx.
    cbn [JS.keys map fst for_each]. rewrite (pull_node_step g ds k n) by done.
    cbn [mbind result_bind JS.bind]. fold (JS.keys todo). rewrite IH.
    + simpl. by rewrite <- app_assoc.
    + intros j kv Hj. simpl. rewrite length_app. simpl.
      destruct (Hl (S j) kv Hj) as [? ?]. split; [done|].
      replace (length (pull ds) + 1 + j) with (length (pull ds) + S j) by lia. done.
Qed.

(** *** [setPRArrayDataStructs] in closed form *)

Lemma indexed_get (g : BaseGraph) (i : nat) (k : string) (n : BaseNode) :
  NoDup (JS.keys (getNodes g)) →
  getNodes g !! i = Some (k, n) →
  getNodeById (indexed g) k = Some (setFeature n "PR_index" (ANum i)).
Proof.
  intros Hnd Hi. unfold getNodeById, indexed. simpl.
  apply (ObjectFacts.get_lookup _ i).
  - by rewrite index_from_keys.
  - rewrite index_from_lookup. unfold getNodes, JS.object in *. by rewrite Hi.
Qed.

Lemma setPRArrayDataStructs_closed (g : BaseGraph) (init_rank : JS.number) :
  NoDup (JS.keys (getNodes g)) →
  setPRArrayDataStructs g init_rank {| curr := []; old := []; outDeg := []; pull := [] |}
  = JS.Ok (indexed g,
           {| curr := replicate (nrNodes g) init_rank;
              old := replicate (nrNodes g) init_rank;
              outDeg := map out_und (getNodes g);
              pull := map (λ kv, pull_of (indexed g) (snd kv)) (getNodes (indexed g)) |}).
Proof.
  intros Hnd. unfold setPRArrayDataStructs.
  rewrite (index_loop init_rank (getNodes g) [] g _ 0); try done.
  simpl. fold (indexed g).
  replace (JS.keys (getNodes g)) with (JS.keys (getNodes (indexed g)))
    by (unfold indexed; simpl; apply index_from_keys).
  rewrite pull_loop; [done|].
  intros j [k n'] Hj. simpl.
  unfold indexed, getNodes in Hj. simpl in Hj. rewrite index_from_lookup in Hj.
  destruct (_nodes g !! j) as [[k0 n]|] eqn:E; [|done]. simpl in Hj.
  injection Hj as <- <-. split.
  - by apply (indexed_get g j).
  - apply PR_index_setFeature.
Qed.

End PreprocessingFacts.

(** ** PageRank: what the invariants give the preprocessing *)

Module SourceFacts.
Import Edge Node Graph PageRank Invariants PreprocessingFacts ClosedForms.

Lemma has_size {V : Type} (o : JS.object V) (k : string) :
  JS.has o k = true → 1 ≤ JS.size o.
Proof. destruct o; [done|]. simpl. lia. Qed.

Lemma well_formed_NoDup (g : BaseGraph) :
  well_formed g = true → NoDup (JS.keys (getNodes g)).
Proof. intros [H _]%andb_true_iff. by apply distinct_NoDup. Qed.

Lemma well_formed_node (g : BaseGraph) (k : string) (n : BaseNode) :
  well_formed g = true → (k, n) ∈ getNodes g → node_ok g (k, n) = true.
Proof.
  intros [_ H]%andb_true_iff Hin. rewrite forallb_forall in H.
  apply H. by apply list_elem_of_In.
Qed.

(** A node of a well-formed graph that holds an edge in its out-bucket or
    in its undirected bucket has an out-degree entry of at least 1. *)
Lemma holder_out_und (g : BaseGraph) (id : string) (e : BaseEdge) :
  well_formed g = true →
  holds_out g id e = true ∨ holds_und g id e = true →
  ∃ p ns, getNodes g !! p = Some (id, ns) ∧ (1 ≤ out_und (id, ns))%Z.
Proof.
  intros Hwf Hh. unfold holds_out, holds_und in Hh.
  destruct (getNodeById g id) as [ns|] eqn:Hns; [|by destruct Hh].
  destruct (get_position _ _ _ Hns) as [p Hp]. exists p, ns. split; [done|].
  pose proof (well_formed_node g id ns Hwf) as Hok.
  rewrite list_elem_of_lookup in Hok. specialize (Hok (ex_intro _ p Hp)).
  unfold node_ok in Hok. simpl in Hok.
  apply andb_true_iff in Hok as [Hok _]. apply andb_true_iff in Hok as [Hok _].
  apply andb_true_iff in Hok as [_ Hc]. unfold counters_ok in Hc.
  apply andb_true_iff in Hc as [Hc Hu]. apply andb_true_iff in Hc as [_ Ho].
  apply Z.eqb_eq in Hu, Ho. unfold out_und, outDegree, degree. simpl.
  rewrite Ho, Hu. destruct Hh as [Hh|Hh]; apply has_size in Hh; lia.
Qed.

(** The source of every edge of a pull set is a node of the graph with an
    out-degree entry of at least 1. *)
Lemma source_in_graph (g : BaseGraph) (k : string) (n : BaseNode) (ke : string * BaseEdge) :
  well_formed g = true →
  (k, n) ∈ getNodes g →
  ke ∈ mergeObjects [inEdges n; undEdges n] →
  ∃ p ns, getNodes g !! p = Some (source_id n (snd ke), ns)
          ∧ (1 ≤ out_und (source_id n (snd ke), ns))%Z.
Proof.
  intros Hwf Hin Hke. pose proof (well_formed_node g k n Hwf Hin) as Hok.
  unfold node_ok in Hok. simpl in Hok.
  apply andb_true_iff in Hok as [Hok Hund]. apply andb_true_iff in Hok as [Hok Hinb].
  apply andb_true_iff in Hok as [Hid _]. apply String.eqb_eq in Hid.
  rewrite forallb_forall in Hinb, Hund.
  destruct ke as [ek e]. apply mergeObjects_elem in Hke as [Hke|Hke]; simpl.
  - apply list_elem_of_In, Hinb in Hke. simpl in Hke. unfold in_edge_ok in Hke.
    apply andb_true_iff in Hke as [Hke Hh]. apply andb_true_iff in Hke as [_ Hb].
    apply String.eqb_eq in Hb.
    assert (source_id n e = _node_a e) as ->.
    { unfold source_id, Node.getID. rewrite Hid.
      destruct (String.eqb_spec (_node_a e) k) as [->|]; [done | done]. }
    apply (holder_out_und g _ e Hwf). by left.
  - apply list_elem_of_In, Hund in Hke. simpl in Hke. unfold und_edge_ok in Hke.
    apply andb_true_iff in Hke as [Hke Hhb]. apply andb_true_iff in Hke as [_ Hha].
    unfold source_id. destruct (String.eqb _ _).
    + apply (holder_out_und g _ e Hwf). by right.
    + apply (holder_out_und g _ e Hwf). by right.
Qed.

(** In the indexed graph that source carries its position as [PR_index]. *)
Lemma parent_idx_position (g : BaseGraph) (n : BaseNode) (i p : nat) (e : BaseEdge)
    (ns : BaseNode) :
  NoDup (JS.keys (getNodes g)) →
  getNodes g !! p = Some (source_id n e, ns) →
  parent_idx (indexed g) (setFeature n "PR_index" (ANum i)) e = Some p.
Proof.
  intros Hnd Hp. unfold parent_idx.
  change (if String.eqb (_node_a e) (Node.getID (setFeature n "PR_index" (ANum i)))
          then _node_b e else _node_a e) with (source_id n e).
  rewrite (indexed_get g p _ ns Hnd Hp). simpl. apply PR_index_setFeature.
Qed.

(** The pull list of the node at position [i] of a well-formed graph: one
    entry per edge of its pull set, the position of the source of the
    edge. *)
Lemma pull_of_resolved (g : BaseGraph) (i : nat) (k : string) (n : BaseNode) :
  well_formed g = true →
  getNodes g !! i = Some (k, n) →
  Forall2 (λ ke s, ∃ p d, s = Some p
                     ∧ JS.keys (getNodes g) !! p = Some (source_id n (snd ke))
                     ∧ map out_und (getNodes g) !! p = Some d ∧ (1 ≤ d)%Z)
    (mergeObjects [inEdges n; undEdges n])
    (pull_of (indexed g) (setFeature n "PR_index" (ANum i))).
Proof.
  intros Hwf Hi. unfold pull_of.
  change (inEdges (setFeature n "PR_index" (ANum i))) with (inEdges n).
  change (undEdges (setFeature n "PR_index" (ANum i))) with (undEdges n).
  apply Forall2_fmap_r, Forall_Forall2_diag, Forall_forall. intros ke Hke.
  destruct (source_in_graph g k n ke Hwf) as (p & ns & Hp & Hd); [|done|].
  { apply list_elem_of_lookup. eauto. }
  exists p, (out_und (source_id n ke.2, ns)). split; [|split; [|split]].
  - by apply (parent_idx_position g n i p _ ns (well_formed_NoDup g Hwf)).
  - unfold JS.keys. change (map ?f ?l !! p) with ((f <$> l) !! p).
    unfold getNodes, JS.object in *. by rewrite list_lookup_fmap, Hp.
  - change (map ?f ?l !! p) with ((f <$> l) !! p).
    unfold getNodes, JS.object in *. by rewrite list_lookup_fmap, Hp.
  - done.
Qed.

End SourceFacts.

(** ** PageRank: the array iteration against the power iteration *)

Module ArrayFacts.
Import Edge Node Graph PageRank Invariants PreprocessingFacts SourceFacts ClosedForms.
Import PowerIteration.

Lemma pull_sum (ds : PRArrayDS) (srcs : list (option nat)) :
  (∀ s, s ∈ srcs → ∃ p d, s = Some p ∧ outDeg ds !! p = Some d ∧ d ≠ 0%Z) →
  ∀ acc,
    for_each (pull_source ds) srcs acc
    = JS.Ok (fold_left
               (λ s j, PrimFloat.add s
                         (PrimFloat.div (num_at (old ds) j)
                                        (JS.of_Z (default 0%Z (outDeg ds !! j)))))
               (sources srcs) acc).
Proof.
  induction srcs as [|s srcs IH]; intros Hs acc; [done|].
  destruct (Hs s) as (p & d & -> & Hd & Hnz); [left|].
  simpl. rewrite Hd. destruct (Z.eqb_spec d 0) as [|_]; [done|].
  simpl. rewrite IH; [done|]. intros s' Hs'. apply Hs. by right.
Qed.

Lemma num_at_insert (l : list JS.number) (k : nat) (v : JS.number) :
  k < length l → num_at (<[k := v]> l) k = v.
Proof. intros Hk. unfold num_at. by rewrite list_lookup_insert_eq. Qed.

Lemma visit_node_step (a d : JS.number) (ds : PRArrayDS) (acc : JS.number)
    (k : nat) (srcs : list (option nat)) :
  pull ds !! k = Some srcs →
  (∀ s, s ∈ srcs → ∃ p d, s = Some p ∧ outDeg ds !! p = Some d ∧ d ≠ 0%Z) →
  k < length (curr ds) →
  visit_node a d (ds, acc) k
  = JS.Ok ({| curr := <[k := rank_of a d ds srcs]> (curr ds); old := old ds;
              outDeg := outDeg ds; pull := pull ds |},
           PrimFloat.add acc
             (PrimFloat.abs (PrimFloat.sub (rank_of a d ds srcs) (num_at (old ds) k)))).
Proof.
  intros Hsrcs Hres Hk. unfold visit_node. rewrite Hsrcs.
  rewrite (pull_sum ds srcs Hres). cbn [mbind result_bind JS.bind].
  unfold array_set. apply Nat.ltb_lt in Hk as Hk'. rewrite Hk'.
  cbn [curr old]. rewrite num_at_insert by done. reflexivity.
Qed.

(** One pass of [for (let node in ds.curr)], up to the index [k]. *)
Lemma node_loop_prefix (a d : JS.number) (ds : PRArrayDS) (k : nat) :
  resolved ds →
  k ≤ length (curr ds) →
  let U := update a d (outDeg ds) (sources <$> pull ds) (old ds) in
  for_each (visit_node a d) (seq 0 k) (ds, JS.of_Z 0)
  = JS.Ok ({| curr := take k U ++ drop k (curr ds); old := old ds;
              outDeg := outDeg ds; pull := pull ds |},
           fold_left
             (λ acc i, PrimFloat.add acc
                         (PrimFloat.abs (PrimFloat.sub (num_at U i) (num_at (old ds) i))))
             (seq 0 k) 0%float).
Proof.
  intros [Hlen Hres] Hk U.
  assert (HU : length U = length (curr ds)).
  { subst U. unfold update. by rewrite length_map, length_fmap. }
  induction k as [|k IH].
  - cbn [seq for_each take drop app fold_left]. by destruct ds.
  - rewrite seq_S, for_each_app, IH by lia.
    cbn [mbind result_bind JS.bind for_each Nat.add].
    destruct (lookup_lt_is_Some_2 (pull ds) k) as [srcs Hsrcs]; [lia|].
    assert (Htk : length (take k U) = k) by (rewrite length_take; lia).
    rewrite (visit_node_step a d _ _ k srcs); cbn [curr old outDeg pull].
    2: done.
    2: { intros s Hs. apply (Hres k srcs s Hsrcs Hs). }
    2: { rewrite length_app, Htk, length_drop. lia. }
    assert (HUk : U !! k = Some (rank_of a d ds srcs)).
    { subst U. unfold update.
      change (map ?f ?l !! k) with ((f <$> l) !! k).
      by rewrite list_lookup_fmap, list_lookup_fmap, Hsrcs. }
    destruct (lookup_lt_is_Some_2 (curr ds) k) as [ck Hck]; [lia|].
    unfold rank_of at 1 2. cbn [curr old outDeg pull]. fold (rank_of a d ds srcs).
    assert (Hins : <[k:=rank_of a d ds srcs]> (take k U ++ drop k (curr ds))
                   = take (S k) U ++ drop (S k) (curr ds)).
    { rewrite (drop_S _ _ _ Hck), (take_S_r _ _ _ HUk).
      rewrite <- app_assoc. cbn [app].
      rewrite insert_app_r_alt by lia. by rewrite Htk, Nat.sub_diag. }
    rewrite Hins. f_equal. f_equal.
    rewrite fold_left_app. cbn [fold_left]. f_equal. f_equal. f_equal.
    unfold num_at. by rewrite HUk.
Qed.

(** One iteration of [getPRArray]: the ranks are updated as the
    specification says, and [delta_iter] is the L1 delta. *)
Lemma node_loop (a d : JS.number) (ds : PRArrayDS) :
  resolved ds →
  for_each (visit_node a d) (seq 0 (length (curr ds))) (ds, JS.of_Z 0)
  = JS.Ok ({| curr := update a d (outDeg ds) (sources <$> pull ds) (old ds);
              old := old ds; outDeg := outDeg ds; pull := pull ds |},
           delta (update a d (outDeg ds) (sources <$> pull ds) (old ds)) (old ds)).
Proof.
  intros Hres. rewrite (node_loop_prefix a d ds _ Hres) by done.
  assert (HU : length (update a d (outDeg ds) (sources <$> pull ds) (old ds))
               = length (curr ds)).
  { unfold update. destruct Hres as [-> _]. by rewrite length_map, length_fmap. }
  unfold delta. rewrite HU.
  rewrite <- HU at 1. rewrite firstn_all.
  rewrite drop_all. by rewrite app_nil_r.
Qed.

Lemma ranks_length (a d : JS.number) (outDeg0 : list Z) (pull0 : list (list nat))
    (start : list JS.number) (t : nat) :
  length (ranks a d outDeg0 pull0 start (S t)) = length pull0.
Proof. unfold ranks. simpl. unfold update at 1. by rewrite length_map. Qed.

(** The loop of [getPRArray], from the iteration number [t] on. *)
Lemma getPRArray_loop_ranks (a d c m : JS.number) (start : list JS.number)
    (outDeg0 : list Z) (pull0 : list (list (option nat))) (fuel : nat) :
  ∀ (t : nat) (ds : PRArrayDS),
    resolved ds →
    outDeg ds = outDeg0 → pull ds = pull0 →
    curr ds = ranks a d outDeg0 (sources <$> pull0) start t →
    old ds = ranks a d outDeg0 (sources <$> pull0) start t →
    match performed a d c outDeg0 (sources <$> pull0) start (more_passes m) fuel t with
    | Some k =>
        ∃ ds', getPRArray_loop a d c m fuel t ds = Some (JS.Ok ds')
               ∧ curr ds' = ranks a d outDeg0 (sources <$> pull0) start k
    | None => getPRArray_loop a d c m fuel t ds = None
    end.
Proof.
  induction fuel as [|fuel IH]; intros t ds Hres Hod Hp Hc Ho; [done|].
  cbn [performed getPRArray_loop]. destruct (more_passes m t); [|eauto].
  rewrite (node_loop a d ds Hres).
  rewrite Hod, Hp, Ho.
  change (update a d outDeg0 (sources <$> pull0)
            (ranks a d outDeg0 (sources <$> pull0) start t))
    with (ranks a d outDeg0 (sources <$> pull0) start (S t)).
  change (delta (ranks a d outDeg0 (sources <$> pull0) start (S t))
            (ranks a d outDeg0 (sources <$> pull0) start t))
    with (delta_at a d outDeg0 (sources <$> pull0) start t).
  unfold converged_at.
  destruct (PrimFloat.leb _ c); [eauto|].
  apply IH; simpl; try done.
  destruct Hres as [Hlen Hres]. split; cbn [curr pull outDeg].
  + unfold update. by rewrite length_map, length_fmap.
  + rewrite <- Hp, <- Hod. exact Hres.
Qed.

End ArrayFacts.

(** ** PageRank: the array version on a well-formed graph *)

Module PageRankFacts.
Import Edge Node Graph PageRank Invariants PreprocessingFacts SourceFacts ArrayFacts ClosedForms.
Import PowerIteration.

Section Performed.
Variables (a d c : JS.number) (outDeg0 : list Z) (pull0 : list (list nat)).
Variable start : list JS.number.
Variable more : nat → bool.

Lemma performed_bounds (fuel t k : nat) :
  performed a d c outDeg0 pull0 start more fuel t = Some k → t ≤ k ≤ t + fuel.
Proof.
  revert t. induction fuel as [|f IH]; intros t; simpl; [done|].
  destruct (more t); [|intros [= <-]; lia].
  destruct (converged_at _ _ _ _ _ _ _); [intros [= <-]; lia|].
  intros H%IH. lia.
Qed.

(** Every iteration performed was let in by the test of the loop. *)
Lemma performed_let_in (fuel t k u : nat) :
  performed a d c outDeg0 pull0 start more fuel t = Some k →
  t ≤ u < k → more u = true.
Proof.
  revert t. induction fuel as [|f IH]; intros t; simpl; [done|].
  destruct (more t) eqn:E; [|intros [= <-]; lia].
  destruct (converged_at _ _ _ _ _ _ _).
  - intros [= <-] Hu. by assert (u = t) as -> by lia.
  - intros H Hu. destruct (decide (u = t)) as [->|Hne]; [done|].
    apply (IH (S t)); [done | lia].
Qed.

(** No iteration before the last one performed was within the threshold. *)
Lemma performed_not_before (fuel t k u : nat) :
  performed a d c outDeg0 pull0 start more fuel t = Some k →
  t ≤ u → S u < k →
  converged_at a d c outDeg0 pull0 start u = false.
Proof.
  revert t. induction fuel as [|f IH]; intros t; simpl; [done|].
  destruct (more t); [|intros [= <-]; lia].
  destruct (converged_at a d c outDeg0 pull0 start t) eqn:E; [intros [= <-]; lia|].
  intros H Htu Hlt. destruct (decide (t = u)) as [->|Hne]; [done|].
  apply (IH (S t)); [done | lia | done].
Qed.

(** The loop ends on an iteration within the threshold, or on a test that
    fails. *)
Lemma performed_end (fuel t k : nat) :
  performed a d c outDeg0 pull0 start more fuel t = Some k →
  (t < k ∧ converged_at a d c outDeg0 pull0 start (k - 1) = true) ∨ more k = false.
Proof.
  revert t. induction fuel as [|f IH]; intros t; simpl; [done|].
  destruct (more t) eqn:Em; [|intros [= <-]; by right].
  destruct (converged_at a d c outDeg0 pull0 start t) eqn:E.
  - intros [= <-]. left. split; [lia|]. by replace (S t - 1) with t by lia.
  - intros H. destruct (IH (S t) H) as [[H1 H2]|H1]; [left|by right].
    split; [lia | done].
Qed.


End Performed.

(** *** The rank map *)

Lemma rank_map_from (cur : list JS.number) (todo : JS.object BaseNode) :
  ∀ (i : nat) (acc : RankMap),
    NoDup (JS.keys acc ++ JS.keys todo) →
    i + length todo ≤ length cur →
    fold_left
      (λ result kv,
         JS.set result (fst kv)
           (match PR_index (snd kv) with
            | Some i => num_at cur i
            | None => JS.NaN
            end))
      (index_from i todo) acc
    = acc ++ zip (JS.keys todo) (take (length todo) (drop i cur)).
Proof.
  induction todo as [|[k n] todo IH]; intros i acc Hnd Hlen.
  - simpl. by rewrite app_nil_r.
  - cbn [index_from fold_left fst snd]. rewrite PR_index_setFeature.
    simpl in Hlen.
    destruct (lookup_lt_is_Some_2 cur i) as [ci Hci]; [lia|].
    rewrite ObjectFacts.set_fresh.
    2: { apply ObjectFacts.get_None_not_in. simpl in Hnd.
         apply NoDup_app in Hnd as (_ & Hnd & _). intros Hin.
         apply (Hnd k Hin). left. }
    rewrite IH.
    + rewrite <- app_assoc. f_equal. simpl.
      rewrite (drop_S _ _ _ Hci). simpl. unfold num_at. by rewrite Hci.
    + unfold JS.keys in *. rewrite fmap_app. simpl. rewrite <- app_assoc. exact Hnd.
    + lia.
Qed.

Lemma rank_map_closed (g : BaseGraph) (ds : PRArrayDS) :
  NoDup (JS.keys (getNodes g)) →
  length (curr ds) = nrNodes g →
  getRankMapFromArray (indexed g) ds = zip (JS.keys (getNodes g)) (curr ds).
Proof.
  intros Hnd Hlen. unfold getRankMapFromArray, indexed, nrNodes, getNodes in *.
  cbn [_nodes with_nodes].
  rewrite rank_map_from; [|done|simpl; lia].
  simpl. rewrite drop_0. by rewrite <- Hlen, firstn_all.
Qed.

(** *** The constructor *)

Lemma constructor_closed (g : BaseGraph) (cfg : PrRandomWalkConfig) :
  NoDup (JS.keys (getNodes g)) →
  constructor g cfg
  = JS.Ok {| _graph := indexed g;
             _weighted := match weighted cfg with Some true => true | _ => false end;
             _alpha := alpha_of cfg; _alphaDamp := alphaDamp_of cfg g;
             _convergence := convergence_of cfg;
             _maxIterations := iterations_of cfg;
             _init := init_of cfg g;
             _PRArrayDS := arrays_of cfg g |}.
Proof.
  intros Hnd. unfold constructor.
  fold (init_of cfg g). rewrite (setPRArrayDataStructs_closed g _ Hnd). reflexivity.
Qed.

(** On a well-formed graph every pull entry is an index whose out-degree
    entry is at least 1. *)
Lemma arrays_of_pull (g : BaseGraph) (cfg : PrRandomWalkConfig) (i : nat)
    (srcs : list (option nat)) (s : option nat) :
  well_formed g = true →
  pull (arrays_of cfg g) !! i = Some srcs → s ∈ srcs →
  ∃ p d, s = Some p ∧ outDeg (arrays_of cfg g) !! p = Some d ∧ (1 ≤ d)%Z.
Proof.
  intros Hwf Hi Hs. unfold arrays_of in *. cbn [pull outDeg] in *.
  change (map ?f ?l !! i) with ((f <$> l) !! i) in Hi.
  rewrite list_lookup_fmap in Hi. unfold indexed in Hi. cbn [getNodes _nodes with_nodes] in Hi.
  rewrite index_from_lookup in Hi.
  destruct (getNodes g !! i) as [[k n]|] eqn:E; [|done]. simpl in Hi.
  injection Hi as <-. fold (indexed g) in *.
  pose proof (pull_of_resolved g i k n Hwf E) as HF.
  apply list_elem_of_lookup in Hs as [j Hj].
  destruct (Forall2_lookup_r _ _ _ _ _ HF Hj) as (ke & _ & p & d & -> & _ & Hd & Hge).
  eauto.
Qed.

Lemma arrays_of_resolved (g : BaseGraph) (cfg : PrRandomWalkConfig) :
  well_formed g = true → resolved (arrays_of cfg g).
Proof.
  intros Hwf. split.
  - unfold arrays_of. cbn [curr pull]. rewrite length_replicate, length_map.
    unfold indexed. cbn [getNodes _nodes with_nodes]. by rewrite index_from_length.
  - intros i srcs s Hi Hs.
    destruct (arrays_of_pull g cfg i srcs s Hwf Hi Hs) as (p & d & -> & Hd & Hge).
    exists p, d. repeat split; [done|lia].
Qed.

Lemma ranks_length_eq (a d : JS.number) (outDeg0 : list Z) (pull0 : list (list nat))
    (start : list JS.number) (t : nat) :
  length start = length pull0 →
  length (ranks a d outDeg0 pull0 start t) = length pull0.
Proof. destruct t; [done|]. intros _. apply ranks_length. Qed.

(** [getPRArray] on the object the constructor builds from a well-formed
    graph, in terms of the power iteration. *)
Lemma getPRArray_closed (g : BaseGraph) (cfg : PrRandomWalkConfig) (pr : PageRankRandomWalk)
    (fuel : nat) :
  well_formed g = true →
  constructor g cfg = JS.Ok pr →
  getPRArray fuel pr
  = (λ k, JS.Ok (zip (JS.keys (getNodes g))
                   (ranks (_alpha pr) (_alphaDamp pr) (outDeg (_PRArrayDS pr))
                      (sources <$> pull (_PRArrayDS pr)) (old (_PRArrayDS pr)) k)))
    <$> performed (_alpha pr) (_alphaDamp pr) (_convergence pr)
          (outDeg (_PRArrayDS pr)) (sources <$> pull (_PRArrayDS pr))
          (old (_PRArrayDS pr)) (more_passes (_maxIterations pr)) fuel 0.
Proof.
  intros Hwf. pose proof (well_formed_NoDup g Hwf) as Hnd.
  rewrite (constructor_closed g cfg Hnd). intros [= <-].
  unfold getPRArray. cbn [_alpha _alphaDamp _convergence _maxIterations _PRArrayDS _graph].
  pose proof (getPRArray_loop_ranks (alpha_of cfg) (alphaDamp_of cfg g) (convergence_of cfg)
                (iterations_of cfg) (old (arrays_of cfg g)) (outDeg (arrays_of cfg g))
                (pull (arrays_of cfg g)) fuel 0 (arrays_of cfg g)) as H.
  destruct (performed _ _ _ _ _ _ _ fuel 0) as [k|].
  - destruct H as (ds' & -> & Hcurr); try done.
    { by apply arrays_of_resolved. }
    cbn [mbind result_bind JS.bind fmap option_fmap option_map]. do 2 f_equal.
    rewrite rank_map_closed; [by rewrite Hcurr | done |].
    rewrite Hcurr, ranks_length_eq.
    + rewrite length_fmap. unfold arrays_of. cbn [pull]. rewrite length_map.
      unfold indexed, nrNodes, getNodes. cbn [_nodes with_nodes]. apply index_from_length.
    + rewrite length_fmap. unfold arrays_of. cbn [pull old].
      rewrite length_replicate, length_map.
      unfold indexed, nrNodes, getNodes. cbn [_nodes with_nodes].
      by rewrite index_from_length.
  - rewrite H; try done. by apply arrays_of_resolved.
Qed.


(** The loop of [getPRArray] is the power iteration: on a graph that
    satisfies the invariants of the data model, outDeg[j] is the out-degree
    plus the undirected degree of the node j, and a call that returns
    returns the ranks after [k] iterations, each of which replaces the
    ranks by (1 - alpha) * (sum over j in pull[i] of old[j] / outDeg[j])
    + alpha / alphaDamp for the indices i in order; each of these [k]
    iterations was let in by the test [i < _maxIterations]; none before the
    last had an L1 delta within the convergence threshold; and the last one
    had, unless the test has failed for [k]. *)
Lemma getPRArray_iterates (g : BaseGraph) (cfg : PrRandomWalkConfig) :
  well_formed g = true →
  ∃ pr,
    constructor g cfg = JS.Ok pr
    ∧ outDeg (_PRArrayDS pr)
      = map (λ kv, (outDegree (snd kv) + degree (snd kv))%Z) (getNodes g)
    ∧ ∀ fuel r, getPRArray fuel pr = Some r →
        ∃ k, r = JS.Ok (zip (JS.keys (getNodes g))
                          (ranks (_alpha pr) (_alphaDamp pr) (outDeg (_PRArrayDS pr))
                             (sources <$> pull (_PRArrayDS pr)) (old (_PRArrayDS pr)) k))
          ∧ (∀ t, t < k → more_passes (_maxIterations pr) t = true)
          ∧ (∀ t, S t < k →
               converged_at (_alpha pr) (_alphaDamp pr) (_convergence pr)
                 (outDeg (_PRArrayDS pr)) (sources <$> pull (_PRArrayDS pr))
                 (old (_PRArrayDS pr)) t = false)
          ∧ ((0 < k
              ∧ converged_at (_alpha pr) (_alphaDamp pr) (_convergence pr)
                  (outDeg (_PRArrayDS pr)) (sources <$> pull (_PRArrayDS pr))
                  (old (_PRArrayDS pr)) (k - 1) = true)
             ∨ more_passes (_maxIterations pr) k = false).
Proof.
  intros Hwf. pose proof (well_formed_NoDup g Hwf) as Hnd.
  pose proof (constructor_closed g cfg Hnd) as Hpr.
  eexists. split; [exact Hpr|]. split; [reflexivity|].
  intros fuel r. rewrite (getPRArray_closed g cfg _ fuel Hwf Hpr).
  destruct (performed _ _ _ _ _ _ _ fuel 0) as [k|] eqn:E; [|done].
  intros [= <-]. exists k. split; [done|]. split; [|split].
  - intros t Ht. apply (performed_let_in _ _ _ _ _ _ _ _ _ _ t E). lia.
  - intros t Ht. apply (performed_not_before _ _ _ _ _ _ _ _ _ _ t E); [lia | done].
  - apply (performed_end _ _ _ _ _ _ _ _ _ _ E).
Qed.

End PageRankFacts.

(** ** PageRank: the dictionary version against the array version *)

Module DictFacts.
Import Edge Node Graph PageRank Invariants PreprocessingFacts SourceFacts ArrayFacts ClosedForms.
Import PageRankFacts PowerIteration.

(** *** Objects whose keys are the node ids, in order *)

Section Keyed.
Context {V : Type}.




End Keyed.

(** *** The set-up loop of [getPRDict] *)



(** *** The two states side by side *)










(** *** [getPRDict] on the object of the constructor *)







End DictFacts.

(** ** PageRank on the sample graphs *)

Module PageRankExamples.
Import Edge Node Graph PageRank Invariants Examples ClosedForms PageRankSamples.
Import PageRankFacts DictFacts PowerIteration.



(** C1 at the configuration [{iterations: 0}], on the mixed graph: the
    constructor replaces the configured 0 by 1000, and [getPRArray]
    performs 17 iterations, where the claim allows none; it returns the
    ranks after these iterations, none of which is the initial rank 1/3. *)
Theorem getPRArray_zero_iterations :
  iterations no_iterations = Some 0%float
  ∧ ∃ pr, constructor mixed3 no_iterations = JS.Ok pr
      ∧ _maxIterations pr = 1000%float
      ∧ old (_PRArrayDS pr) = replicate 3 (PrimFloat.div 1 3)
      ∧ performed (_alpha pr) (_alphaDamp pr) (_convergence pr)
          (outDeg (_PRArrayDS pr)) (sources <$> pull (_PRArrayDS pr))
          (old (_PRArrayDS pr)) (more_passes (_maxIterations pr)) 1001 0 = Some 17
      ∧ getPRArray 1001 pr
        = Some (JS.Ok (zip ["A"; "B"; "C"]
                         (ranks (_alpha pr) (_alphaDamp pr) (outDeg (_PRArrayDS pr))
                            (sources <$> pull (_PRArrayDS pr)) (old (_PRArrayDS pr)) 17)))
      ∧ map (λ r, PrimFloat.eqb r (PrimFloat.div 1 3))
          (ranks (_alpha pr) (_alphaDamp pr) (outDeg (_PRArrayDS pr))
             (sources <$> pull (_PRArrayDS pr)) (old (_PRArrayDS pr)) 17)
        = [false; false; false].
Proof.
  split; [reflexivity|]. eexists. split; [vm_compute; reflexivity|].
  repeat split; vm_compute; reflexivity.
Qed.

(** The convergence scenario, run: on the ring of three nodes every rank
    is within 1e-4 of 1/3. *)
Example ring3_ranks :
  (pr ← constructor ring3 scenario_config;
   JS.Ok (match getPRArray 101 pr with
          | Some (JS.Ok rank_map) =>
              Some (JS.keys rank_map,
                    forallb (λ r, PrimFloat.leb
                                    (PrimFloat.abs (PrimFloat.sub r (PrimFloat.div 1 3)))
                                    0x1.a36e2eb1c432dp-14)
                       (JS.values rank_map))
          | _ => None
          end))
  = JS.Ok (Some (["A"; "B"; "C"], true)).
Proof. vm_compute. reflexivity. Qed.

(** Both versions, run on the mixed graph, give the same map. *)
Example mixed3_both :
  (pr ← constructor mixed3 scenario_config; JS.Ok (getPRArray 101 pr))
  = (pr ← constructor mixed3 scenario_config; JS.Ok (getPRDict 101 pr)).
Proof. vm_compute. reflexivity. Qed.

(** Without the invariants the zero-divisor branch is taken, and the two
    versions part: on [broken] the node B is pulled from by A while B holds
    no edge; the array version throws and the dictionary version returns. *)
Example broken_zero_divisor :
  well_formed broken = false
  ∧ (pr ← constructor broken scenario_config; JS.Ok (getPRArray 101 pr))
    = JS.Ok (Some (JS.Throw ZERO_DIVISOR))
  ∧ (pr ← constructor broken scenario_config;
     JS.Ok (match getPRDict 101 pr with Some r => JS.is_ok r | None => false end))
    = JS.Ok true.
Proof. repeat split; vm_compute; reflexivity. Qed.

End PageRankExamples.

(** ** The container keeps the invariants *)

Module ContainerFacts.
Import Edge Node Graph Invariants PreprocessingFacts Container.

Lemma NoDup_distinct (l : list string) : NoDup l → distinct l = true.
Proof.
  induction 1 as [|k l Hk _ IH]; [done|]. simpl. rewrite IH, andb_true_r.
  apply negb_true_iff. destruct (existsb (String.eqb k) l) eqn:E; [|done].
  apply existsb_exists in E as (k' & Hin & ->%String.eqb_eq).
  exfalso. apply Hk. by apply list_elem_of_In.
Qed.

Lemma consistent_well_formed (g : BaseGraph) : consistent g → well_formed g = true.
Proof.
  intros [Hnd Hn]. unfold well_formed. rewrite (NoDup_distinct _ Hnd). simpl.
  apply forallb_forall. intros [k n] Hin%list_elem_of_In.
  apply list_elem_of_lookup in Hin as [i Hi].
  destruct (Hn k n) as [Hid Hc Hin _ Hund].
  { apply (ObjectFacts.get_lookup _ i); done. }
  unfold node_ok. cbn [fst snd]. rewrite Hc, Hid, String.eqb_refl. simpl.
  apply andb_true_iff. split; apply forallb_forall; intros [ek e] He%list_elem_of_In.
  - by destruct (Hin ek e He) as (_ & _ & ?).
  - by destruct (Hund ek e He) as (_ & _ & ?).
Qed.

(** *** The nodes of the store only ever gain edges *)

Lemma grows_holds_out (g g' : BaseGraph) (x : string) (e : BaseEdge) :
  grows g g' → holds_out g x e = true → holds_out g' x e = true.
Proof.
  intros [_ Hg]. unfold holds_out.
  destruct (getNodeById g x) as [n|] eqn:E; [|done].
  destruct (Hg x n E) as (n' & -> & Ho & _). apply Ho.
Qed.

Lemma grows_holds_und (g g' : BaseGraph) (x : string) (e : BaseEdge) :
  grows g g' → holds_und g x e = true → holds_und g' x e = true.
Proof.
  intros [_ Hg]. unfold holds_und.
  destruct (getNodeById g x) as [n|] eqn:E; [|done].
  destruct (Hg x n E) as (n' & -> & _ & Hu). apply Hu.
Qed.

Lemma grows_in_edge_ok (g g' : BaseGraph) (k : string) (e : BaseEdge) :
  grows g g' → in_edge_ok g k e = true → in_edge_ok g' k e = true.
Proof.
  intros Hg. unfold in_edge_ok. intros [H1 H2]%andb_true_iff.
  by rewrite H1, (grows_holds_out g g' _ e Hg H2).
Qed.

Lemma grows_und_edge_ok (g g' : BaseGraph) (k : string) (e : BaseEdge) :
  grows g g' → und_edge_ok g k e = true → und_edge_ok g' k e = true.
Proof.
  intros Hg. unfold und_edge_ok. intros [H1 H3]%andb_true_iff.
  apply andb_true_iff in H1 as [H1 H2].
  by rewrite H1, (grows_holds_und g g' _ e Hg H2), (grows_holds_und g g' _ e Hg H3).
Qed.

(** A node that was consistent in [g] and has not changed is consistent in
    a graph that [g] has grown into. *)
Lemma grows_node_consistent (g g' : BaseGraph) (k : string) (n : BaseNode) :
  grows g g' → node_consistent g k n → node_consistent g' k n.
Proof.
  intros Hg [Hid Hc Hin Hout Hund]. pose proof Hg as [He _].
  split; try done.
  - intros ek e Hek. destruct (Hin ek e Hek) as (? & ? & ?).
    repeat split; [done | by apply He | by apply (grows_in_edge_ok g)].
  - intros ek e Hek. destruct (Hout ek e Hek) as (? & ? & ?).
    repeat split; [done | by apply He].
  - intros ek e Hek. destruct (Hund ek e Hek) as (? & ? & ?).
    repeat split; [done | by apply He | by apply (grows_und_edge_ok g)].
Qed.

(** *** What [BaseNode.addEdge] does to a node of the store *)

Lemma unattached_has (n : BaseNode) (e : BaseEdge) :
  unattached n e →
  JS.has (_in_edges n) (Edge.getID e) = false
  ∧ JS.has (_out_edges n) (Edge.getID e) = false
  ∧ JS.has (Node._und_edges n) (Edge.getID e) = false
  ∧ JS.inherited (Edge.getID e) = false.
Proof.
  intros (Hin & Hout & Hund).
  apply ObjectFacts.present_false in Hin as [? ?].
  apply ObjectFacts.present_false in Hout as [? _].
  by apply ObjectFacts.present_false in Hund as [? _].
Qed.

Lemma addEdge_first (n : BaseNode) (e : BaseEdge) :
  _node_a e = Node._id n → unattached n e →
  Node.addEdge n e = JS.Ok (attach_first n e).
Proof.
  intros Ha (Hin & Hout & Hund). unfold Node.addEdge, attach_first, is_this.
  rewrite Ha, String.eqb_refl, Hout, Hund. cbn [negb andb].
  destruct (isDirected e); [|done]. cbn [with_out Node._id _in_edges].
  rewrite Hin. by destruct (String.eqb (_node_b e) (Node._id n)).
Qed.

(** A directed edge whose id names an inherited property reads as present
    in every bucket: [addEdge] stores nothing and returns. *)
Lemma addEdge_inherited (n : BaseNode) (e : BaseEdge) :
  JS.inherited (Edge.getID e) = true →
  is_this n (_node_a e) || is_this n (_node_b e) = true →
  Node.addEdge n e
  = if isDirected e then JS.Ok n
    else JS.Throw "Cannot add same undirected edge multiple times.".
Proof.
  intros Hi Hc. unfold Node.addEdge, JS.present. rewrite Hi, !orb_true_r.
  cbn [negb]. rewrite !andb_false_r.
  destruct (is_this n (_node_a e)); destruct (is_this n (_node_b e)); try done;
    by destruct (isDirected e).
Qed.

Lemma addEdge_second (n : BaseNode) (e : BaseEdge) :
  _node_b e = Node._id n → _node_a e ≠ _node_b e → unattached n e →
  Node.addEdge n e = JS.Ok (attach_second n e).
Proof.
  intros Hb Hne (Hin & Hout & Hund). unfold Node.addEdge, attach_second, is_this.
  rewrite <- Hb. rewrite String.eqb_refl.
  destruct (String.eqb_spec (_node_a e) (_node_b e)) as [|_]; [done|].
  cbn [negb andb]. rewrite Hin, Hund. by destruct (isDirected e).
Qed.

(** A directed self-loop is attached by the first call; the second call on
    the same node changes nothing. *)
Lemma addEdge_self_again (n : BaseNode) (e : BaseEdge) :
  isDirected e = true → _node_a e = Node._id n → _node_b e = Node._id n →
  Node.addEdge (attach_first n e) e = JS.Ok (attach_first n e).
Proof.
  intros Hd Ha Hb. unfold attach_first. rewrite Hd, Hb, String.eqb_refl.
  unfold Node.addEdge, is_this. cbn [with_in with_out Node._id _out_edges _in_edges].
  rewrite Ha, Hd, String.eqb_refl. unfold JS.present, JS.has.
  rewrite !ObjectFacts.get_set_eq. done.
Qed.

Lemma consistent_unattached (g : BaseGraph) (k : string) (n : BaseNode) (e : BaseEdge) :
  node_consistent g k n → hasEdgeID g (Edge.getID e) = false →
  JS.inherited (Edge.getID e) = false → unattached n e.
Proof.
  intros [_ _ Hin Hout Hund] Hfresh Hord.
  assert (∀ P bucket, bucket_ok g P bucket → JS.present bucket (Edge.getID e) = false) as H.
  { intros P bucket Hb. rewrite ObjectFacts.present_ordinary by done. unfold JS.has.
    destruct (JS.get bucket (Edge.getID e)) as [e0|] eqn:E; [|done].
    apply ObjectFacts.get_Some_in in E. destruct (Hb _ _ E) as (_ & He & _).
    by rewrite Hfresh in He. }
  repeat split; eapply H; eassumption.
Qed.

Lemma size_set_fresh {V : Type} (o : JS.object V) (k : string) (v : V) :
  JS.has o k = false → JS.size (JS.set o k v) = S (JS.size o).
Proof.
  unfold JS.has. destruct (JS.get o k) eqn:E; [done|]. intros _.
  rewrite ObjectFacts.set_fresh by done. unfold JS.size. rewrite length_app. simpl. lia.
Qed.

Lemma counters_attach_first (n : BaseNode) (e : BaseEdge) :
  counters_ok n = true → unattached n e → counters_ok (attach_first n e) = true.
Proof.
  unfold counters_ok.
  intros [[Hi Ho]%andb_true_iff Hu]%andb_true_iff (Hin & Hout & Hund & _)%unattached_has.
  apply Z.eqb_eq in Hi, Ho, Hu. unfold attach_first.
  destruct (isDirected e); [destruct (String.eqb _ _)|];
    cbn [with_in with_out with_und _in_degree _out_degree _und_degree
         _in_edges _out_edges Node._und_edges];
    rewrite ?size_set_fresh by done;
    repeat (apply andb_true_iff; split); apply Z.eqb_eq; lia.
Qed.

Lemma counters_attach_second (n : BaseNode) (e : BaseEdge) :
  counters_ok n = true → unattached n e → counters_ok (attach_second n e) = true.
Proof.
  unfold counters_ok.
  intros [[Hi Ho]%andb_true_iff Hu]%andb_true_iff (Hin & Hout & Hund & _)%unattached_has.
  apply Z.eqb_eq in Hi, Ho, Hu. unfold attach_second.
  destruct (isDirected e);
    cbn [with_in with_out with_und _in_degree _out_degree _und_degree
         _in_edges _out_edges Node._und_edges];
    rewrite ?size_set_fresh by done;
    repeat (apply andb_true_iff; split); apply Z.eqb_eq; lia.
Qed.

Lemma bucket_ok_set (g : BaseGraph) (P : BaseEdge -> Prop) (bucket : JS.object BaseEdge)
    (e : BaseEdge) :
  bucket_ok g P bucket → hasEdgeID g (Edge.getID e) = true → P e →
  bucket_ok g P (JS.set bucket (Edge.getID e) e).
Proof.
  intros Hb He HP ek e0 [Hin|[= -> ->]]%set_elem; [by apply Hb | done].
Qed.

Lemma bucket_ok_impl (g g' : BaseGraph) (P Q : BaseEdge -> Prop)
    (bucket : JS.object BaseEdge) :
  (∀ id, hasEdgeID g id = true → hasEdgeID g' id = true) →
  (∀ e, P e → Q e) →
  bucket_ok g P bucket → bucket_ok g' Q bucket.
Proof.
  intros Hid HPQ Hb ek e He. destruct (Hb ek e He) as (? & ? & ?).
  repeat split; [done | by apply Hid | by apply HPQ].
Qed.

(** *** [addEdge] on the container *)

Lemma set_set_eq {V : Type} (o : JS.object V) (k : string) (v v' : V) :
  JS.set (JS.set o k v) k v' = JS.set o k v'.
Proof.
  induction o as [|[k0 v0] o IH]; simpl.
  - by rewrite String.eqb_refl.
  - destruct (String.eqb k0 k) eqn:E; simpl; rewrite E; [done | by rewrite IH].
Qed.

Lemma has_get_some {V : Type} (o : JS.object V) (k : string) :
  JS.has o k = true → ∃ v, JS.get o k = Some v.
Proof. unfold JS.has. destruct (JS.get o k); [eauto | done]. Qed.

Lemma set_same {V : Type} (o : JS.object V) (k : string) (v : V) :
  JS.get o k = Some v → JS.set o k v = o.
Proof.
  induction o as [|[k0 v0] o IH]; simpl; [done|].
  destruct (String.eqb_spec k0 k) as [->|_]; [by intros [= ->] | intros H; by rewrite IH].
Qed.

(** An edge whose id names an inherited property is recorded by the
    container while no node takes it: the store of the nodes is as it
    was. *)
Lemma addEdge_closed_inherited (g g' : BaseGraph) (e : BaseEdge) :
  consistent g → JS.inherited (Edge.getID e) = true → Graph.addEdge g e = JS.Ok g' →
  g' = {| Graph._label := Graph._label g;
          _nodes := _nodes g;
          _dir_edges := JS.set (_dir_edges g) (Edge.getID e) e;
          Graph._und_edges := Graph._und_edges g |}.
Proof.
  intros [Hnd Hn] Hi. unfold Graph.addEdge, hasNodeID.
  destruct (JS.has (_nodes g) (_node_a e)) eqn:Ha; [|done].
  destruct (JS.has (_nodes g) (_node_b e)) eqn:Hb; [|done]. cbn [negb orb].
  destruct (hasEdgeID g (Edge.getID e)) eqn:Hfresh; [done|].
  apply has_get_some in Ha as [na Hna]. apply has_get_some in Hb as [nb Hnb].
  pose proof (Hn _ _ Hna) as Hca. pose proof (Hn _ _ Hnb) as Hcb.
  unfold on_node at 2. unfold getNodeById at 1. rewrite Hna.
  rewrite (addEdge_inherited na e Hi).
  2: { unfold is_this. by rewrite (nc_id _ _ _ Hca), String.eqb_refl. }
  destruct (isDirected e) eqn:Hd; [|done].
  cbn [mbind result_bind JS.bind orb]. rewrite (set_same _ _ _ Hna).
  unfold on_node, getNodeById. cbn [with_nodes _nodes]. rewrite Hnb.
  rewrite (addEdge_inherited nb e Hi).
  2: { unfold is_this. by rewrite (nc_id _ _ _ Hcb), String.eqb_refl, orb_true_r. }
  rewrite Hd. cbn [mbind result_bind JS.bind with_nodes _nodes Graph._label _dir_edges
                   Graph._und_edges].
  rewrite (set_same _ _ _ Hnb). by intros [= <-].
Qed.

Lemma addEdge_closed (g g' : BaseGraph) (e : BaseEdge) :
  consistent g → JS.inherited (Edge.getID e) = false → Graph.addEdge g e = JS.Ok g' →
  ∃ na nb,
    getNodeById g (_node_a e) = Some na ∧ getNodeById g (_node_b e) = Some nb
    ∧ hasEdgeID g (Edge.getID e) = false
    ∧ g' = {| Graph._label := Graph._label g;
              _nodes := nodes_after g e na nb;
              _dir_edges := if isDirected e
                            then JS.set (_dir_edges g) (Edge.getID e) e
                            else _dir_edges g;
              Graph._und_edges := if isDirected e
                                  then Graph._und_edges g
                                  else JS.set (Graph._und_edges g) (Edge.getID e) e |}.
Proof.
  intros [Hnd Hn] Hord. unfold Graph.addEdge, hasNodeID.
  destruct (JS.has (_nodes g) (_node_a e)) eqn:Ha; [|done].
  destruct (JS.has (_nodes g) (_node_b e)) eqn:Hb; [|done]. cbn [negb orb].
  destruct (hasEdgeID g (Edge.getID e)) eqn:Hfresh; [done|].
  apply has_get_some in Ha as [na Hna]. apply has_get_some in Hb as [nb Hnb].
  pose proof (Hn _ _ Hna) as Hca. pose proof (Hn _ _ Hnb) as Hcb.
  unfold on_node at 2. unfold getNodeById at 1. rewrite Hna.
  rewrite (addEdge_first na e);
    [| by rewrite (nc_id _ _ _ Hca) | by apply (consistent_unattached g _ _ _ Hca)].
  cbn [mbind result_bind JS.bind].
  intros H. exists na, nb. repeat split; try done.
  unfold nodes_after. revert H.
  destruct (String.eqb_spec (_node_a e) (_node_b e)) as [Hab|Hab].
  - rewrite <- Hab in Hnb. assert (nb = na) as -> by congruence.
    destruct (isDirected e) eqn:Hd; cbn [orb negb].
    + unfold on_node, getNodeById. cbn [with_nodes _nodes].
      rewrite <- Hab, ObjectFacts.get_set_eq.
      rewrite (addEdge_self_again na e Hd);
        [| by rewrite (nc_id _ _ _ Hca) | by rewrite <- Hab, (nc_id _ _ _ Hca)].
      cbn [mbind result_bind JS.bind with_nodes _nodes Graph._label _dir_edges Graph._und_edges].
      rewrite set_set_eq. by intros [= <-].
    + cbn [mbind result_bind JS.bind with_nodes _nodes Graph._label _dir_edges Graph._und_edges].
      by intros [= <-].
  - replace (isDirected e || negb false) with true by (by destruct (isDirected e)).
    unfold on_node, getNodeById. cbn [with_nodes _nodes].
    rewrite ObjectFacts.get_set_ne by done. unfold getNodeById in Hnb. rewrite Hnb.
    rewrite (addEdge_second nb e);
      [| by rewrite (nc_id _ _ _ Hcb) | done | by apply (consistent_unattached g _ _ _ Hcb)].
    cbn [mbind result_bind JS.bind with_nodes _nodes Graph._label _dir_edges Graph._und_edges].
    destruct (isDirected e); by intros [= <-].
Qed.

Section AddEdge.
Variables (g : BaseGraph) (e : BaseEdge) (na nb : BaseNode).
Hypothesis Hg : consistent g.
Hypothesis Hna : getNodeById g (_node_a e) = Some na.
Hypothesis Hnb : getNodeById g (_node_b e) = Some nb.
Hypothesis Hfresh : hasEdgeID g (Edge.getID e) = false.
Hypothesis Hord : JS.inherited (Edge.getID e) = false.

Local Abbreviation graph_after := (Container.graph_after g e na nb).

Lemma after_lookup (k : string) :
  getNodeById graph_after k
  = if String.eqb (_node_a e) k then Some (attach_first na e)
    else if String.eqb (_node_b e) k then Some (attach_second nb e)
    else getNodeById g k.
Proof.
  unfold getNodeById, graph_after, nodes_after. cbn [_nodes].
  destruct (String.eqb_spec (_node_a e) (_node_b e)) as [Hab|Hab].
  - rewrite ObjectFacts.get_set. rewrite <- Hab.
    by destruct (String.eqb (_node_a e) k).
  - rewrite !ObjectFacts.get_set.
    destruct (String.eqb_spec (_node_b e) k) as [<-|]; [|done].
    by destruct (String.eqb_spec (_node_a e) (_node_b e)).
Qed.

Lemma after_lookup_a : getNodeById graph_after (_node_a e) = Some (attach_first na e).
Proof. by rewrite after_lookup, String.eqb_refl. Qed.

Lemma after_lookup_b :
  _node_a e ≠ _node_b e →
  getNodeById graph_after (_node_b e) = Some (attach_second nb e).
Proof.
  intros Hab. rewrite after_lookup, String.eqb_refl.
  by destruct (String.eqb_spec (_node_a e) (_node_b e)).
Qed.

Lemma after_has_edge (id : string) :
  hasEdgeID g id = true → hasEdgeID graph_after id = true.
Proof.
  unfold hasEdgeID, graph_after. cbn [_dir_edges Graph._und_edges].
  destruct (isDirected e); rewrite ObjectFacts.has_set;
    intros [H|H]%orb_true_iff; rewrite H; by rewrite ?orb_true_r.
Qed.

Lemma after_has_new : hasEdgeID graph_after (Edge.getID e) = true.
Proof.
  unfold hasEdgeID, graph_after. cbn [_dir_edges Graph._und_edges].
  destruct (isDirected e); rewrite ObjectFacts.has_set, String.eqb_refl;
    by rewrite ?orb_true_r.
Qed.

Lemma attach_first_buckets (id : string) :
  (JS.has (_out_edges na) id = true → JS.has (_out_edges (attach_first na e)) id = true)
  ∧ (JS.has (Node._und_edges na) id = true
     → JS.has (Node._und_edges (attach_first na e)) id = true).
Proof.
  unfold attach_first.
  destruct (isDirected e); [destruct (String.eqb _ _)|];
    cbn [with_in with_out with_und _out_edges Node._und_edges];
    rewrite ?ObjectFacts.has_set; split; intros ->; by rewrite ?orb_true_r.
Qed.

Lemma attach_second_buckets (id : string) :
  (JS.has (_out_edges nb) id = true → JS.has (_out_edges (attach_second nb e)) id = true)
  ∧ (JS.has (Node._und_edges nb) id = true
     → JS.has (Node._und_edges (attach_second nb e)) id = true).
Proof.
  unfold attach_second.
  destruct (isDirected e);
    cbn [with_in with_out with_und _out_edges Node._und_edges];
    rewrite ?ObjectFacts.has_set; split; intros ->; by rewrite ?orb_true_r.
Qed.

Lemma after_grows : grows g graph_after.
Proof.
  split; [apply after_has_edge|]. intros x n Hx. rewrite after_lookup.
  destruct (String.eqb_spec (_node_a e) x) as [<-|Hax].
  - assert (n = na) as -> by congruence.
    exists (attach_first na e). split; [done|].
    split; intros id; apply attach_first_buckets.
  - destruct (String.eqb_spec (_node_b e) x) as [<-|Hbx]; [|eauto].
    assert (n = nb) as -> by congruence.
    exists (attach_second nb e). split; [done|].
    split; intros id; apply attach_second_buckets.
Qed.

(** The new edge is held by its endpoints. *)
Lemma after_holds_out :
  isDirected e = true → holds_out graph_after (_node_a e) e = true.
Proof.
  intros Hd. unfold holds_out. rewrite after_lookup_a. unfold attach_first. rewrite Hd.
  destruct (String.eqb _ _); cbn [with_in with_out _out_edges];
    unfold JS.has; by rewrite ObjectFacts.get_set_eq.
Qed.

Lemma after_holds_und_a :
  isDirected e = false → holds_und graph_after (_node_a e) e = true.
Proof.
  intros Hd. unfold holds_und. rewrite after_lookup_a. unfold attach_first. rewrite Hd.
  cbn [with_und Node._und_edges]. unfold JS.has. by rewrite ObjectFacts.get_set_eq.
Qed.

Lemma after_holds_und_b :
  isDirected e = false → holds_und graph_after (_node_b e) e = true.
Proof.
  intros Hd. destruct (String.eqb_spec (_node_a e) (_node_b e)) as [Hab|Hab].
  - rewrite <- Hab. by apply after_holds_und_a.
  - unfold holds_und. rewrite (after_lookup_b Hab). unfold attach_second. rewrite Hd.
    cbn [with_und Node._und_edges]. unfold JS.has. by rewrite ObjectFacts.get_set_eq.
Qed.

Lemma after_node_a : node_consistent graph_after (_node_a e) (attach_first na e).
Proof.
  destruct Hg as [_ Hn]. pose proof (Hn _ _ Hna) as Hca.
  pose proof (grows_node_consistent _ _ _ _ after_grows Hca) as [Hid Hc Hin Hout Hund].
  pose proof (consistent_unattached g _ _ e Hca Hfresh Hord) as Hun.
  split.
  - unfold attach_first. by destruct (isDirected e); [destruct (String.eqb _ _)|].
  - by apply counters_attach_first; [apply (nc_counters _ _ _ Hca)|].
  - unfold attach_first. destruct (isDirected e) eqn:Hd; [|done].
    destruct (String.eqb_spec (_node_b e) (Node._id na)) as [Hb|_]; [|done].
    cbn [with_in with_out _in_edges].
    apply bucket_ok_set; [done | apply after_has_new |].
    unfold in_edge_ok. rewrite Hd, (after_holds_out Hd), Hb, Hid.
    by rewrite String.eqb_refl.
  - unfold attach_first. destruct (isDirected e) eqn:Hd; [|done].
    destruct (String.eqb _ _); cbn [with_in with_out _out_edges];
      (apply bucket_ok_set; [done | apply after_has_new | done]).
  - unfold attach_first. destruct (isDirected e) eqn:Hd.
    { by destruct (String.eqb _ _). }
    cbn [with_und Node._und_edges].
    apply bucket_ok_set; [done | apply after_has_new |].
    unfold und_edge_ok.
    rewrite Hd, (after_holds_und_a Hd), (after_holds_und_b Hd), String.eqb_refl. done.
Qed.

Lemma after_node_b :
  _node_a e ≠ _node_b e → node_consistent graph_after (_node_b e) (attach_second nb e).
Proof.
  intros Hab. destruct Hg as [_ Hn]. pose proof (Hn _ _ Hnb) as Hcb.
  pose proof (grows_node_consistent _ _ _ _ after_grows Hcb) as [Hid Hc Hin Hout Hund].
  pose proof (consistent_unattached g _ _ e Hcb Hfresh Hord) as Hun.
  split.
  - unfold attach_second. by destruct (isDirected e).
  - by apply counters_attach_second; [apply (nc_counters _ _ _ Hcb)|].
  - unfold attach_second. destruct (isDirected e) eqn:Hd; [|done].
    cbn [with_in _in_edges].
    apply bucket_ok_set; [done | apply after_has_new |].
    unfold in_edge_ok. by rewrite Hd, (after_holds_out Hd), String.eqb_refl.
  - unfold attach_second. by destruct (isDirected e).
  - unfold attach_second. destruct (isDirected e) eqn:Hd; [done|].
    cbn [with_und Node._und_edges].
    apply bucket_ok_set; [done | apply after_has_new |].
    unfold und_edge_ok.
    rewrite Hd, (after_holds_und_a Hd), (after_holds_und_b Hd), String.eqb_refl.
    by rewrite orb_true_r.
Qed.

Lemma after_consistent : consistent graph_after.
Proof.
  split.
  - destruct Hg as [Hnd _]. unfold graph_after, getNodes, nodes_after. cbn [_nodes].
    assert (JS.has (_nodes g) (_node_a e) = true) as Ha.
    { unfold JS.has. unfold getNodeById in Hna. by rewrite Hna. }
    assert (JS.has (_nodes g) (_node_b e) = true) as Hb.
    { unfold JS.has. unfold getNodeById in Hnb. by rewrite Hnb. }
    destruct (String.eqb _ _); rewrite !ObjectFacts.keys_set, ?ObjectFacts.has_set, ?Ha, ?Hb,
      ?orb_true_r; done.
  - intros k n. rewrite after_lookup.
    destruct (String.eqb_spec (_node_a e) k) as [<-|Hak].
    + intros [= <-]. apply after_node_a.
    + destruct (String.eqb_spec (_node_b e) k) as [<-|Hbk].
      * intros [= <-]. by apply after_node_b.
      * intros Hk. apply (grows_node_consistent g); [apply after_grows|].
        destruct Hg as [_ Hn]. by apply Hn.
Qed.

End AddEdge.

(** [addEdge] keeps the invariants. *)
Lemma addEdge_consistent (g g' : BaseGraph) (e : BaseEdge) :
  consistent g → Graph.addEdge g e = JS.Ok g' → consistent g'.
Proof.
  intros Hg Hadd. destruct (JS.inherited (Edge.getID e)) eqn:Hi.
  - rewrite (addEdge_closed_inherited g g' e Hg Hi Hadd).
    destruct Hg as [Hnd Hn]. split; [done|]. intros k n Hk.
    apply (grows_node_consistent g); [|by apply Hn].
    split.
    + intros id. unfold hasEdgeID. cbn [_dir_edges Graph._und_edges].
      rewrite ObjectFacts.has_set. intros [H|H]%orb_true_iff; rewrite H;
        by rewrite ?orb_true_r.
    + intros x n0 Hx. by exists n0.
  - destruct (addEdge_closed g g' e Hg Hi Hadd) as (na & nb & Hna & Hnb & Hfresh & ->).
    by apply after_consistent.
Qed.

(** *** [addNode] on the container *)

Lemma addNode_consistent (g g' : BaseGraph) (id : string) (label : option string) :
  consistent g → Graph.addNode g (Node.new id label) = JS.Ok g' → consistent g'.
Proof.
  intros [Hnd Hn]. unfold Graph.addNode, hasNodeID. cbn [Node.getID Node.new Node._id].
  destruct (JS.has (_nodes g) id) eqn:Hid; [done|]. intros [= <-].
  assert (Hnone : JS.get (_nodes g) id = None).
  { unfold JS.has in Hid. by destruct (JS.get (_nodes g) id). }
  assert (Hgrow : grows g (with_nodes g (JS.set (_nodes g) id (Node.new id label)))).
  { split; [done|]. intros x n Hx. exists n. split; [|done].
    unfold getNodeById, with_nodes. cbn [_nodes]. rewrite ObjectFacts.get_set_ne; [done|].
    intros ->. unfold getNodeById in Hx. congruence. }
  split.
  - unfold getNodes, with_nodes. cbn [_nodes]. rewrite ObjectFacts.keys_set, Hid.
    apply NoDup_app. split; [done|]. split; [|apply NoDup_singleton].
    intros k Hk ->%list_elem_of_singleton. by apply ObjectFacts.get_None_not_in in Hnone.
  - intros k n. unfold getNodeById at 1. unfold with_nodes. cbn [_nodes].
    rewrite ObjectFacts.get_set.
    destruct (String.eqb_spec id k) as [<-|Hne].
    + intros [= <-]. split; try done; intros ek e0 He0; by apply elem_of_nil in He0.
    + intros Hk. apply (grows_node_consistent g); [done | by apply Hn].
Qed.

(** *** The graphs the container builds *)

Lemma built_consistent (g : BaseGraph) : built g → consistent g.
Proof.
  induction 1 as [label | g g' id label _ IH Hadd | g g' e _ IH Hadd].
  - split; [constructor|]. intros k n Hk. done.
  - by apply (addNode_consistent g g' id label).
  - by apply (addEdge_consistent g g' e).
Qed.

(** Every graph the container builds satisfies the invariants the
    algorithms rely on. *)
Lemma built_well_formed (g : BaseGraph) : built g → well_formed g = true.
Proof. intros Hb. by apply consistent_well_formed, built_consistent. Qed.

(** The graph holding A, B and the directed edge e1 from A to B is built
    by two [addNode] and one [addEdge], and satisfies the invariants. *)
Lemma built_well_formed_witness :
  built (Examples.build ["A"; "B"] [("e1", "A", "B", Examples.plain true)])
  ∧ well_formed (Examples.build ["A"; "B"] [("e1", "A", "B", Examples.plain true)]) = true.
Proof.
  assert (built (Examples.build ["A"; "B"] [("e1", "A", "B", Examples.plain true)])) as Hb.
  { apply (built_addEdge (Examples.build ["A"; "B"] []) _ Examples.e1_AB);
      [|vm_compute; reflexivity].
    apply (built_addNode (Examples.build ["A"] []) _ "B" None);
      [|vm_compute; reflexivity].
    apply (built_addNode (Graph.new "sample") _ "A" None);
      [apply built_new | vm_compute; reflexivity]. }
  split; [exact Hb | exact (built_well_formed _ Hb)].
Defined.

End ContainerFacts.

(** ** Objects: deleting a property *)

Module ObjectMore.
Section Facts.
Context {V : Type}.
Implicit Types (o : JS.object V) (k : string) (v : V).

Lemma delete_set_fresh o k v : JS.get o k = None → JS.delete (JS.set o k v) k = o.
Proof.
  induction o as [|[k' v'] o IH]; simpl.
  - by rewrite String.eqb_refl.
  - destruct (String.eqb k' k) eqn:E; [done|]. intros H. simpl. rewrite E. by rewrite IH.
Qed.

Lemma size_delete o k : JS.has o k = true → S (JS.size (JS.delete o k)) = JS.size o.
Proof.
  unfold JS.has. induction o as [|[k' v'] o IH]; simpl; [done|].
  destruct (String.eqb k' k) eqn:E; [done|]. intros H. simpl. f_equal. by apply IH.
Qed.

Lemma get_delete_ne o k k' : k ≠ k' → JS.get (JS.delete o k) k' = JS.get o k'.
Proof.
  intros Hne. induction o as [|[k0 v0] o IH]; simpl; [done|].
  destruct (String.eqb k0 k) eqn:E; simpl.
  - apply String.eqb_eq in E; subst k0.
    destruct (String.eqb k k') eqn:E'; [apply String.eqb_eq in E'; done | done].
  - by rewrite IH.
Qed.

Lemma get_delete_eq o k : NoDup (JS.keys o) → JS.get (JS.delete o k) k = None.
Proof.
  induction o as [|[k0 v0] o IH]; simpl; [done|].
  intros [Hk Hnd]%NoDup_cons.
  destruct (String.eqb k0 k) eqn:E; simpl.
  - apply String.eqb_eq in E; subst k0. by apply ObjectFacts.get_None_not_in.
  - rewrite E. by apply IH.
Qed.

Lemma keys_delete_NoDup o k : NoDup (JS.keys o) → NoDup (JS.keys (JS.delete o k)).
Proof.
  induction o as [|[k0 v0] o IH]; simpl; [done|].
  intros [Hk Hnd]%NoDup_cons.
  destruct (String.eqb k0 k) eqn:E; simpl; [done|].
  apply NoDup_cons. split; [|by apply IH].
  intros Hin. apply Hk. apply ObjectFacts.in_keys_get in Hin as [v Hv].
  destruct (String.eqb_spec k k0) as [->|Hne]; [by rewrite String.eqb_refl in E|].
  rewrite get_delete_ne in Hv by done.
  apply ObjectFacts.get_Some_in in Hv. unfold JS.keys.
  apply list_elem_of_fmap. by exists (k0, v).
Qed.

End Facts.
End ObjectMore.

(** ** BaseNode: the edge buckets and the features *)

Module NodeEdgeFacts.
Import Edge Node Invariants Container ObjectMore.

Lemma has_false_get {V : Type} (o : JS.object V) (k : string) :
  JS.has o k = false → JS.get o k = None.
Proof. unfold JS.has. by destruct (JS.get o k). Qed.

Lemma has_delete_eq {V : Type} (o : JS.object V) (k : string) :
  NoDup (JS.keys o) → JS.has (JS.delete o k) k = false.
Proof. intros H. unfold JS.has. by rewrite get_delete_eq. Qed.

Lemma has_delete_ne {V : Type} (o : JS.object V) (k k' : string) :
  k ≠ k' → JS.has (JS.delete o k) k' = JS.has o k'.
Proof. intros H. unfold JS.has. by rewrite get_delete_ne. Qed.

Lemma present_delete_eq {V : Type} (o : JS.object V) (k : string) :
  NoDup (JS.keys o) → JS.present (JS.delete o k) k = JS.inherited k.
Proof. intros H. unfold JS.present. by rewrite has_delete_eq. Qed.

Lemma present_delete_ne {V : Type} (o : JS.object V) (k k' : string) :
  k ≠ k' → JS.present (JS.delete o k) k' = JS.present o k'.
Proof. intros H. unfold JS.present. by rewrite has_delete_ne. Qed.

Lemma delete_absent {V : Type} (o : JS.object V) (k : string) :
  JS.has o k = false → JS.delete o k = o.
Proof.
  unfold JS.has. induction o as [|[k0 v0] o IH]; simpl; [done|].
  destruct (String.eqb k0 k); [done|]. intros H. by rewrite IH.
Qed.

(** An edge whose id reads as [undefined] in the three buckets of the
    node, once added, is removed again by [removeEdge] with the node exactly
    as it was before: the buckets, their order and the three counters. *)
Theorem addEdge_removeEdge (n n' : BaseNode) (e : BaseEdge) :
  unattached n e → Node.addEdge n e = JS.Ok n' → Node.removeEdge n' e = JS.Ok n.
Proof.
  intros Hun. pose proof (ContainerFacts.unattached_has n e Hun) as (Hin & Hout & Hund & Hord).
  destruct Hun as (Pin & Pout & Pund).
  destruct n as [id lbl d_in d_out d_und d_self ft bi bo bu].
  unfold Node.addEdge, Node.removeEdge, removeEdgeByID, hasEdgeID, is_this, with_out, with_in, with_und.
  simpl in *. rewrite Pin, Pout, Pund. simpl.
  pose proof (has_false_get _ _ Hin) as Gin.
  pose proof (has_false_get _ _ Hout) as Gout.
  pose proof (has_false_get _ _ Hund) as Gund.
  destruct (String.eqb (_node_a e) id) eqn:Ea; destruct (String.eqb (_node_b e) id) eqn:Eb;
    simpl; try done;
    destruct (isDirected e) eqn:Ed; simpl; rewrite ?andb_true_r; intros [= <-]; simpl;
    rewrite ?ObjectFacts.present_set, ?String.eqb_refl, ?Pin, ?Pout, ?Pund; simpl;
    rewrite ?delete_set_fresh by done; do 2 f_equal; lia.
Qed.

Lemma counters_ok_iff (n : BaseNode) :
  counters_ok n = true ↔
  _in_degree n = Z.of_nat (JS.size (_in_edges n))
  ∧ _out_degree n = Z.of_nat (JS.size (_out_edges n))
  ∧ _und_degree n = Z.of_nat (JS.size (Node._und_edges n)).
Proof.
  unfold counters_ok. rewrite !andb_true_iff, !Z.eqb_eq. tauto.
Qed.

(** The degree counters are the sizes of the buckets: when they are before
    [addEdge] or [clearEdges], they are afterwards, whatever the edge and
    whatever branch is taken; and so they are after [removeEdgeByID] (or
    [removeEdge]) of an id that names no inherited property.  An id that
    does name one reads as present in the three buckets: [removeEdgeByID]
    then returns with each of the three counters one lower, whether or not
    a bucket held the id. *)
Theorem edge_updates_keep_counters (n : BaseNode) :
  counters_ok n = true →
  (∀ e n', Node.addEdge n e = JS.Ok n' → counters_ok n' = true)
  ∧ (∀ id n', JS.inherited id = false →
       removeEdgeByID n id = JS.Ok n' → counters_ok n' = true)
  ∧ counters_ok (clearEdges n) = true
  ∧ (∀ id, JS.inherited id = true →
       ∃ n', removeEdgeByID n id = JS.Ok n'
         ∧ _in_degree n' = (_in_degree n - 1)%Z
         ∧ _out_degree n' = (_out_degree n - 1)%Z
         ∧ _und_degree n' = (_und_degree n - 1)%Z
         ∧ _in_edges n' = JS.delete (_in_edges n) id
         ∧ _out_edges n' = JS.delete (_out_edges n) id
         ∧ Node._und_edges n' = JS.delete (Node._und_edges n) id).
Proof.
  intros (Hi & Ho & Hu)%counters_ok_iff. split; [|split; [|split]].
  - intros e n'. unfold Node.addEdge.
    destruct (negb _ && negb _); [done|]. cbv zeta.
    destruct (isDirected e).
    + destruct (is_this n (_node_a e) && negb (JS.present (_out_edges n) (Edge.getID e))) eqn:E1.
      * apply andb_true_iff in E1 as [_ E1%negb_true_iff].
        apply ObjectFacts.present_false in E1 as [E1 _].
        destruct (is_this _ (_node_b e) && negb _) eqn:E2.
        -- apply andb_true_iff in E2 as [_ E2%negb_true_iff]. simpl in E2.
           apply ObjectFacts.present_false in E2 as [E2 _].
           intros [= <-]. apply counters_ok_iff. simpl.
           rewrite !ContainerFacts.size_set_fresh by done. lia.
        -- intros [= <-]. apply counters_ok_iff. simpl.
           rewrite !ContainerFacts.size_set_fresh by done. lia.
      * destruct (negb (JS.present (_in_edges n) (Edge.getID e))) eqn:E2.
        -- apply negb_true_iff, ObjectFacts.present_false in E2 as [E2 _].
           intros [= <-]. apply counters_ok_iff. simpl.
           rewrite !ContainerFacts.size_set_fresh by done. lia.
        -- intros [= <-]. by apply counters_ok_iff.
    + destruct (JS.present (Node._und_edges n) (Edge.getID e)) eqn:E1; [done|].
      apply ObjectFacts.present_false in E1 as [E1 _].
      intros [= <-]. apply counters_ok_iff. simpl.
      rewrite !ContainerFacts.size_set_fresh by done. lia.
  - intros id n' Hord. unfold removeEdgeByID. destruct (negb (hasEdgeID n id)); [done|].
    cbv zeta. rewrite !ObjectFacts.present_ordinary by done.
    intros [= <-]. apply counters_ok_iff. simpl.
    destruct (JS.has (_in_edges n) id) eqn:E1; destruct (JS.has (_out_edges n) id) eqn:E2;
      destruct (JS.has (Node._und_edges n) id) eqn:E3;
      repeat match goal with
             | H : JS.has ?o id = true |- _ => apply size_delete in H
             end; lia.
  - reflexivity.
  - intros id Hinh. unfold removeEdgeByID, hasEdgeID, JS.present. rewrite Hinh, !orb_true_r.
    cbn [negb orb]. eexists. split; [reflexivity|]. by cbn.
Qed.

(** After any [addEdge] that returns, [hasEdge] holds of the edge; and
    when the id read as [undefined] in the three buckets before, [getEdge]
    of the id returns the edge itself. *)
Theorem addEdge_lookup (n n' : BaseNode) (e : BaseEdge) :
  Node.addEdge n e = JS.Ok n' →
  hasEdge n' e = true
  ∧ (unattached n e → getEdge n' (Edge.getID e) = JS.Ok (JS.Own e)).
Proof.
  unfold Node.addEdge, hasEdge, hasEdgeID, getEdge.
  destruct (negb _ && negb _); [done|]. cbv zeta.
  destruct (isDirected e).
  - destruct (is_this n (_node_a e) && negb (JS.present (_out_edges n) (Edge.getID e))) eqn:E1.
    + destruct (is_this _ (_node_b e) && negb _) eqn:E2; intros [= <-]; simpl.
      * rewrite !ObjectFacts.present_set, String.eqb_refl. split; [done|].
        intros _. by rewrite ObjectFacts.read_set_eq.
      * rewrite !ObjectFacts.present_set, String.eqb_refl, orb_true_r. split; [done|].
        intros (Hin & _ & _). apply ObjectFacts.present_false in Hin as [Hin Hord].
        rewrite ObjectFacts.read_ordinary, (has_false_get _ _ Hin) by done.
        cbn [fmap option_fmap option_map]. by rewrite ObjectFacts.read_set_eq.
    + destruct (negb (JS.present (_in_edges n) (Edge.getID e))) eqn:E2; intros [= <-]; simpl.
      * rewrite !ObjectFacts.present_set, String.eqb_refl. split; [done|].
        intros _. by rewrite ObjectFacts.read_set_eq.
      * apply negb_false_iff in E2. rewrite E2. split; [done|].
        intros (Hin & _). congruence.
  - destruct (JS.present (Node._und_edges n) (Edge.getID e)) eqn:E1; [done|].
    intros [= <-]. simpl. rewrite !ObjectFacts.present_set, String.eqb_refl, !orb_true_r.
    split; [done|].
    intros (Hin & Hout & _).
    apply ObjectFacts.present_false in Hin as [Hin Hord].
    apply ObjectFacts.present_false in Hout as [Hout _].
    unfold JS.read.
    by rewrite (has_false_get _ _ Hin), (has_false_get _ _ Hout), Hord, ObjectFacts.get_set_eq.
Qed.

(** [hasEdgeID] is the test of reads that see the inherited properties:
    it holds of every id that names one.  [removeEdgeByID] throws exactly
    when [hasEdgeID] fails; otherwise it returns, the id is afterwards in
    none of the three buckets, so that [hasEdgeID] holds of it only for an
    inherited name, and [hasEdgeID] of every other id is as before. *)
Theorem removeEdgeByID_forgets (n : BaseNode) (id : string) :
  NoDup (JS.keys (_in_edges n)) → NoDup (JS.keys (_out_edges n)) →
  NoDup (JS.keys (Node._und_edges n)) →
  (JS.inherited id = true → hasEdgeID n id = true)
  ∧ if hasEdgeID n id
    then ∃ n', removeEdgeByID n id = JS.Ok n'
           ∧ JS.has (_in_edges n') id = false
           ∧ JS.has (_out_edges n') id = false
           ∧ JS.has (Node._und_edges n') id = false
           ∧ hasEdgeID n' id = JS.inherited id
           ∧ ∀ id', id' ≠ id → hasEdgeID n' id' = hasEdgeID n id'
    else removeEdgeByID n id = JS.Throw "Cannot remove unconnected edge.".
Proof.
  intros Hi Ho Hu. split.
  { intros Hinh. unfold hasEdgeID, JS.present. by rewrite Hinh, !orb_true_r. }
  unfold removeEdgeByID.
  destruct (hasEdgeID n id) eqn:E; [|done]. simpl.
  eexists. split; [reflexivity|]. unfold hasEdgeID in *. simpl.
  assert (∀ o : JS.object BaseEdge, NoDup (JS.keys o) →
            JS.has (if JS.present o id then JS.delete o id else o) id = false) as Hdel.
  { intros o Hnd. unfold JS.present.
    destruct (JS.has o id) eqn:E1; cbn [orb]; [by apply has_delete_eq|].
    destruct (JS.inherited id); [|done]. by rewrite delete_absent. }
  split_and!.
  - by apply Hdel.
  - by apply Hdel.
  - by apply Hdel.
  - unfold JS.present at 1 3 5. rewrite !Hdel by done. by destruct (JS.inherited id).
  - intros id' Hne.
    destruct (JS.present (_in_edges n) id); destruct (JS.present (_out_edges n) id);
      destruct (JS.present (Node._und_edges n) id);
      rewrite ?present_delete_ne by done; done.
Qed.

(** When the counters are the sizes of the buckets, each neighbour list
    has as many entries as the degree it goes with: [prevNodes] the
    in-degree, [nextNodes] the out-degree, [connNodes] the undirected
    degree, [reachNodes] and [allNeighbors] their sums (no entry is merged
    away, also for parallel edges to one neighbour). *)
Theorem neighbours_match_degrees (n : BaseNode) :
  counters_ok n = true →
  Z.of_nat (length (prevNodes n)) = inDegree n
  ∧ Z.of_nat (length (nextNodes n)) = outDegree n
  ∧ Z.of_nat (length (connNodes n)) = degree n
  ∧ Z.of_nat (length (reachNodes n)) = (outDegree n + degree n)%Z
  ∧ Z.of_nat (length (allNeighbors n)) = (inDegree n + outDegree n + degree n)%Z.
Proof.
  intros (Hi & Ho & Hu)%counters_ok_iff.
  unfold allNeighbors, reachNodes, prevNodes, nextNodes, connNodes, inDegree, outDegree, degree.
  rewrite !length_app, !length_map. unfold JS.size in *. lia.
Qed.

(** The features are a plain object.  [getFeature] after [setFeature]
    (of a key other than [__proto__]) reads the value written under the
    same key and the former read under another; [deleteFeature] returns what
    [getFeature] read and leaves the other keys alone; a key that is deleted,
    and every key after [clearFeatures], reads as what the object inherits
    under that name: the built-in for a name of [Object.prototype],
    [undefined] for any other. *)
Theorem feature_store (n : BaseNode) (k k' : string) (v : any) :
  (k ≠ "__proto__" →
     getFeature (setFeature n k v) k' = (if String.eqb k k' then Some v else getFeature n k'))
  ∧ snd (deleteFeature n k) = getFeature n k
  ∧ (k ≠ k' → getFeature (fst (deleteFeature n k)) k' = getFeature n k')
  ∧ (NoDup (JS.keys (getFeatures n)) →
       getFeature (fst (deleteFeature n k)) k
       = if JS.inherited k then Some (ABuiltin k) else None)
  ∧ getFeature (clearFeatures n) k'
    = (if JS.inherited k' then Some (ABuiltin k') else None)
  ∧ (JS.inherited k' = false → getFeature n k' = JS.get (getFeatures n) k').
Proof.
  split_and!.
  - intros _. apply NodeFacts.getFeature_setFeature.
  - reflexivity.
  - intros H. unfold getFeature, deleteFeature, JS.read. cbn [fst with_features _features].
    by rewrite get_delete_ne.
  - intros H. unfold getFeature, deleteFeature, JS.read. cbn [fst with_features _features].
    unfold getFeatures in H. rewrite get_delete_eq by done. by destruct (JS.inherited k).
  - unfold getFeature, clearFeatures, JS.read. cbn [with_features _features JS.get].
    by destruct (JS.inherited k').
  - intros H. unfold getFeature, getFeatures. rewrite ObjectFacts.read_ordinary by done.
    by destruct (JS.get (_features n) k').
Qed.

End NodeEdgeFacts.

(** ** Numbers: the order and the division of binary64 *)

Module FloatFacts.
Import Floats.FloatAxioms Floats.SpecFloat Floats.FloatOps.

Lemma SFcompare_refl (a : spec_float) : a ≠ S754_nan → SFcompare a a = Some Eq.
Proof.
  destruct a as [s|s| |s m e]; simpl; try done.
  - by destruct s.
  - intros _. rewrite Z.compare_refl, Pos.compare_cont_refl. by destruct s.
Qed.

Lemma SFcompare_swap (a b : spec_float) :
  SFcompare b a = CompOpp <$> SFcompare a b.
Proof.
  destruct a as [sa|sa| |sa ma ea], b as [sb|sb| |sb mb eb]; simpl; try done;
    try (by destruct sa); try (by destruct sb); try (by destruct sa, sb).
  destruct sa, sb; simpl; try done.
  - rewrite (Z.compare_antisym ea eb). destruct (ea ?= eb)%Z; simpl; try done.
    f_equal. f_equal. change (Pos.compare_cont Eq ?x ?y) with (Pos.compare x y).
    apply Pos.compare_antisym.
  - rewrite (Z.compare_antisym ea eb). destruct (ea ?= eb)%Z; simpl; try done.
    f_equal. change (Pos.compare_cont Eq ?x ?y) with (Pos.compare x y).
    apply Pos.compare_antisym.
Qed.


Lemma is_nan_spec (x : float) : is_nan x = false ↔ Prim2SF x ≠ S754_nan.
Proof.
  unfold is_nan. rewrite eqb_spec. unfold SFeqb. split.
  - intros H E. rewrite E in H. done.
  - intros H. by rewrite SFcompare_refl.
Qed.



Lemma ltb_asym (x y : float) : PrimFloat.ltb x y = true → PrimFloat.ltb y x = false.
Proof.
  rewrite !ltb_spec. unfold SFltb. rewrite (SFcompare_swap (Prim2SF x) (Prim2SF y)).
  by destruct (SFcompare (Prim2SF x) (Prim2SF y)) as [[]|].
Qed.

(** A number below another one is not NaN, and is not equal to it. *)
Lemma ltb_distinct (x y : float) :
  PrimFloat.ltb x y = true → is_nan x = false ∧ PrimFloat.eqb x y = false.
Proof.
  rewrite ltb_spec, FloatAxioms.eqb_spec. unfold SFltb, SFeqb. intros H. split.
  - apply is_nan_spec. intros E. by rewrite E in H.
  - by destruct (SFcompare _ _) as [[]|].
Qed.




Lemma Prim2SF_infinity : Prim2SF infinity = S754_infinity false.
Proof. vm_compute. reflexivity. Qed.



Lemma Prim2SF_zero : Prim2SF 0%float = S754_zero false.
Proof. vm_compute. reflexivity. Qed.

Lemma is_zero_spec (y : float) : PrimFloat.is_zero y = true → ∃ s, Prim2SF y = S754_zero s.
Proof.
  unfold PrimFloat.is_zero. rewrite FloatAxioms.eqb_spec. change zero with 0%float. rewrite Prim2SF_zero.
  unfold SFeqb. destruct (Prim2SF y) as [s|s| |s m e]; simpl; try done; eauto;
    by destruct s.
Qed.

Lemma div_zero_not_finite (x y : float) :
  PrimFloat.is_zero y = true → is_finite (x / y) = false.
Proof.
  intros [s Hy]%is_zero_spec.
  assert (Prim2SF (x / y) = S754_nan ∨ ∃ s', Prim2SF (x / y) = S754_infinity s') as H.
  { rewrite div_spec, Hy. unfold SF64div, SFdiv.
    destruct (Prim2SF x) as [sx|sx| |sx mx ex]; eauto. }
  unfold is_finite, is_nan, is_infinity. apply negb_false_iff, orb_true_iff.
  destruct H as [H|[s' H]].
  - left. rewrite FloatAxioms.eqb_spec, H. reflexivity.
  - right. rewrite FloatAxioms.eqb_spec, abs_spec, H, Prim2SF_infinity. reflexivity.
Qed.

End FloatFacts.

Lemma for_each_preserves {A S : Type} (P : S -> Prop) (f : S -> A -> JS.result S)
    (l : list A) (s s' : S) :
  P s →
  (∀ s a s', a ∈ l → P s → f s a = JS.Ok s' → P s') →
  for_each f l s = JS.Ok s' → P s'.
Proof.
  revert s. induction l as [|a l IH]; intros s Hs Hf; simpl.
  - by intros [= <-].
  - destruct (f s a) as [s1|] eqn:E; [|done]. simpl.
    apply IH.
    + apply (Hf s a); [left | done | done].
    + intros s2 a2 s3 Ha2. apply Hf. by right.
Qed.

(** ** ComputeGraph: the adjacency projections *)

Module AdjacencyFacts.
Import Edge Node Graph Compute Invariants AdjacencyForms ObjectMore FloatFacts.

Lemma read2_write2 (d d' : MinAdjacencyListDict) (k1 k2 a b : string) (x : JS.number) :
  write2 d k1 k2 x = JS.Ok d' →
  read2 d' a b = if String.eqb k1 a && String.eqb k2 b then Some x else read2 d a b.
Proof.
  unfold write2, read2. destruct (JS.get d k1) as [row|] eqn:E; [|done].
  intros [= <-]. rewrite ObjectFacts.get_set.
  destruct (String.eqb_spec k1 a) as [<-|Hne]; simpl; [|done].
  rewrite ObjectFacts.get_set, E. by destruct (String.eqb k2 b).
Qed.

Lemma keys_write2 (d d' : MinAdjacencyListDict) (k1 k2 : string) (x : JS.number) :
  write2 d k1 k2 x = JS.Ok d' → JS.keys d' = JS.keys d.
Proof.
  unfold write2. destruct (JS.get d k1) as [row|] eqn:E; [|done].
  intros [= <-]. rewrite ObjectFacts.keys_set. unfold JS.has. by rewrite E.
Qed.

(** *** The first loop *)

Lemma adjListW_init_closed (nodes : JS.object BaseNode) (include_self : bool)
    (self_dist : JS.number) :
  NoDup (JS.keys nodes) →
  adjListW_init nodes include_self self_dist
  = map (λ kv, (fst kv, row_init include_self self_dist (fst kv))) nodes.
Proof.
  unfold adjListW_init.
  assert (∀ (todo : JS.object BaseNode) (pre : MinAdjacencyListDict),
    NoDup (JS.keys pre ++ JS.keys todo) →
    fold_left (λ d kv, JS.set d kv.1 (if include_self then JS.set [] kv.1 self_dist else []))
      todo pre
    = pre ++ map (λ kv : string * BaseNode,
                    (fst kv, row_init include_self self_dist (fst kv))) todo) as H.
  { induction todo as [|[k n] todo IH]; intros pre Hnd; simpl.
    - by rewrite app_nil_r.
    - simpl in Hnd. rewrite ObjectFacts.set_fresh.
      + rewrite IH.
        * by rewrite <- app_assoc.
        * unfold JS.keys at 1. rewrite map_app. simpl. by rewrite <- app_assoc.
      + apply ObjectFacts.get_None_not_in. apply NoDup_app in Hnd as (_ & Hd & _).
        intros Hin. apply (Hd k Hin). left. }
  intros Hnd. by rewrite (H nodes []).
Qed.

(** *** One neighbour, one node *)



(** *** The closed form of [adjListW] without the incoming edges *)













Lemma adjListW_init_read2 (nodes : JS.object BaseNode) (include_self : bool)
    (self_dist : JS.number) (u v : string) :
  read2 (adjListW_init nodes include_self self_dist) u v
  = if include_self && String.eqb u v && JS.has nodes u then Some self_dist else None.
Proof.
  unfold adjListW_init.
  assert (∀ (todo : JS.object BaseNode) (d : MinAdjacencyListDict),
    read2 (fold_left (λ d kv, JS.set d kv.1
              (if include_self then JS.set [] kv.1 self_dist else [])) todo d) u v
    = if JS.has todo u
      then (if include_self && String.eqb u v then Some self_dist else None)
      else read2 d u v) as H.
  { induction todo as [|[k n] todo IH]; intros d; [done|].
    cbn [fold_left]. rewrite IH.
    assert (JS.has ((k, n) :: todo) u = String.eqb k u || JS.has todo u) as ->.
    { unfold JS.has. simpl. by destruct (String.eqb k u). }
    destruct (JS.has todo u); [by rewrite orb_true_r|]. rewrite orb_false_r.
    unfold read2. cbn [fst]. rewrite ObjectFacts.get_set.
    destruct (String.eqb_spec k u) as [->|Hne]; [|done].
    destruct include_self; simpl; [|done].
    by rewrite String.eqb_sym. }
  rewrite H. unfold read2. simpl.
  destruct (JS.has nodes u); [|by rewrite andb_false_r].
  by rewrite andb_true_r.
Qed.

(** With the incoming edges, every write of [adjListW] into the entry
    (u, v) is mirrored into (v, u): the dictionary is symmetric, and so is
    the matrix [adjMatrixW] derives from it. *)
Theorem adjListW_incoming_symmetric (g : BaseGraph) (include_self : bool)
    (self_dist : JS.number) (d : MinAdjacencyListDict) :
  adjListW g true include_self self_dist = JS.Ok d →
  (∀ u v, read2 d u v = read2 d v u)
  ∧ ∃ m, adjMatrixW g true include_self self_dist = JS.Ok m
      ∧ ∀ i j, cell m i j = cell m j i.
Proof.
  intros Hd.
  assert (Hsym : ∀ u v, read2 d u v = read2 d v u).
  { revert Hd. unfold adjListW.
    apply (for_each_preserves (λ d, ∀ u v, read2 d u v = read2 d v u)).
    - intros u v. rewrite !adjListW_init_read2.
      destruct (String.eqb_spec u v) as [->|Hne]; [by rewrite String.eqb_refl|].
      rewrite (proj2 (String.eqb_neq v u)) by done. by rewrite !andb_false_r.
    - intros d0 [key n] d1 _ Hd0. simpl.
      apply (for_each_preserves (λ d, ∀ u v, read2 d u v = read2 d v u)); [done|].
      intros d2 ne d3 _ Hd2. unfold adjListW_visit.
      destruct (PrimFloat.ltb _ _).
      + destruct (write2 d2 key (node ne) _) as [d4|] eqn:E1; [|done]. simpl.
        intros E2 u v.
        rewrite !(read2_write2 _ _ _ _ _ _ _ E2), !(read2_write2 _ _ _ _ _ _ _ E1).
        rewrite (Hd2 u v).
        destruct (String.eqb_spec (node ne) u), (String.eqb_spec key v),
          (String.eqb_spec key u), (String.eqb_spec (node ne) v); simpl; done.
      + destruct (write2 d2 key (node ne) _) as [d4|] eqn:E1; [|done]. simpl.
        intros E2 u v.
        rewrite !(read2_write2 _ _ _ _ _ _ _ E2), !(read2_write2 _ _ _ _ _ _ _ E1).
        rewrite (Hd2 u v).
        destruct (String.eqb_spec (node ne) u), (String.eqb_spec key v),
          (String.eqb_spec key u), (String.eqb_spec (node ne) v); simpl; done. }
  split; [done|].
  unfold adjMatrixW. rewrite Hd. unfold mbind, result_bind, JS.bind. cbv beta iota.
  eexists. split; [reflexivity|]. intros i j.
  destruct (decide (i < nrNodes g)) as [Hi|Hi], (decide (j < nrNodes g)) as [Hj|Hj].
  - rewrite !ComputeFacts.build_matrix_cell by done.
    rewrite (Nat.eqb_sym j i). destruct (Nat.eqb i j); [done|].
    unfold read_keys.
    destruct (JS.keys (getNodes g) !! i) as [ki|], (JS.keys (getNodes g) !! j) as [kj|];
      try done.
    by rewrite (Hsym ki kj).
  - unfold cell. rewrite ComputeFacts.build_matrix_row by done.
    rewrite (lookup_ge_None_2 (build_matrix _ _) j)
      by (rewrite ComputeFacts.build_matrix_length; lia).
    apply lookup_ge_None_2. rewrite length_map, length_seq. lia.
  - unfold cell. rewrite (ComputeFacts.build_matrix_row _ _ j) by done.
    rewrite (lookup_ge_None_2 (build_matrix _ _) i)
      by (rewrite ComputeFacts.build_matrix_length; lia).
    symmetry. apply lookup_ge_None_2. rewrite length_map, length_seq. lia.
  - unfold cell.
    rewrite !(lookup_ge_None_2 (build_matrix _ _))
      by (rewrite ComputeFacts.build_matrix_length; lia). done.
Qed.

(** Whatever the flags, the dictionary [adjListW] returns has a row per
    node, in node order; with [include_self], every node has an entry for
    itself. *)
Theorem adjListW_rows (g : BaseGraph) (incoming include_self : bool)
    (self_dist : JS.number) (d : MinAdjacencyListDict) :
  distinct (JS.keys (getNodes g)) = true →
  adjListW g incoming include_self self_dist = JS.Ok d →
  JS.keys d = JS.keys (getNodes g)
  ∧ (include_self = true → ∀ u, u ∈ JS.keys (getNodes g) → is_Some (read2 d u u)).
Proof.
  intros Hnd%PreprocessingFacts.distinct_NoDup. unfold adjListW.
  set (P := λ d : MinAdjacencyListDict,
         JS.keys d = JS.keys (getNodes g)
         ∧ (include_self = true → ∀ u, u ∈ JS.keys (getNodes g) → is_Some (read2 d u u))).
  assert (Hw : ∀ d0 d1 k1 k2 x, P d0 → write2 d0 k1 k2 x = JS.Ok d1 → P d1).
  { intros d0 d1 k1 k2 x [Hk Hs] E. split.
    - by rewrite (keys_write2 _ _ _ _ _ E).
    - intros Hi u Hu. rewrite (read2_write2 _ _ _ _ _ _ _ E).
      destruct (_ && _); [eauto | by apply Hs]. }
  apply (for_each_preserves P).
  - split.
    + rewrite adjListW_init_closed by done. unfold JS.keys. by rewrite map_map.
    + intros -> u Hu. rewrite adjListW_init_read2, String.eqb_refl. simpl.
      apply ObjectFacts.in_keys_get in Hu as [n Hn]. unfold JS.has. rewrite Hn. eauto.
  - intros d0 [key n] d1 _ Hd0. simpl. apply (for_each_preserves P); [done|].
    intros d2 ne d3 _ Hd2. unfold adjListW_visit.
    destruct (PrimFloat.ltb _ _).
    + destruct (write2 d2 key (node ne) _) as [d4|] eqn:E1; [|done]. simpl.
      destruct incoming.
      * intros E2. apply (Hw _ _ _ _ _ (Hw _ _ _ _ _ Hd2 E1) E2).
      * intros [= <-]. apply (Hw _ _ _ _ _ Hd2 E1).
    + destruct (write2 d2 key (node ne) _) as [d4|] eqn:E1; [|done]. simpl.
      destruct incoming.
      * intros E2. apply (Hw _ _ _ _ _ (Hw _ _ _ _ _ Hd2 E1) E2).
      * intros [= <-]. apply (Hw _ _ _ _ _ Hd2 E1).
Qed.

Lemma next_cell (n : nat) (f : nat → nat → list (option nat)) (i j : nat) :
  i < n → j < n →
  (map (λ i, map (λ j, f i j) (seq 0 n)) (seq 0 n)) !! i ≫= (.!! j) = Some (f i j).
Proof.
  intros Hi Hj.
  change (map ?g ?l !! i) with ((g <$> l) !! i).
  rewrite list_lookup_fmap, lookup_seq_lt by done. simpl.
  change (map ?g ?l !! j) with ((g <$> l) !! j).
  by rewrite list_lookup_fmap, lookup_seq_lt.
Qed.

(** [nextArray] and [adjMatrixW] (with self entries at distance 0) read
    the same dictionary: the cell (i, j) of [nextArray] holds j exactly when
    the cell of the weight matrix is finite, and [null] otherwise. *)
Theorem nextArray_adjMatrixW (g : BaseGraph) (incoming : bool) (next : NextArray) :
  nextArray g incoming = JS.Ok next →
  length next = nrNodes g
  ∧ ∃ m, adjMatrixW g incoming true 0%float = JS.Ok m
      ∧ ∀ i j, i < nrNodes g → j < nrNodes g →
          ∃ x, cell m i j = Some x
            ∧ next !! i ≫= (.!! j) = Some [if JS.isFinite x then Some j else None].
Proof.
  unfold nextArray, adjMatrixW.
  change (JS.of_Z 0) with 0%float.
  destruct (adjListW g incoming true 0%float) as [d|]; [|done].
  unfold mbind at 1 3, result_bind, JS.bind. cbv beta iota.
  intros [= <-]. split; [by rewrite length_map, length_seq|].
  eexists. split; [reflexivity|]. intros i j Hi Hj.
  rewrite ComputeFacts.build_matrix_cell by done. eexists. split; [reflexivity|].
  rewrite (next_cell (nrNodes g) _ i j Hi Hj). do 2 f_equal.
  destruct (Nat.eqb i j); [done|].
  destruct (read_keys d _ i j) as [x|]; simpl; [|done].
  by destruct (JS.isFinite x) eqn:E; rewrite ?E.
Qed.

End AdjacencyFacts.

(** ** ComputeGraph: triads and transitivity *)

Module AnalyticsFacts.
Import Edge Node Graph Compute FloatFacts.

(** With the multiplier, [triangleCount] and [transitivity] resolve on
    every graph, the transitivity being three times the triangle count over
    [triadCount]; when the graph has no triad ([triadCount] is zero) that is
    a quotient by zero: NaN or infinite, never a finite number.  Without
    the multiplier both reject with the message of [triangleCount]. *)
Theorem transitivity_outcomes (g : BaseGraph) (directed : bool) :
  (∃ triangles x,
     triangleCount g true directed = JS.Ok triangles
     ∧ transitivity g true directed = JS.Ok x
     ∧ x = PrimFloat.div (PrimFloat.mul (JS.of_Z 3) triangles) (triadCount g directed)
     ∧ (PrimFloat.is_zero (triadCount g directed) = true → JS.isFinite x = false))
  ∧ triangleCount g false directed
    = JS.Throw "Tensorflow & TF matMul function must be present in order to compute transitivity."
  ∧ transitivity g false directed
    = JS.Throw "Tensorflow & TF matMul function must be present in order to compute transitivity.".
Proof.
  split; [|by split].
  unfold transitivity, triangleCount, adjMatrix.
  destruct (ClusteringFacts.adjListW_outgoing_returns g false (JS.of_Z 0)) as (d & ->).
  cbn [negb mbind result_bind JS.bind].
  eexists _, _. split; [reflexivity|]. split; [reflexivity|]. split; [reflexivity|].
  intros Hz. by apply div_zero_not_finite.
Qed.

End AnalyticsFacts.

(** ** TypedGraph: the buckets and the statistics *)

Module TypedOverlayFacts.
Import Edge Node Graph Typed TypedForms ObjectMore.

Lemma upper_ascii_idem (c : ascii) : JS.upper_ascii (JS.upper_ascii c) = JS.upper_ascii c.
Proof. destruct c as [[] [] [] [] [] [] [] []]; reflexivity. Qed.

Lemma toUpperCase_idem (s : string) : JS.toUpperCase (JS.toUpperCase s) = JS.toUpperCase s.
Proof. induction s as [|c s IH]; simpl; [done|]. by rewrite upper_ascii_idem, IH. Qed.

Lemma bucket_of_add_upper (id label : string) :
  JS.toUpperCase (bucket_of_add id label) = bucket_of_add id label.
Proof.
  unfold bucket_of_add. destruct (String.eqb _ _); [reflexivity | apply toUpperCase_idem].
Qed.

Lemma overlay_add_closed (m m' : JS.object (JS.object string)) (id label : string) :
  overlay_add m id (JS.toUpperCase label) = JS.Ok m' →
  m' = JS.set m (bucket_of_add id label)
         (JS.set (default [] (JS.get m (bucket_of_add id label))) id id).
Proof.
  unfold overlay_add, bucket_of_add.
  destruct (String.eqb id (JS.toUpperCase label)) eqn:E.
  - destruct (JS.get m GENERIC_TYPE) as [b|] eqn:Eb; [|done]. by intros [= <-].
  - unfold JS.has. destruct (JS.get m (JS.toUpperCase label)) as [b|] eqn:Eb; simpl.
    + rewrite Eb. by intros [= <-].
    + rewrite ObjectFacts.get_set_eq. intros [= <-].
      by rewrite ContainerFacts.set_set_eq.
Qed.

Lemma overlay_round_trip (m m1 m2 : JS.object (JS.object string)) (id label : string)
    (no_type nowhere : string) :
  bucket_of_add id label = bucket_of_delete id label →
  (∀ b, JS.get m (bucket_of_add id label) = Some b → b ≠ [] ∧ JS.has b id = false) →
  overlay_add m id (JS.toUpperCase label) = JS.Ok m1 →
  overlay_delete m1 id label no_type nowhere = JS.Ok m2 →
  m2 = m.
Proof.
  intros HB Hb ->%overlay_add_closed. unfold overlay_delete.
  fold (bucket_of_delete id label). rewrite <- HB.
  set (B := bucket_of_add id label) in *.
  rewrite ObjectFacts.get_set_eq.
  unfold JS.has at 1. rewrite ObjectFacts.get_set_eq. cbn [negb].
  rewrite ContainerFacts.set_set_eq.
  subst B. rewrite bucket_of_add_upper. set (B := bucket_of_add id label) in *.
  rewrite ObjectFacts.get_set_eq. cbn [fmap option_fmap option_map].
  destruct (JS.get m B) as [b|] eqn:Eb; cbn [default].
  - destruct (Hb b eq_refl) as [Hne Hid].
    rewrite delete_set_fresh by (by apply NodeEdgeFacts.has_false_get).
    destruct b as [|x b]; [done|]. cbn [JS.size length].
    intros [= <-]. by apply ContainerFacts.set_same.
  - simpl. rewrite String.eqb_refl. cbn [JS.size length].
    intros [= <-]. by apply delete_set_fresh.
Qed.

(** A node (an edge) that [addNode] files under the bucket in which
    [deleteNode] looks for it, a bucket that was missing or held other ids
    before, leaves the typed overlay as it was once it is deleted again. *)
Theorem typed_add_delete_restores (t : TypedGraph) :
  (∀ (n : BaseNode) (t1 t2 : TypedGraph),
     bucket_of_add (Node.getID n) (Node.getLabel n)
     = bucket_of_delete (Node.getID n) (Node.getLabel n) →
     (∀ b, JS.get (_typedNodes t) (bucket_of_add (Node.getID n) (Node.getLabel n)) = Some b
           → b ≠ [] ∧ JS.has b (Node.getID n) = false) →
     Typed.addNode t n = JS.Ok t1 → Typed.deleteNode t1 n = JS.Ok t2 →
     _typedNodes t2 = _typedNodes t ∧ _typedEdges t2 = _typedEdges t)
  ∧ (∀ (e : BaseEdge) (t1 t2 : TypedGraph),
     bucket_of_add (Edge.getID e) (Edge.getLabel e)
     = bucket_of_delete (Edge.getID e) (Edge.getLabel e) →
     (∀ b, JS.get (_typedEdges t) (bucket_of_add (Edge.getID e) (Edge.getLabel e)) = Some b
           → b ≠ [] ∧ JS.has b (Edge.getID e) = false) →
     Typed.addEdge t e = JS.Ok t1 → Typed.deleteEdge t1 e = JS.Ok t2 →
     _typedNodes t2 = _typedNodes t ∧ _typedEdges t2 = _typedEdges t).
Proof.
  split.
  - intros n t1 t2 HB Hb. unfold Typed.addNode, Typed.deleteNode.
    destruct (Graph.addNode (base t) n) as [b1|]; [|done]. simpl.
    destruct (overlay_add _ _ _) as [m1|] eqn:E1; [|done]. simpl. intros [= <-]. simpl.
    destruct (overlay_delete m1 _ _ _ _) as [m2|] eqn:E2; [|done]. simpl.
    destruct (Graph.deleteNode b1 n); [|done]. simpl. intros [= <-]. simpl.
    split; [|done]. by apply (overlay_round_trip _ _ _ _ _ _ _ HB Hb E1 E2).
  - intros e t1 t2 HB Hb. unfold Typed.addEdge, Typed.deleteEdge.
    destruct (Graph.addEdge (base t) e) as [b1|]; [|done]. simpl.
    destruct (overlay_add _ _ _) as [m1|] eqn:E1; [|done]. simpl. intros [= <-]. simpl.
    destruct (overlay_delete m1 _ _ _ _) as [m2|] eqn:E2; [|done]. simpl.
    destruct (Graph.deleteEdge b1 e); [|done]. simpl. intros [= <-]. simpl.
    split; [done|]. by apply (overlay_round_trip _ _ _ _ _ _ _ HB Hb E1 E2).
Qed.


Section Assign.
Context {V : Type}.
Implicit Types (o : JS.object V) (k : string) (v : V).





End Assign.



(** [addNode] files the node under one bucket: the count of that type
    grows by one (from nothing when the type is new), the type is appended
    to the types when it is new, and no other count changes. *)
Theorem addNode_registers_type (t t' : TypedGraph) (n : BaseNode) :
  Typed.addNode t n = JS.Ok t' →
  (∀ b, JS.get (_typedNodes t) (bucket_of_add (Node.getID n) (Node.getLabel n)) = Some b
        → JS.has b (Node.getID n) = false) →
  nrTypedNodes t' (bucket_of_add (Node.getID n) (Node.getLabel n))
  = Some (S (default 0 (nrTypedNodes t (bucket_of_add (Node.getID n) (Node.getLabel n)))))
  ∧ (∀ type, JS.toUpperCase type ≠ bucket_of_add (Node.getID n) (Node.getLabel n) →
       nrTypedNodes t' type = nrTypedNodes t type)
  ∧ nodeTypes t'
    = (if JS.has (_typedNodes t) (bucket_of_add (Node.getID n) (Node.getLabel n))
       then nodeTypes t
       else nodeTypes t ++ [bucket_of_add (Node.getID n) (Node.getLabel n)])
  ∧ edgeTypes t' = edgeTypes t.
Proof.
  unfold Typed.addNode.
  destruct (Graph.addNode (base t) n) as [b1|]; [|done]. simpl.
  destruct (overlay_add _ _ _) as [m1|] eqn:E1; [|done]. simpl. intros [= <-].
  apply overlay_add_closed in E1 as ->.
  set (B := bucket_of_add (Node.getID n) (Node.getLabel n)).
  intros Hfresh. unfold nrTypedNodes, nodeTypes, edgeTypes. cbn [_typedNodes _typedEdges].
  repeat split.
  - subst B. rewrite bucket_of_add_upper. set (B := bucket_of_add _ _) in *.
    rewrite ObjectFacts.get_set_eq. cbn [fmap option_fmap option_map]. f_equal.
    destruct (JS.get (_typedNodes t) B) as [b|] eqn:Eb; cbn [default option_map].
    + rewrite ContainerFacts.size_set_fresh; [done | by apply Hfresh].
    + reflexivity.
  - intros type Hne. by rewrite ObjectFacts.get_set_ne.
  - apply ObjectFacts.keys_set.
Qed.

End TypedOverlayFacts.

(** ** The JSON reader on every input *)

Module ReaderFacts.
Import Edge Node Graph JSONInput Invariants Container ContainerFacts States.

(** *** The container calls of the reader *)

(** No property of [Object.prototype] has a name that ends in "d" or in
    "u", as the ids of the edges of the reader do. *)
Fixpoint last_char (s : string) : option ascii :=
  match s with
  | EmptyString => None
  | String c EmptyString => Some c
  | String _ r => last_char r
  end.

Lemma last_char_append (s t : string) : t ≠ "" → last_char (s +:+ t) = last_char t.
Proof.
  intros Ht. induction s as [|c s IH]; [done|].
  change (String c s +:+ t) with (String c (s +:+ t)).
  cbn [last_char]. rewrite IH. destruct (s +:+ t) eqn:E; [|done].
  destruct s; [done | discriminate].
Qed.

Lemma append_nonempty (s t : string) : t ≠ "" → s +:+ t ≠ "".
Proof. destruct s; [done | discriminate]. Qed.

Lemma inherited_last_char (k : string) :
  JS.inherited k = true →
  last_char k ≠ Some "d"%char ∧ last_char k ≠ Some "u"%char.
Proof.
  unfold JS.inherited. intros (name & Hin & ->%String.eqb_eq)%existsb_exists.
  cbn [JS.Object_prototype In] in Hin.
  repeat (destruct Hin as [<-|Hin]; [by split|]). done.
Qed.

Lemma edge_id_ordinary (node_id : string) (inp : JSONInput) (entry : EdgeInput) :
  JS.inherited (edge_id node_id inp entry) = false.
Proof.
  destruct (JS.inherited _) eqn:E; [|done].
  apply inherited_last_char in E as [Hd Hu]. unfold edge_id in *.
  rewrite !last_char_append in Hd, Hu
    by (repeat apply append_nonempty; by destruct (entry_directed inp entry)).
  by destruct (entry_directed inp entry).
Qed.

Lemma addEdge_returns (g : BaseGraph) (e : BaseEdge) :
  consistent g →
  hasNodeID g (_node_a e) = true → hasNodeID g (_node_b e) = true →
  hasEdgeID g (Edge.getID e) = false →
  JS.inherited (Edge.getID e) = false →
  ∃ g', Graph.addEdge g e = JS.Ok g'.
Proof.
  intros [Hnd Hn] Ha Hb Hfresh Hord. unfold Graph.addEdge. rewrite Ha, Hb, Hfresh.
  cbn [negb orb]. unfold hasNodeID in Ha, Hb.
  apply has_get_some in Ha as [na Hna]. apply has_get_some in Hb as [nb Hnb].
  pose proof (Hn _ _ Hna) as Hca. pose proof (Hn _ _ Hnb) as Hcb.
  unfold on_node at 2. unfold getNodeById at 1. rewrite Hna.
  rewrite (addEdge_first na e);
    [| by rewrite (nc_id _ _ _ Hca) | by apply (consistent_unattached g _ _ _ Hca)].
  cbn [mbind result_bind JS.bind].
  destruct (String.eqb_spec (_node_a e) (_node_b e)) as [Hab|Hab].
  - rewrite <- Hab in Hnb. assert (nb = na) as -> by congruence.
    destruct (isDirected e) eqn:Hd; cbn [orb negb].
    + unfold on_node, getNodeById. cbn [with_nodes _nodes].
      rewrite <- Hab, ObjectFacts.get_set_eq.
      rewrite (addEdge_self_again na e Hd);
        [| by rewrite (nc_id _ _ _ Hca) | by rewrite <- Hab, (nc_id _ _ _ Hca)].
      cbn [mbind result_bind JS.bind]. eauto.
    + cbn [mbind result_bind JS.bind]. eauto.
  - replace (isDirected e || negb false) with true by (by destruct (isDirected e)).
    unfold on_node, getNodeById. cbn [with_nodes _nodes].
    rewrite ObjectFacts.get_set_ne by done. unfold getNodeById in Hnb. rewrite Hnb.
    rewrite (addEdge_second nb e);
      [| by rewrite (nc_id _ _ _ Hcb) | done | by apply (consistent_unattached g _ _ _ Hcb)].
    cbn [mbind result_bind JS.bind]. eauto.
Qed.

Lemma addEdge_edges (g g' : BaseGraph) (e : BaseEdge) :
  Graph.addEdge g e = JS.Ok g' →
  _dir_edges g' = (if isDirected e then JS.set (_dir_edges g) (Edge.getID e) e
                   else _dir_edges g)
  ∧ Graph._und_edges g' = (if isDirected e then Graph._und_edges g
                           else JS.set (Graph._und_edges g) (Edge.getID e) e).
Proof.
  unfold Graph.addEdge.
  destruct (negb _ || negb _); [done|].
  destruct (hasEdgeID g (Edge.getID e)); [done|].
  unfold mbind, result_bind, JS.bind.
  destruct (on_node g (_node_a e) _) as [g1|] eqn:E1; [|done].
  apply JSONFacts.on_node_edges in E1 as [Hd1 Hu1].
  destruct (isDirected e || negb (_node_a e =? _node_b e)%string).
  - destruct (on_node g1 (_node_b e) _) as [g2|] eqn:E2; [|done].
    apply JSONFacts.on_node_edges in E2 as [Hd2 Hu2].
    destruct (isDirected e); intros [= <-]; simpl; by rewrite ?Hd2, ?Hu2, ?Hd1, ?Hu1.
  - destruct (isDirected e); intros [= <-]; simpl; by rewrite ?Hd1, ?Hu1.
Qed.

Lemma addEdge_nodes (g g' : BaseGraph) (e : BaseEdge) (x : string) :
  consistent g → JS.inherited (Edge.getID e) = false → Graph.addEdge g e = JS.Ok g' →
  hasNodeID g x = true → hasNodeID g' x = true.
Proof.
  intros Hg Hord Hadd Hx.
  destruct (addEdge_closed g g' e Hg Hord Hadd) as (na & nb & Hna & Hnb & Hfresh & ->).
  unfold hasNodeID in *. apply has_get_some in Hx as [n Hn].
  assert (grows g (graph_after g e na nb)) as [_ Hgr] by (by apply after_grows).
  destruct (Hgr x n Hn) as (n' & Hn' & _). unfold JS.has.
  unfold getNodeById, graph_after in Hn'. cbn [_nodes] in *. by rewrite Hn'.
Qed.

(** Writing features of a node of the store. *)
Lemma features_consistent (g : BaseGraph) (id : string) (n : BaseNode)
    (features : JS.object any) :
  consistent g → getNodeById g id = Some n →
  consistent (with_nodes g (JS.set (_nodes g) id (with_features n features))).
Proof.
  intros [Hnd Hn] Hid.
  set (g' := with_nodes g (JS.set (_nodes g) id (with_features n features))).
  assert (Hlook : ∀ k, getNodeById g' k
            = if String.eqb id k then Some (with_features n features) else getNodeById g k).
  { intros k. unfold getNodeById, g', with_nodes. cbn [_nodes]. apply ObjectFacts.get_set. }
  assert (Hgrow : grows g g').
  { split; [done|]. intros x nx Hx. rewrite Hlook.
    destruct (String.eqb_spec id x) as [<-|Hne].
    - assert (nx = n) as -> by congruence. eexists. split; [reflexivity|]. done.
    - eauto. }
  split.
  - unfold getNodes, g', with_nodes. cbn [_nodes]. rewrite ObjectFacts.keys_set.
    unfold getNodeById in Hid. unfold JS.has. by rewrite Hid.
  - intros k nk. rewrite Hlook. destruct (String.eqb_spec id k) as [<-|Hne].
    + intros [= <-].
      destruct (grows_node_consistent g g' id n Hgrow (Hn _ _ Hid)) as [H1 H2 H3 H4 H5].
      by split.
    + intros Hk. apply (grows_node_consistent g); [done | by apply Hn].
Qed.

Lemma setFeatures_with (n : BaseNode) (f : JS.object any) :
  setFeatures n f = with_features n f.
Proof. reflexivity. Qed.

Lemma setFeature_with (n : BaseNode) (k : string) (v : any) :
  setFeature n k v = with_features n (JS.set (_features n) k v).
Proof. reflexivity. Qed.


Lemma node_or_add_ok (g : BaseGraph) (id : string) :
  consistent g →
  ∃ g', node_or_add g id = JS.Ok g' ∧ consistent g' ∧ extends g g'
        ∧ hasNodeID g' id = true.
Proof.
  intros Hg. unfold node_or_add. destruct (hasNodeID g id) eqn:E.
  - exists g. split_and!; try done; by intros ?.
  - unfold addNodeByID. 
    assert (Hadd : Graph.addNode g (Node.new id None)
              = JS.Ok (with_nodes g (JS.set (_nodes g) id (Node.new id None)))).
    { unfold Graph.addNode. cbn [Node.getID Node.new Node._id]. by rewrite E. }
    rewrite Hadd. cbn [mbind result_bind JS.bind].
    eexists. split; [reflexivity|]. split; [|split].
    + by apply (addNode_consistent g _ id None).
    + intros x Hx. unfold hasNodeID, with_nodes in *. cbn [_nodes].
      rewrite ObjectFacts.has_set, Hx. apply orb_true_r.
    + unfold hasNodeID, with_nodes. cbn [_nodes].
      by rewrite ObjectFacts.has_set, String.eqb_refl.
Qed.

Lemma on_node_features_ok (g : BaseGraph) (id : string)
    (f : BaseNode → JS.object any) :
  consistent g → hasNodeID g id = true →
  ∃ g', on_node g id (λ n, JS.Ok (with_features n (f n))) = JS.Ok g'
        ∧ consistent g' ∧ extends g g'.
Proof.
  intros Hg Hid. unfold hasNodeID in Hid. apply has_get_some in Hid as [n Hn].
  unfold on_node, getNodeById. rewrite Hn. cbn [mbind result_bind JS.bind].
  eexists. split; [reflexivity|]. split.
  - by apply features_consistent.
  - intros x Hx. unfold hasNodeID, with_nodes in *. cbn [_nodes].
    rewrite ObjectFacts.has_set, Hx. apply orb_true_r.
Qed.

Section Reading.
Variable parseFloat : string → JS.number.
Variable inp : JSONInput.

Lemma read_edge_ok (node_id : string) (g : BaseGraph) (entry : EdgeInput) :
  consistent g → hasNodeID g node_id = true →
  ∃ g', read_edge parseFloat inp node_id g entry = JS.Ok g'
        ∧ consistent g' ∧ extends g g' ∧ hasNodeID g' (to entry) = true.
Proof.
  intros Hg Hid. unfold read_edge.
  destruct (node_or_add_ok g (to entry) Hg) as (g1 & -> & Hg1 & He1 & Hto).
  cbn [mbind result_bind JS.bind].
  destruct (skipped inp g1 node_id entry) eqn:Es.
  - exists g1. split_and!; try done; by intros ?.
  - unfold addEdgeByID. set (e := newEdge _ _ _ _).
    assert (Hord : JS.inherited (Edge.getID e) = false) by apply edge_id_ordinary.
    destruct (addEdge_returns g1 e) as [g2 Hadd]; try done.
    + by apply He1.
    + unfold skipped in Es. by apply orb_false_iff in Es as [Es _].
    + rewrite Hadd. cbn [mbind result_bind JS.bind]. exists g2.
      split; [done|]. split; [by apply (addEdge_consistent g1 g2 e)|]. split.
      * intros x Hx. apply (addEdge_nodes g1 g2 e); [done | done | done | by apply He1].
      * by apply (addEdge_nodes g1 g2 e).
Qed.

Lemma read_edges_ok (node_id : string) (entries : list EdgeInput) :
  ∀ g, consistent g → hasNodeID g node_id = true →
    ∃ g', for_each (read_edge parseFloat inp node_id) entries g = JS.Ok g'
          ∧ consistent g' ∧ extends g g'
          ∧ ∀ entry, entry ∈ entries → hasNodeID g' (to entry) = true.
Proof.
  induction entries as [|entry entries IH]; intros g Hg Hid; simpl.
  - exists g. split_and!; try done; [by intros ?|]. intros entry H. by apply elem_of_nil in H.
  - destruct (read_edge_ok node_id g entry Hg Hid) as (g1 & -> & Hg1 & He1 & Hto).
    cbn [mbind result_bind JS.bind].
    destruct (IH g1 Hg1 (He1 _ Hid)) as (g2 & -> & Hg2 & He2 & Hall).
    exists g2. split; [done|]. split; [done|]. split.
    + intros x Hx. by apply He2, He1.
    + intros en [->|Hin]%elem_of_cons; [by apply He2 | by apply Hall].
Qed.

Lemma read_node_ok (g : BaseGraph) (entry : string * NodeInput) :
  consistent g →
  ∃ g', read_node parseFloat inp g entry = JS.Ok g'
        ∧ consistent g' ∧ extends g g'
        ∧ hasNodeID g' (fst entry) = true
        ∧ ∀ e, e ∈ edges (snd entry) → hasNodeID g' (to e) = true.
Proof.
  intros Hg. unfold read_node.
  destruct (node_or_add_ok g (fst entry) Hg) as (g1 & -> & Hg1 & He1 & Hid1).
  cbn [mbind result_bind JS.bind].
  assert (∃ g2, match features (snd entry) with
                | Some f => on_node g1 (fst entry) (λ n, JS.Ok (setFeatures n f))
                | None => JS.Ok g1
                end = JS.Ok g2 ∧ consistent g2 ∧ extends g1 g2) as (g2 & -> & Hg2 & He2).
  { destruct (features (snd entry)) as [f|].
    - apply (on_node_features_ok g1 (fst entry) (λ _, f)); done.
    - exists g1. split_and!; try done; by intros ?. }
  cbn [mbind result_bind JS.bind].
  assert (∃ g3, match coords (snd entry) with
                | Some c => on_node g2 (fst entry)
                              (λ n, JS.Ok (setFeature n "coords" (AObj c)))
                | None => JS.Ok g2
                end = JS.Ok g3 ∧ consistent g3 ∧ extends g2 g3) as (g3 & -> & Hg3 & He3).
  { destruct (coords (snd entry)) as [c|].
    - apply (on_node_features_ok g2 (fst entry)
               (λ n, JS.set (_features n) "coords" (AObj c))); [done|]. by apply He2.
    - exists g2. split_and!; try done; by intros ?. }
  cbn [mbind result_bind JS.bind].
  destruct (read_edges_ok (fst entry) (edges (snd entry)) g3 Hg3) as (g4 & -> & Hg4 & He4 & Hall).
  { by apply He3, He2. }
  exists g4. split; [done|]. split; [done|]. split; [|split; [|done]].
  - intros x Hx. by apply He4, He3, He2, He1.
  - by apply He4, He3, He2.
Qed.

Lemma read_nodes_ok (entries : JS.object NodeInput) :
  ∀ g, consistent g →
    ∃ g', for_each (read_node parseFloat inp) entries g = JS.Ok g'
          ∧ consistent g' ∧ extends g g'
          ∧ ∀ k entry, (k, entry) ∈ entries →
              hasNodeID g' k = true ∧ ∀ e, e ∈ edges entry → hasNodeID g' (to e) = true.
Proof.
  induction entries as [|entry entries IH]; intros g Hg; simpl.
  - exists g. split_and!; try done; [by intros ?|]. intros k entry H. by apply elem_of_nil in H.
  - destruct (read_node_ok g entry Hg) as (g1 & -> & Hg1 & He1 & Hid & Hto).
    cbn [mbind result_bind JS.bind].
    destruct (IH g1 Hg1) as (g2 & -> & Hg2 & He2 & Hall).
    exists g2. split; [done|]. split; [done|]. split.
    + intros x Hx. by apply He2, He1.
    + intros k en [E|Hin]%elem_of_cons; [|by apply Hall].
      subst entry. simpl in *. split; [by apply He2|]. intros e He. by apply He2, Hto.
Qed.

End Reading.

(** The reader never throws: for every JSON structure it returns a graph
    that satisfies the invariants of the data model and that holds a node
    for every key of [data] and for every target of an edge entry. *)
Theorem readFromJSON_returns (parseFloat : string → JS.number) (inp : JSONInput)
    (json : JSONGraph) :
  ∃ g, readFromJSON parseFloat inp json = JS.Ok g
    ∧ well_formed g = true
    ∧ ∀ k entry, (k, entry) ∈ data json →
        hasNodeID g k = true ∧ ∀ e, e ∈ edges entry → hasNodeID g (to e) = true.
Proof.
  unfold readFromJSON.
  destruct (read_nodes_ok parseFloat inp (data json) (Graph.new (name json)))
    as (g & Hg & Hc & _ & Hall).
  { apply built_consistent. constructor. }
  exists g. split; [done|]. split; [by apply consistent_well_formed | done].
Qed.

(** Every edge the reader creates is weighted exactly in weighted mode,
    and its weight is then never NaN: a weight field that does not parse
    to a number yields the weight 1. *)
Theorem readFromJSON_weights (parseFloat : string → JS.number) (inp : JSONInput)
    (json : JSONGraph) (g : BaseGraph) :
  readFromJSON parseFloat inp json = JS.Ok g →
  ∀ id e, getEdgeById g id = Some e →
    Edge._weighted e = _weighted_mode inp
    ∧ JS.isNaN (getWeight e) = negb (_weighted_mode inp).
Proof.
  set (P := λ g : BaseGraph, ∀ id e, getEdgeById g id = Some e →
              Edge._weighted e = _weighted_mode inp
              ∧ JS.isNaN (getWeight e) = negb (_weighted_mode inp)).
  assert (Hsame : ∀ g g', _dir_edges g' = _dir_edges g →
            Graph._und_edges g' = Graph._und_edges g → P g → P g').
  { intros g0 g' Hd Hu HP id e. unfold getEdgeById. rewrite Hd, Hu. apply HP. }
  unfold readFromJSON. apply (for_each_preserves P).
  - intros id e. done.
  - intros g0 entry g4 _ HP0. unfold read_node.
    destruct (node_or_add g0 (fst entry)) as [g1|] eqn:E1; [|done].
    cbn [mbind result_bind JS.bind].
    apply JSONFacts.node_or_add_edges in E1 as [Hd1 Hu1].
    pose proof (Hsame _ _ Hd1 Hu1 HP0) as HP1.
    destruct (match features (snd entry) with Some _ => _ | None => _ end) as [g2|] eqn:E2; [|done].
    cbn [mbind result_bind JS.bind].
    assert (HP2 : P g2).
    { destruct (features (snd entry)).
      - apply JSONFacts.on_node_edges in E2 as [Hd Hu]. by apply (Hsame g1).
      - by injection E2 as <-. }
    destruct (match coords (snd entry) with Some _ => _ | None => _ end) as [g3|] eqn:E3; [|done].
    cbn [mbind result_bind JS.bind].
    assert (HP3 : P g3).
    { destruct (coords (snd entry)).
      - apply JSONFacts.on_node_edges in E3 as [Hd Hu]. by apply (Hsame g2).
      - by injection E3 as <-. }
    apply (for_each_preserves P); [done|].
    intros g5 en g6 _ HP5. unfold read_edge.
    destruct (node_or_add g5 (to en)) as [g7|] eqn:E7; [|done].
    cbn [mbind result_bind JS.bind].
    apply JSONFacts.node_or_add_edges in E7 as [Hd7 Hu7].
    pose proof (Hsame _ _ Hd7 Hu7 HP5) as HP7.
    destruct (skipped inp g7 (fst entry) en); [by intros [= <-]|].
    unfold addEdgeByID. set (e := newEdge _ _ _ _).
    destruct (Graph.addEdge g7 e) as [g8|] eqn:E8; [|done].
    cbn [mbind result_bind JS.bind]. intros [= <-].
    apply addEdge_edges in E8 as [Hd8 Hu8].
    assert (He : Edge._weighted e = _weighted_mode inp
                 ∧ JS.isNaN (getWeight e) = negb (_weighted_mode inp)).
    { subst e. unfold getWeight, newEdge, edge_config. cbn.
      destruct (_weighted_mode inp); [|done]. split; [done|]. cbn.
      set (wf := handleEdgeWeights parseFloat en).
      unfold JS.strict_eq, JS.isNaN, is_nan.
      destruct (PrimFloat.eqb wf wf) eqn:Eq; [by rewrite Eq | reflexivity]. }
    intros id e0. unfold getEdgeById. rewrite Hd8, Hu8.
    destruct (isDirected e).
    + rewrite ObjectFacts.get_set.
      destruct (String.eqb (Edge.getID e) id); [by intros [= <-]|]. apply HP7.
    + destruct (JS.get (_dir_edges g7) id) eqn:Ed.
      * intros [= <-]. apply (HP7 id). unfold getEdgeById. by rewrite Ed.
      * rewrite ObjectFacts.get_set.
        destruct (String.eqb (Edge.getID e) id); [by intros [= <-]|].
        intros H. apply (HP7 id). unfold getEdgeById. by rewrite Ed.
Qed.

End ReaderFacts.

(** ** PageRank: the check, the parameters and the preprocessing *)

Module PageRankMore.
Import Edge Node Graph PageRank Invariants ClosedForms States.

(** *** The zero-divisor check *)

Lemma pull_sources_throw (ds : PRArrayDS) (srcs : list (option nat)) :
  ∀ acc,
    (∃ x, for_each (pull_source ds) srcs acc = JS.Ok x)
    ∨ for_each (pull_source ds) srcs acc = JS.Throw ZERO_DIVISOR.
Proof.
  induction srcs as [|s srcs IH]; intros acc; [left; by eexists|].
  cbn [for_each].
  destruct (pull_source ds acc s) as [x|msg] eqn:E; cbn [mbind result_bind JS.bind].
  - apply IH.
  - right. revert E. unfold pull_source.
    destruct s as [j|]; [destruct (outDeg ds !! j) as [d|]; [destruct (d =? 0)%Z|]|];
      congruence.
Qed.

Lemma pull_sources_zero (ds : PRArrayDS) (srcs : list (option nat)) (j : nat) :
  Some j ∈ srcs → outDeg ds !! j = Some 0%Z →
  ∀ acc, for_each (pull_source ds) srcs acc = JS.Throw ZERO_DIVISOR.
Proof.
  intros Hin Hj. induction srcs as [|s srcs IH]; intros acc; [by apply elem_of_nil in Hin|].
  apply elem_of_cons in Hin as [<-|Hin]; simpl.
  - unfold pull_source. by rewrite Hj.
  - destruct (pull_source ds acc s) as [x|msg] eqn:E; cbn [mbind result_bind JS.bind].
    + by apply IH.
    + revert E. unfold pull_source.
      destruct s as [k|]; [destruct (outDeg ds !! k) as [d|]; [destruct (d =? 0)%Z|]|];
        congruence.
Qed.


Lemma visit_node_throw (a d : JS.number) (ds : PRArrayDS) (acc : JS.number) (k : nat) :
  k < length (curr ds) → length (curr ds) ≤ length (pull ds) →
  (∃ ds' acc', visit_node a d (ds, acc) k = JS.Ok (ds', acc') ∧ same_shape ds ds')
  ∨ visit_node a d (ds, acc) k = JS.Throw ZERO_DIVISOR.
Proof.
  intros Hk Hlen. unfold visit_node.
  destruct (lookup_lt_is_Some_2 (pull ds) k) as [srcs ->]; [lia|].
  destruct (pull_sources_throw ds srcs (JS.of_Z 0)) as [[x ->]| ->];
    cbn [mbind result_bind JS.bind]; [|by right].
  left. eexists _, _. split; [reflexivity|]. repeat split. cbn [curr].
  unfold array_set. rewrite (proj2 (Nat.ltb_lt _ _) Hk). apply length_insert.
Qed.

Lemma node_loop_zero (a d : JS.number) (i j : nat) (srcs : list (option nat))
    (l : list nat) :
  ∀ (ds : PRArrayDS) (acc : JS.number),
    length (curr ds) ≤ length (pull ds) →
    (∀ k, k ∈ l → k < length (curr ds)) →
    i ∈ l → pull ds !! i = Some srcs → Some j ∈ srcs → outDeg ds !! j = Some 0%Z →
    for_each (visit_node a d) l (ds, acc) = JS.Throw ZERO_DIVISOR.
Proof.
  induction l as [|k l IH]; intros ds acc Hlen Hl Hi Hp Hs Ho;
    [by apply elem_of_nil in Hi|].
  cbn [for_each].
  destruct (decide (k = i)) as [->|Hne].
  - unfold visit_node. rewrite Hp, (pull_sources_zero ds srcs j Hs Ho). done.
  - apply elem_of_cons in Hi as [->|Hi]; [done|].
    destruct (visit_node_throw a d ds acc k) as [(ds' & acc' & -> & Ho' & Hp' & Hc')| ->];
      [apply Hl; left | done | | done].
    cbn [mbind result_bind JS.bind]. apply IH.
    + by rewrite Hc', Hp'.
    + intros k' Hk'. rewrite Hc'. apply Hl. by right.
    + done.
    + by rewrite Hp'.
    + done.
    + by rewrite Ho'.
Qed.

(** The converse of the reachability of the check: when the arrays hold
    a pull list that names a source of out-degree zero and the loop begins
    a first pass, [getPRArray] throws the zero-divisor message in that
    pass. *)
Theorem zero_divisor_thrown (pr : PageRankRandomWalk) (i j : nat)
    (srcs : list (option nat)) :
  more_passes (_maxIterations pr) 0 = true →
  length (curr (_PRArrayDS pr)) ≤ length (pull (_PRArrayDS pr)) →
  i < length (curr (_PRArrayDS pr)) →
  pull (_PRArrayDS pr) !! i = Some srcs →
  Some j ∈ srcs →
  outDeg (_PRArrayDS pr) !! j = Some 0%Z →
  ∀ fuel, getPRArray (S fuel) pr = Some (JS.Throw ZERO_DIVISOR).
Proof.
  intros Hit Hlen Hi Hp Hs Ho fuel. unfold getPRArray.
  cbn [getPRArray_loop]. rewrite Hit.
  rewrite (node_loop_zero _ _ i j srcs); try done.
  - intros k Hk. apply elem_of_seq in Hk. lia.
  - apply elem_of_seq. lia.
Qed.

(** *** The parameters *)

(** Whatever the configuration, the teleport probability, the convergence
    threshold and the bound of the iterations of the constructed object are
    neither zero nor NaN: each is the configured number when that is neither
    zero nor NaN (a negative, a fractional or an infinite number is kept as
    it is), and the default otherwise (0.15, 1e-4 and 1000).  With a
    negative bound the loop performs no pass, and [getPRArray] returns the
    rank map of the arrays as the constructor has left them. *)
Theorem constructor_parameters (g : BaseGraph) (cfg : PrRandomWalkConfig)
    (pr : PageRankRandomWalk) :
  constructor g cfg = JS.Ok pr →
  JS.truthy (_alpha pr) = true
  ∧ JS.truthy (_convergence pr) = true
  ∧ JS.truthy (_maxIterations pr) = true
  ∧ _alpha pr = match alpha cfg with
                | Some a => if JS.truthy a then a else DEFAULT_ALPHA
                | None => DEFAULT_ALPHA
                end
  ∧ _convergence pr = match convergence cfg with
                      | Some c => if JS.truthy c then c else DEFAULT_CONVERGENCE
                      | None => DEFAULT_CONVERGENCE
                      end
  ∧ _maxIterations pr = match iterations cfg with
                        | Some m => if JS.truthy m then m else DEFAULT_MAX_ITERATIONS
                        | None => DEFAULT_MAX_ITERATIONS
                        end
  ∧ (∀ m, iterations cfg = Some m → PrimFloat.ltb m 0 = true →
       _maxIterations pr = m
       ∧ ∀ fuel, getPRArray (S fuel) pr
                 = Some (JS.Ok (getRankMapFromArray (_graph pr) (_PRArrayDS pr)))).
Proof.
  unfold constructor.
  destruct (setPRArrayDataStructs _ _ _) as [[g1 ds]|]; [|done].
  cbn [mbind result_bind JS.bind]. intros [= <-].
  cbn [_alpha _convergence _maxIterations _graph _PRArrayDS].
  assert (∀ o dflt, JS.truthy dflt = true → JS.truthy (JS.prop_or_else o dflt) = true) as Ht.
  { intros [x|] dflt Hd; simpl; [|done]. unfold JS.or_else.
    by destruct (JS.truthy x) eqn:E. }
  split_and!.
  - by apply Ht.
  - by apply Ht.
  - by apply Ht.
  - by destruct (alpha cfg).
  - by destruct (convergence cfg).
  - by destruct (iterations cfg).
  - intros m -> Hm.
    assert (JS.truthy m = true) as Htm.
    { destruct (FloatFacts.ltb_distinct m 0 Hm) as [Hn Hz].
      unfold JS.truthy, PrimFloat.is_zero. change zero with 0%float. by rewrite Hn, Hz. }
    unfold JS.prop_or_else, JS.or_else. rewrite Htm. split; [done|].
    intros fuel. unfold getPRArray. cbn [getPRArray_loop _maxIterations].
    unfold more_passes. change (JS.counter 0) with 0%float.
    by rewrite (FloatFacts.ltb_asym m 0 Hm).
Qed.

(** The [weighted] option is stored and never read: the outcome of both
    versions is the same whatever its value. *)
Theorem weighted_is_ignored (g : BaseGraph) (cfg : PrRandomWalkConfig) (w : option bool)
    (fuel : nat) :
  (pr ← constructor g cfg; JS.Ok (getPRArray fuel pr))
  = (pr ← constructor g {| weighted := w; alpha := alpha cfg; alphaDamp := alphaDamp cfg;
                           convergence := convergence cfg; iterations := iterations cfg;
                           init := init cfg |};
     JS.Ok (getPRArray fuel pr))
  ∧ (pr ← constructor g cfg; JS.Ok (getPRDict fuel pr))
    = (pr ← constructor g {| weighted := w; alpha := alpha cfg; alphaDamp := alphaDamp cfg;
                             convergence := convergence cfg; iterations := iterations cfg;
                             init := init cfg |};
       JS.Ok (getPRDict fuel pr)).
Proof.
  unfold constructor. cbn [weighted alpha alphaDamp convergence iterations init].
  destruct (setPRArrayDataStructs _ _ _) as [[g1 ds]|]; [|done].
  split; reflexivity.
Qed.

(** *** The preprocessing, seen from the graph *)

(** For a graph with distinct node ids the constructor returns; it has
    written into every node the feature PR_index, its position, and left
    the rest of the node as it was; and the arrays hold, at that position,
    the initial rank and the sum of the out-degree and the undirected
    degree of the node. *)
Theorem constructor_indexes_nodes (g : BaseGraph) (cfg : PrRandomWalkConfig) :
  distinct (JS.keys (getNodes g)) = true →
  ∃ pr, constructor g cfg = JS.Ok pr
    ∧ length (pull (_PRArrayDS pr)) = nrNodes g
    ∧ ∀ i k n, getNodes g !! i = Some (k, n) →
        getNodes (_graph pr) !! i = Some (k, setFeature n "PR_index" (ANum i))
        ∧ curr (_PRArrayDS pr) !! i = Some (_init pr)
        ∧ old (_PRArrayDS pr) !! i = Some (_init pr)
        ∧ outDeg (_PRArrayDS pr) !! i = Some (outDegree n + degree n)%Z.
Proof.
  intros Hnd%PreprocessingFacts.distinct_NoDup.
  rewrite (PageRankFacts.constructor_closed g cfg Hnd).
  eexists. split; [reflexivity|]. cbn [_PRArrayDS _graph _init arrays_of curr old outDeg pull].
  split.
  - rewrite length_map. unfold indexed, getNodes, with_nodes. cbn [_nodes].
    apply PreprocessingFacts.index_from_length.
  - intros i k n Hi.
    assert (Hlt : i < nrNodes g) by (by apply lookup_lt_Some in Hi).
    split_and!.
    + unfold indexed, getNodes, with_nodes. cbn [_nodes].
      rewrite PreprocessingFacts.index_from_lookup. unfold getNodes, JS.object in *.
      by rewrite Hi.
    + by apply lookup_replicate_2.
    + by apply lookup_replicate_2.
    + change (map ?f ?l !! i) with ((f <$> l) !! i).
      rewrite list_lookup_fmap. unfold JS.object in *. by rewrite Hi.
Qed.

(** *** The graph without nodes *)

Lemma getPRArray_loop_nil (a d c m : JS.number) (fuel : nat) :
  ∀ (i : nat) (ds : PRArrayDS) r,
    curr ds = [] →
    getPRArray_loop a d c m fuel i ds = Some r → ∃ ds', r = JS.Ok ds'.
Proof.
  induction fuel as [|fuel IH]; intros i ds r Hc; simpl; [done|].
  destruct (more_passes m i); [|intros [= <-]; eauto].
  rewrite Hc. simpl. destruct (PrimFloat.leb _ c); [intros [= <-]; eauto|]. by apply IH.
Qed.

Lemma getPRDict_loop_nil (a d c m : JS.number) (fuel : nat) :
  ∀ (i : nat) (s : PRDict) r,
    dcurr s = [] →
    getPRDict_loop [] a d c m fuel i s = Some r → r = JS.Ok [].
Proof.
  induction fuel as [|fuel IH]; intros i s r Hc; simpl; [done|].
  destruct (more_passes m i); [|intros [= <-]; by rewrite Hc].
  destruct (PrimFloat.leb _ c); [intros [= <-]; by rewrite Hc|]. by apply IH.
Qed.

Lemma getPRArray_loop_ends (a d c m : JS.number) (n : nat) :
  more_passes m n = false →
  ∀ (fuel i : nat) (ds : PRArrayDS),
    i ≤ n → n - i < fuel → is_Some (getPRArray_loop a d c m fuel i ds).
Proof.
  intros Hn. induction fuel as [|fuel IH]; intros i ds Hi Hf; [lia|].
  simpl. destruct (more_passes m i) eqn:E; [|done].
  destruct (for_each _ _ _) as [[ds1 delta]|]; [|done].
  destruct (PrimFloat.leb _ c); [done|].
  destruct (decide (i = n)) as [->|Hne]; [congruence|]. apply IH; lia.
Qed.

Lemma getPRDict_loop_ends (keys : list string) (a d c m : JS.number) (n : nat) :
  more_passes m n = false →
  ∀ (fuel i : nat) (s : PRDict),
    i ≤ n → n - i < fuel → is_Some (getPRDict_loop keys a d c m fuel i s).
Proof.
  intros Hn. induction fuel as [|fuel IH]; intros i s Hi Hf; [lia|].
  simpl. destruct (more_passes m i) eqn:E; [|done].
  destruct (for_each _ _ _) as [[s1 delta]|]; [|done].
  destruct (PrimFloat.leb _ c); [done|].
  destruct (decide (i = n)) as [->|Hne]; [congruence|]. apply IH; lia.
Qed.

(** On a graph without nodes, whatever the configuration, what either
    version returns is the empty rank map, however long its loop is
    followed; and both do return it once the test of the loop fails for
    some pass number. *)
Theorem empty_graph_ranks (g : BaseGraph) (cfg : PrRandomWalkConfig) :
  getNodes g = [] →
  ∃ pr, constructor g cfg = JS.Ok pr
    ∧ (∀ fuel r, getPRArray fuel pr = Some r → r = JS.Ok [])
    ∧ (∀ fuel r, getPRDict fuel pr = Some r → r = JS.Ok [])
    ∧ (∀ n fuel, more_passes (_maxIterations pr) n = false → n < fuel →
         getPRArray fuel pr = Some (JS.Ok []) ∧ getPRDict fuel pr = Some (JS.Ok [])).
Proof.
  intros Hg. unfold constructor, setPRArrayDataStructs. rewrite Hg.
  cbn [JS.keys map for_each mbind result_bind JS.bind].
  eexists. split; [reflexivity|].
  assert (HA : ∀ fuel r,
            getPRArray fuel
              {| _graph := g;
                 _weighted := match weighted cfg with Some true => true | _ => DEFAULT_WEIGHTED end;
                 _alpha := JS.prop_or_else (alpha cfg) DEFAULT_ALPHA;
                 _alphaDamp := match alphaDamp cfg with
                               | Some f => f g | None => defaultAlphaDamp g end;
                 _convergence := JS.prop_or_else (convergence cfg) DEFAULT_CONVERGENCE;
                 _maxIterations := JS.prop_or_else (iterations cfg) DEFAULT_MAX_ITERATIONS;
                 _init := match init cfg with Some f => f g | None => defaultInit g end;
                 _PRArrayDS := {| curr := []; old := []; outDeg := []; pull := [] |} |}
            = Some r → r = JS.Ok []).
  { intros fuel r. unfold getPRArray.
    cbn [_alpha _alphaDamp _convergence _maxIterations _PRArrayDS _graph].
    destruct (getPRArray_loop _ _ _ _ fuel 0 _) as [r0|] eqn:E; [|done].
    apply getPRArray_loop_nil in E as [ds' ->]; [|done]. intros [= <-].
    cbn [mbind result_bind JS.bind]. unfold getRankMapFromArray. by rewrite Hg. }
  assert (HD : ∀ fuel r,
            getPRDict fuel
              {| _graph := g;
                 _weighted := match weighted cfg with Some true => true | _ => DEFAULT_WEIGHTED end;
                 _alpha := JS.prop_or_else (alpha cfg) DEFAULT_ALPHA;
                 _alphaDamp := match alphaDamp cfg with
                               | Some f => f g | None => defaultAlphaDamp g end;
                 _convergence := JS.prop_or_else (convergence cfg) DEFAULT_CONVERGENCE;
                 _maxIterations := JS.prop_or_else (iterations cfg) DEFAULT_MAX_ITERATIONS;
                 _init := match init cfg with Some f => f g | None => defaultInit g end;
                 _PRArrayDS := {| curr := []; old := []; outDeg := []; pull := [] |} |}
            = Some r → r = JS.Ok []).
  { intros fuel r. unfold getPRDict.
    cbn [_alpha _alphaDamp _convergence _maxIterations _PRArrayDS _graph _init].
    rewrite Hg. cbn [JS.keys map for_each]. by apply getPRDict_loop_nil. }
  split; [exact HA|]. split; [exact HD|].
  intros n fuel Hn Hf. cbn [_maxIterations] in Hn. split.
  - destruct (getPRArray fuel _) as [r|] eqn:E; [by rewrite (HA fuel r E)|].
    exfalso. revert E. unfold getPRArray.
    cbn [_alpha _alphaDamp _convergence _maxIterations _PRArrayDS _graph].
    edestruct (getPRArray_loop_ends) as [r0 ->]; [exact Hn | | | done]; lia.
  - destruct (getPRDict fuel _) as [r|] eqn:E; [by rewrite (HD fuel r E)|].
    exfalso. revert E. unfold getPRDict.
    cbn [_alpha _alphaDamp _convergence _maxIterations _PRArrayDS _graph _init].
    rewrite Hg. cbn [JS.keys map for_each].
    edestruct (getPRDict_loop_ends) as [r0 ->]; [exact Hn | | | done]; lia.
Qed.

End PageRankMore.

(** ** The theorems at sample inputs *)

Module NodeExamples.
Import Edge Node Graph Invariants Container Examples MoreSamples NodeEdgeFacts.

Lemma addEdge_removeEdge_witness :
  unattached (Node.new "A" None) e1_AB
  ∧ Node.addEdge (Node.new "A" None) e1_AB = JS.Ok node_A_with_e1
  ∧ Node.removeEdge node_A_with_e1 e1_AB = JS.Ok (Node.new "A" None).
Proof.
  assert (unattached (Node.new "A" None) e1_AB) as Hu by (repeat split).
  assert (Node.addEdge (Node.new "A" None) e1_AB = JS.Ok node_A_with_e1) as Ha
    by reflexivity.
  split; [exact Hu|]. split; [exact Ha|].
  exact (addEdge_removeEdge (Node.new "A" None) node_A_with_e1 e1_AB Hu Ha).
Defined.

(** On the node A of the triangle: the counters are kept by the removal
    of "e1", and the removal of "toString", which no bucket holds, returns
    with the undirected degree down from 2 to 1 and the two edges still in
    the bucket. *)
Lemma edge_updates_keep_counters_witness :
  counters_ok triangle_A = true
  ∧ (∃ n', removeEdgeByID triangle_A "e1" = JS.Ok n' ∧ counters_ok n' = true)
  ∧ ∃ n', removeEdgeByID triangle_A "toString" = JS.Ok n'
      ∧ _und_degree triangle_A = 2%Z ∧ _und_degree n' = 1%Z
      ∧ JS.keys (Node._und_edges n') = ["e1"; "e3"].
Proof.
  split; [reflexivity|].
  destruct (edge_updates_keep_counters triangle_A eq_refl) as (_ & Hrem & _ & Hinh).
  split.
  - eexists. split; [reflexivity|]. by apply (Hrem "e1").
  - destruct (Hinh "toString" eq_refl) as (n' & Hn' & _ & _ & Hd & _ & _ & Hb).
    exists n'. split; [exact Hn'|]. split; [reflexivity|].
    split; [exact Hd | by rewrite Hb].
Defined.

Lemma addEdge_lookup_witness :
  Node.addEdge (Node.new "A" None) e1_AB = JS.Ok node_A_with_e1
  ∧ unattached (Node.new "A" None) e1_AB
  ∧ hasEdge node_A_with_e1 e1_AB = true
  ∧ getEdge node_A_with_e1 "e1" = JS.Ok (JS.Own e1_AB).
Proof.
  assert (unattached (Node.new "A" None) e1_AB) as Hu by (repeat split).
  split; [reflexivity|]. split; [exact Hu|].
  destruct (addEdge_lookup (Node.new "A" None) node_A_with_e1 e1_AB eq_refl) as [H1 H2].
  split; [exact H1 | exact (H2 Hu)].
Defined.

Lemma removeEdgeByID_forgets_witness :
  NoDup (JS.keys (_in_edges triangle_A)) ∧ NoDup (JS.keys (_out_edges triangle_A))
  ∧ NoDup (JS.keys (Node._und_edges triangle_A))
  ∧ Node.hasEdgeID triangle_A "e1" = true
  ∧ ∃ n', removeEdgeByID triangle_A "e1" = JS.Ok n'
      ∧ Node.hasEdgeID n' "e1" = false
      ∧ ∀ id', id' ≠ "e1" → Node.hasEdgeID n' id' = Node.hasEdgeID triangle_A id'.
Proof.
  assert (NoDup (JS.keys (_in_edges triangle_A))) as Hi by constructor.
  assert (NoDup (JS.keys (_out_edges triangle_A))) as Ho by constructor.
  assert (NoDup (JS.keys (Node._und_edges triangle_A))) as Hu.
  { apply (NoDup_cons_2 "e1" ["e3"]); [|apply NoDup_singleton].
    intros H%list_elem_of_singleton. discriminate H. }
  split; [exact Hi|]. split; [exact Ho|]. split; [exact Hu|]. split; [reflexivity|].
  destruct (removeEdgeByID_forgets triangle_A "e1" Hi Ho Hu) as [_ H].
  change (Node.hasEdgeID triangle_A "e1") with true in H. cbv iota in H.
  destruct H as (n' & Hn' & _ & _ & _ & Hh & Hrest).
  exists n'. split; [exact Hn'|]. split; [exact Hh | exact Hrest].
Defined.

Lemma neighbours_match_degrees_witness :
  counters_ok triangle_A = true
  ∧ Z.of_nat (length (prevNodes triangle_A)) = inDegree triangle_A
  ∧ Z.of_nat (length (nextNodes triangle_A)) = outDegree triangle_A
  ∧ Z.of_nat (length (connNodes triangle_A)) = degree triangle_A
  ∧ Z.of_nat (length (reachNodes triangle_A)) = (outDegree triangle_A + degree triangle_A)%Z
  ∧ Z.of_nat (length (allNeighbors triangle_A))
    = (inDegree triangle_A + outDegree triangle_A + degree triangle_A)%Z.
Proof.
  split; [reflexivity|]. apply (neighbours_match_degrees triangle_A). reflexivity.
Defined.

End NodeExamples.

Module ComputeExamples.
Import Edge Node Graph Compute Invariants AdjacencyForms Examples MoreSamples.
Import AdjacencyFacts AnalyticsFacts.



Lemma adjListW_incoming_symmetric_witness :
  adjListW mixed3 true true 0%float = JS.Ok mixed3_incoming
  ∧ (∀ u v, read2 mixed3_incoming u v = read2 mixed3_incoming v u)
  ∧ ∃ m, adjMatrixW mixed3 true true 0%float = JS.Ok m
      ∧ ∀ i j, cell m i j = cell m j i.
Proof.
  split; [vm_compute; reflexivity|].
  apply (adjListW_incoming_symmetric mixed3 true 0%float mixed3_incoming).
  vm_compute; reflexivity.
Defined.

Lemma adjListW_rows_witness :
  distinct (JS.keys (getNodes mixed3)) = true
  ∧ adjListW mixed3 true true 0%float = JS.Ok mixed3_incoming
  ∧ JS.keys mixed3_incoming = JS.keys (getNodes mixed3)
  ∧ (true = true → ∀ u, u ∈ JS.keys (getNodes mixed3) → is_Some (read2 mixed3_incoming u u)).
Proof.
  split; [vm_compute; reflexivity|]. split; [vm_compute; reflexivity|].
  apply (adjListW_rows mixed3 true true 0%float mixed3_incoming); vm_compute; reflexivity.
Defined.

Lemma nextArray_adjMatrixW_witness :
  nextArray mixed3 true = JS.Ok mixed3_next
  ∧ length mixed3_next = nrNodes mixed3
  ∧ ∃ m, adjMatrixW mixed3 true true 0%float = JS.Ok m
      ∧ ∀ i j, i < nrNodes mixed3 → j < nrNodes mixed3 →
          ∃ x, cell m i j = Some x
            ∧ mixed3_next !! i ≫= (.!! j) = Some [if JS.isFinite x then Some j else None].
Proof.
  split; [vm_compute; reflexivity|].
  apply (nextArray_adjMatrixW mixed3 true mixed3_next). vm_compute; reflexivity.
Defined.

Lemma transitivity_outcomes_witness :
  PrimFloat.is_zero (triadCount lone false) = true
  ∧ ∃ x, transitivity lone true false = JS.Ok x ∧ JS.isFinite x = false.
Proof.
  split; [vm_compute; reflexivity|].
  destruct (transitivity_outcomes lone false) as [(t & x & _ & Hx & _ & Hz) _].
  exists x. split; [exact Hx|]. apply Hz. vm_compute; reflexivity.
Defined.

End ComputeExamples.

Module TypedExamples.
Import Edge Node Graph Typed TypedForms Examples MoreSamples TypedOverlayFacts.

Lemma typed_add_delete_restores_witness :
  Typed.addNode typed_one person_a1 = JS.Ok typed_two
  ∧ Typed.deleteNode typed_two person_a1 = JS.Ok typed_one_again
  ∧ _typedNodes typed_one_again = _typedNodes typed_one
  ∧ _typedEdges typed_one_again = _typedEdges typed_one.
Proof.
  assert (Typed.addNode typed_one person_a1 = JS.Ok typed_two) as Ha
    by (vm_compute; reflexivity).
  assert (Typed.deleteNode typed_two person_a1 = JS.Ok typed_one_again) as Hd
    by (vm_compute; reflexivity).
  split; [exact Ha|]. split; [exact Hd|].
  apply (proj1 (typed_add_delete_restores typed_one) person_a1 typed_two typed_one_again);
    [reflexivity | | exact Ha | exact Hd].
  intros b Hb. vm_compute in Hb. injection Hb as <-. split; [discriminate | reflexivity].
Defined.


Lemma addNode_registers_type_witness :
  Typed.addNode typed_one person_a1 = JS.Ok typed_two
  ∧ nrTypedNodes typed_one "PERSON" = Some 1
  ∧ nrTypedNodes typed_two "PERSON" = Some 2
  ∧ nodeTypes typed_two = nodeTypes typed_one.
Proof.
  assert (Typed.addNode typed_one person_a1 = JS.Ok typed_two) as Ha
    by (vm_compute; reflexivity).
  split; [exact Ha|]. split; [reflexivity|].
  destruct (addNode_registers_type typed_one typed_two person_a1 Ha) as (H1 & _ & H3 & _).
  { intros b Hb. vm_compute in Hb. injection Hb as <-. reflexivity. }
  split; [exact H1 | exact H3].
Defined.

End TypedExamples.

Module ReaderExamples.
Import Edge Node Graph JSONInput Examples JSONSamples MoreSamples ReaderFacts.

Lemma readFromJSON_weights_witness :
  readFromJSON (fun _ => JS.NaN) weighted_input sentinel_json = JS.Ok sentinel_graph
  ∧ ∀ id e, getEdgeById sentinel_graph id = Some e →
      Edge._weighted e = true ∧ JS.isNaN (getWeight e) = false.
Proof.
  split; [vm_compute; reflexivity|].
  apply (readFromJSON_weights (fun _ => JS.NaN) weighted_input sentinel_json sentinel_graph).
  vm_compute; reflexivity.
Defined.

End ReaderExamples.

Module WalkExamples.
Import Edge Node Graph PageRank Invariants Examples PageRankSamples MoreSamples PageRankMore.

Lemma zero_divisor_thrown_witness :
  more_passes (_maxIterations contrived) 0 = true
  ∧ outDeg (_PRArrayDS contrived) !! 1 = Some 0%Z
  ∧ getPRArray 1 contrived = Some (JS.Throw ZERO_DIVISOR).
Proof.
  split; [reflexivity|]. split; [reflexivity|].
  apply (zero_divisor_thrown contrived 0 1 [Some 1]).
  - reflexivity.
  - reflexivity.
  - vm_compute. lia.
  - reflexivity.
  - left.
  - reflexivity.
Defined.

(** The configuration [{alpha: 0, iterations: 0}] gives the defaults 0.15
    and 1000; the configuration [{iterations: -1}] keeps the bound -1, and
    [getPRArray] returns the initial ranks. *)
Lemma constructor_parameters_witness :
  (∃ pr, constructor ring3 zero_config = JS.Ok pr
     ∧ _alpha pr = DEFAULT_ALPHA ∧ _maxIterations pr = DEFAULT_MAX_ITERATIONS
     ∧ JS.truthy (_convergence pr) = true)
  ∧ ∃ pr, constructor ring3 negative_iterations = JS.Ok pr
      ∧ _maxIterations pr = (-1)%float
      ∧ getPRArray 1 pr
        = Some (JS.Ok [("A", PrimFloat.div 1 3); ("B", PrimFloat.div 1 3);
                       ("C", PrimFloat.div 1 3)]).
Proof.
  split.
  - eexists. split; [vm_compute; reflexivity|].
    edestruct (constructor_parameters ring3 zero_config) as (_ & Hc & _ & Ha & _ & Hi & _);
      [vm_compute; reflexivity|].
    split; [exact Ha|]. split; [exact Hi | exact Hc].
  - eexists. split; [vm_compute; reflexivity|].
    edestruct (constructor_parameters ring3 negative_iterations)
      as (_ & _ & _ & _ & _ & _ & Hneg); [vm_compute; reflexivity|].
    destruct (Hneg (-1)%float eq_refl eq_refl) as [Hm Hrun].
    split; [exact Hm|]. rewrite (Hrun 0). vm_compute. reflexivity.
Defined.

Lemma constructor_indexes_nodes_witness :
  distinct (JS.keys (getNodes ring3)) = true
  ∧ ∃ pr, constructor ring3 scenario_config = JS.Ok pr
      ∧ length (pull (_PRArrayDS pr)) = nrNodes ring3
      ∧ ∀ i k n, getNodes ring3 !! i = Some (k, n) →
          getNodes (_graph pr) !! i = Some (k, setFeature n "PR_index" (ANum i))
          ∧ curr (_PRArrayDS pr) !! i = Some (_init pr)
          ∧ old (_PRArrayDS pr) !! i = Some (_init pr)
          ∧ outDeg (_PRArrayDS pr) !! i = Some (outDegree n + degree n)%Z.
Proof.
  split; [vm_compute; reflexivity|].
  apply (constructor_indexes_nodes ring3 scenario_config). vm_compute; reflexivity.
Defined.

Lemma empty_graph_ranks_witness :
  getNodes (Graph.new "empty") = []
  ∧ ∃ pr, constructor (Graph.new "empty") scenario_config = JS.Ok pr
      ∧ getPRArray 101 pr = Some (JS.Ok []) ∧ getPRDict 101 pr = Some (JS.Ok []).
Proof.
  split; [reflexivity|].
  destruct (empty_graph_ranks (Graph.new "empty") scenario_config eq_refl)
    as (pr & Hpr & _ & _ & Hrun).
  exists pr. split; [exact Hpr|]. apply (Hrun 100); [|lia].
  vm_compute in Hpr. injection Hpr as <-. vm_compute. reflexivity.
Defined.

End WalkExamples.

(** ** TypedGraph: deleting a node *)

Module TypedDeleteFacts.
Import Edge Node Graph Typed TypedForms ObjectMore TypedOverlayFacts.

Lemma bucket_of_delete_upper (id label : string) :
  JS.toUpperCase (bucket_of_delete id label) = bucket_of_delete id label.
Proof.
  unfold bucket_of_delete. destruct (String.eqb _ _); [reflexivity | apply toUpperCase_idem].
Qed.

Lemma overlay_delete_closed (m m' : JS.object (JS.object string)) (id label : string)
    (no_type nowhere : string) :
  overlay_delete m id label no_type nowhere = JS.Ok m' →
  ∃ bucket, JS.get m (bucket_of_delete id label) = Some bucket
    ∧ JS.has bucket id = true
    ∧ m' = match JS.size (JS.delete bucket id) with
           | 0 => JS.delete (JS.set m (bucket_of_delete id label) (JS.delete bucket id))
                    (bucket_of_delete id label)
           | S _ => JS.set m (bucket_of_delete id label) (JS.delete bucket id)
           end.
Proof.
  unfold overlay_delete. fold (bucket_of_delete id label).
  set (B := bucket_of_delete id label).
  destruct (JS.get m B) as [bucket|] eqn:Eb; [|done].
  destruct (JS.has bucket id) eqn:Eh; [|done]. cbn [negb].
  subst B. rewrite bucket_of_delete_upper. set (B := bucket_of_delete id label) in *.
  rewrite ObjectFacts.get_set_eq. cbn [fmap option_fmap option_map].
  intros H. exists bucket. split; [done|]. split; [done|].
  destruct (JS.size (JS.delete bucket id)); by injection H.
Qed.

Lemma elem_keys_get {V : Type} (o : JS.object V) (k : string) :
  k ∈ JS.keys o ↔ is_Some (JS.get o k).
Proof.
  split; [apply ObjectFacts.in_keys_get|].
  intros [v Hv]. apply ObjectFacts.get_Some_in in Hv.
  unfold JS.keys. apply list_elem_of_fmap. by exists (k, v).
Qed.

(** [deleteNode] takes the node out of one bucket: the count of that type
    falls by one, and the type itself is removed, with its count, when the
    node was its last one (the bucket GENERIC included); no other type
    changes. *)
Theorem deleteNode_unregisters_type (t t' : TypedGraph) (n : BaseNode) :
  NoDup (nodeTypes t) →
  Typed.deleteNode t n = JS.Ok t' →
  ∃ k, nrTypedNodes t (bucket_of_delete (Node.getID n) (Node.getLabel n)) = Some (S k)
    ∧ nrTypedNodes t' (bucket_of_delete (Node.getID n) (Node.getLabel n))
      = match k with 0 => None | S _ => Some k end
    ∧ (∀ type, JS.toUpperCase type ≠ bucket_of_delete (Node.getID n) (Node.getLabel n) →
         nrTypedNodes t' type = nrTypedNodes t type)
    ∧ (∀ type, type ∈ nodeTypes t' ↔
         type ∈ nodeTypes t
         ∧ (k = 0 → type ≠ bucket_of_delete (Node.getID n) (Node.getLabel n)))
    ∧ edgeTypes t' = edgeTypes t.
Proof.
  intros Hnd. unfold Typed.deleteNode.
  destruct (overlay_delete _ _ _ _ _) as [m1|] eqn:E1; [|done].
  cbn [mbind result_bind JS.bind].
  destruct (Graph.deleteNode (base t) n) as [b1|]; [|done].
  cbn [mbind result_bind JS.bind]. intros [= <-].
  apply overlay_delete_closed in E1 as (bucket & Hb & Hid & ->).
  set (B := bucket_of_delete (Node.getID n) (Node.getLabel n)) in *.
  pose proof (size_delete bucket (Node.getID n) Hid) as Hsize.
  exists (JS.size (JS.delete bucket (Node.getID n))).
  unfold nrTypedNodes, nodeTypes, edgeTypes in *. cbn [_typedNodes _typedEdges].
  assert (HB : JS.toUpperCase B = B) by apply bucket_of_delete_upper.
  assert (Hkeys : NoDup (JS.keys (JS.set (_typedNodes t) B
                                    (JS.delete bucket (Node.getID n))))).
  { rewrite ObjectFacts.keys_set. unfold JS.has. by rewrite Hb. }
  rewrite HB, Hb. cbn [fmap option_fmap option_map]. split_and!.
  - by rewrite Hsize.
  - destruct (JS.size (JS.delete bucket (Node.getID n))) as [|k] eqn:Ek.
    + by rewrite get_delete_eq.
    + rewrite ObjectFacts.get_set_eq. cbn [fmap option_fmap option_map]. by rewrite Ek.
  - intros type Hne.
    destruct (JS.size (JS.delete bucket (Node.getID n))).
    + rewrite get_delete_ne by done. by rewrite ObjectFacts.get_set_ne.
    + by rewrite ObjectFacts.get_set_ne.
  - intros type. rewrite !elem_keys_get.
    destruct (JS.size (JS.delete bucket (Node.getID n))) as [|k] eqn:Ek.
    + destruct (decide (type = B)) as [->|Hne].
      * rewrite get_delete_eq by done. split; [by intros [? ?] | intros [_ H]; by destruct H].
      * rewrite get_delete_ne by done. rewrite ObjectFacts.get_set_ne by done.
        split; [by intros ? | by intros [? _]].
    + rewrite ObjectFacts.get_set. destruct (String.eqb_spec B type) as [<-|Hne].
      * rewrite Hb. split; [by intros _; split; [eauto | done] | eauto].
      * split; [by intros ? | by intros [? _]].
  - done.
Qed.

End TypedDeleteFacts.

(** ** The JSON reader: the edges and the features *)

Module ReaderEdgeFacts.
Import Edge Node Graph JSONInput Invariants Container ContainerFacts States ReaderForms
  ReaderFacts.

Lemma same_edges_keep (g g' : BaseGraph) :
  _dir_edges g' = _dir_edges g → Graph._und_edges g' = Graph._und_edges g →
  keeps_edges g g'.
Proof. intros Hd Hu id. unfold hasEdgeID. by rewrite Hd, Hu. Qed.

Lemma addEdge_keeps (g g' : BaseGraph) (e : BaseEdge) :
  Graph.addEdge g e = JS.Ok g' →
  keeps_edges g g' ∧ hasEdgeID g' (Edge.getID e) = true.
Proof.
  intros [Hd Hu]%addEdge_edges. unfold keeps_edges, hasEdgeID. rewrite Hd, Hu. split.
  - intros id. destruct (isDirected e); rewrite ?ObjectFacts.has_set;
      intros [->| ->]%orb_true_iff; by rewrite ?orb_true_r.
  - destruct (isDirected e); by rewrite ObjectFacts.has_set, String.eqb_refl, ?orb_true_r.
Qed.

Section Reading.
Variable parseFloat : string → JS.number.
Variable inp : JSONInput.

Lemma present_keeps (g g' : BaseGraph) (k : string) (ei : EdgeInput) :
  keeps_edges g g' → present inp g k ei → present inp g' k ei.
Proof. intros Hk [H|[Hd H]]; [left | right; split; [done|]]; by apply Hk. Qed.

Lemma read_edge_present (node_id : string) (g g' : BaseGraph) (ei : EdgeInput) :
  read_edge parseFloat inp node_id g ei = JS.Ok g' →
  keeps_edges g g' ∧ present inp g' node_id ei.
Proof.
  unfold read_edge.
  destruct (node_or_add g (to ei)) as [g1|] eqn:E1; [|done].
  cbn [mbind result_bind JS.bind].
  apply JSONFacts.node_or_add_edges in E1 as [Hd1 Hu1].
  pose proof (same_edges_keep g g1 Hd1 Hu1) as K1.
  destruct (skipped inp g1 node_id ei) eqn:Es.
  - intros [= <-]. split; [exact K1|]. unfold skipped in Es.
    apply orb_true_iff in Es as [Es|[Ed Es]%andb_true_iff]; [by left|].
    right. split; [by apply negb_true_iff | done].
  - unfold addEdgeByID. set (e := newEdge _ _ _ _).
    destruct (Graph.addEdge g1 e) as [g2|] eqn:E2; [|done].
    cbn [mbind result_bind JS.bind]. intros [= <-].
    apply addEdge_keeps in E2 as [K2 H2]. split.
    + intros id Hid. by apply K2, K1.
    + by left.
Qed.

Lemma read_edges_present (node_id : string) (entries : list EdgeInput) :
  ∀ g g', for_each (read_edge parseFloat inp node_id) entries g = JS.Ok g' →
    keeps_edges g g' ∧ ∀ ei, ei ∈ entries → present inp g' node_id ei.
Proof.
  induction entries as [|ei entries IH]; intros g g'; simpl.
  - intros [= <-]. split; [by intros ?|]. intros ei H. by apply elem_of_nil in H.
  - destruct (read_edge parseFloat inp node_id g ei) as [g1|] eqn:E1; [|done].
    cbn [mbind result_bind JS.bind]. intros E2.
    apply read_edge_present in E1 as [K1 P1]. apply IH in E2 as [K2 P2]. split.
    + intros id Hid. by apply K2, K1.
    + intros en [->|Hin]%elem_of_cons; [by apply (present_keeps g1) | by apply P2].
Qed.

Lemma read_node_present (g g' : BaseGraph) (entry : string * NodeInput) :
  read_node parseFloat inp g entry = JS.Ok g' →
  keeps_edges g g' ∧ ∀ ei, ei ∈ edges (snd entry) → present inp g' (fst entry) ei.
Proof.
  unfold read_node.
  destruct (node_or_add g (fst entry)) as [g1|] eqn:E1; [|done].
  cbn [mbind result_bind JS.bind].
  apply JSONFacts.node_or_add_edges in E1 as [Hd1 Hu1].
  destruct (match features (snd entry) with Some _ => _ | None => _ end) as [g2|] eqn:E2; [|done].
  cbn [mbind result_bind JS.bind].
  assert (K2 : keeps_edges g1 g2).
  { destruct (features (snd entry)).
    - apply JSONFacts.on_node_edges in E2 as [Hd Hu]. by apply same_edges_keep.
    - injection E2 as <-. by intros ?. }
  destruct (match coords (snd entry) with Some _ => _ | None => _ end) as [g3|] eqn:E3; [|done].
  cbn [mbind result_bind JS.bind].
  assert (K3 : keeps_edges g2 g3).
  { destruct (coords (snd entry)).
    - apply JSONFacts.on_node_edges in E3 as [Hd Hu]. by apply same_edges_keep.
    - injection E3 as <-. by intros ?. }
  intros [K4 P4]%read_edges_present. split; [|done].
  intros id Hid. apply K4, K3, K2. by apply (same_edges_keep g g1).
Qed.

Lemma read_nodes_present (entries : JS.object NodeInput) :
  ∀ g g', for_each (read_node parseFloat inp) entries g = JS.Ok g' →
    keeps_edges g g'
    ∧ ∀ k entry ei, (k, entry) ∈ entries → ei ∈ edges entry → present inp g' k ei.
Proof.
  induction entries as [|entry entries IH]; intros g g'; simpl.
  - intros [= <-]. split; [by intros ?|]. intros k entry ei H. by apply elem_of_nil in H.
  - destruct (read_node parseFloat inp g entry) as [g1|] eqn:E1; [|done].
    cbn [mbind result_bind JS.bind]. intros E2.
    apply read_node_present in E1 as [K1 P1]. apply IH in E2 as [K2 P2]. split.
    + intros id Hid. by apply K2, K1.
    + intros k en ei [E|Hin]%elem_of_cons Hei; [|by apply (P2 k en)].
      subst entry. apply (present_keeps g1); [done|]. by apply P1.
Qed.

(** Where the edges of the result come from. *)
Lemma edge_provenance (json : JSONGraph) (g : BaseGraph) :
  readFromJSON parseFloat inp json = JS.Ok g →
  ∀ id e, getEdgeById g id = Some e →
    ∃ k entry ei, (k, entry) ∈ data json ∧ ei ∈ edges entry
      ∧ id = edge_id k inp ei
      ∧ e = newEdge id k (to ei) (edge_config parseFloat inp ei).
Proof.
  set (P := λ g : BaseGraph, ∀ id e, getEdgeById g id = Some e →
              ∃ k entry ei, (k, entry) ∈ data json ∧ ei ∈ edges entry
                ∧ id = edge_id k inp ei
                ∧ e = newEdge id k (to ei) (edge_config parseFloat inp ei)).
  assert (Hsame : ∀ g g', _dir_edges g' = _dir_edges g →
            Graph._und_edges g' = Graph._und_edges g → P g → P g').
  { intros g0 g' Hd Hu HP id e. unfold getEdgeById. rewrite Hd, Hu. apply HP. }
  unfold readFromJSON. apply (for_each_preserves P).
  - intros id e. done.
  - intros g0 [k entry] g4 Hentry HP0. unfold read_node. cbn [fst snd].
    destruct (node_or_add g0 k) as [g1|] eqn:E1; [|done].
    cbn [mbind result_bind JS.bind].
    apply JSONFacts.node_or_add_edges in E1 as [Hd1 Hu1].
    pose proof (Hsame _ _ Hd1 Hu1 HP0) as HP1.
    destruct (match features entry with Some _ => _ | None => _ end) as [g2|] eqn:E2; [|done].
    cbn [mbind result_bind JS.bind].
    assert (HP2 : P g2).
    { destruct (features entry).
      - apply JSONFacts.on_node_edges in E2 as [Hd Hu]. by apply (Hsame g1).
      - by injection E2 as <-. }
    destruct (match coords entry with Some _ => _ | None => _ end) as [g3|] eqn:E3; [|done].
    cbn [mbind result_bind JS.bind].
    assert (HP3 : P g3).
    { destruct (coords entry).
      - apply JSONFacts.on_node_edges in E3 as [Hd Hu]. by apply (Hsame g2).
      - by injection E3 as <-. }
    apply (for_each_preserves P); [done|].
    intros g5 en g6 Hen HP5. unfold read_edge.
    destruct (node_or_add g5 (to en)) as [g7|] eqn:E7; [|done].
    cbn [mbind result_bind JS.bind].
    apply JSONFacts.node_or_add_edges in E7 as [Hd7 Hu7].
    pose proof (Hsame _ _ Hd7 Hu7 HP5) as HP7.
    destruct (skipped inp g7 k en); [by intros [= <-]|].
    unfold addEdgeByID. set (e := newEdge _ _ _ _).
    destruct (Graph.addEdge g7 e) as [g8|] eqn:E8; [|done].
    cbn [mbind result_bind JS.bind]. intros [= <-].
    apply addEdge_edges in E8 as [Hd8 Hu8].
    assert (He : ∀ id, Edge.getID e = id →
              ∃ k0 entry0 ei, (k0, entry0) ∈ data json ∧ ei ∈ edges entry0
                ∧ id = edge_id k0 inp ei
                ∧ e = newEdge id k0 (to ei) (edge_config parseFloat inp ei)).
    { intros id <-. exists k, entry, en. by split_and!. }
    intros id e0. unfold getEdgeById. rewrite Hd8, Hu8.
    destruct (isDirected e).
    + rewrite ObjectFacts.get_set.
      destruct (String.eqb_spec (Edge.getID e) id) as [Hid|Hid];
        [intros [= <-]; by apply He | apply HP7].
    + destruct (JS.get (_dir_edges g7) id) eqn:Ed.
      * intros [= <-]. apply (HP7 id). unfold getEdgeById. by rewrite Ed.
      * rewrite ObjectFacts.get_set.
        destruct (String.eqb_spec (Edge.getID e) id) as [Hid|Hid];
          [intros [= <-]; by apply He|].
        intros H. apply (HP7 id). unfold getEdgeById. by rewrite Ed.
Qed.

End Reading.

(** The edges of the graph the reader returns are those of the entries:
    every edge is the one an edge entry describes (id, end nodes,
    direction and weight), and every edge entry has its edge in the graph,
    or, when it is undirected, the edge of the mirrored id. *)
Theorem readFromJSON_edges (parseFloat : string → JS.number) (inp : JSONInput)
    (json : JSONGraph) (g : BaseGraph) :
  readFromJSON parseFloat inp json = JS.Ok g →
  (∀ id e, getEdgeById g id = Some e →
     ∃ k entry ei, (k, entry) ∈ data json ∧ ei ∈ edges entry
       ∧ id = edge_id k inp ei
       ∧ e = newEdge id k (to ei) (edge_config parseFloat inp ei))
  ∧ (∀ k entry ei, (k, entry) ∈ data json → ei ∈ edges entry →
       present inp g k ei).
Proof.
  intros Hg. split.
  - by apply edge_provenance.
  - unfold readFromJSON in Hg. by apply read_nodes_present in Hg as [_ H].
Qed.

End ReaderEdgeFacts.

Module ReaderFeatureFacts.
Import Edge Node Graph JSONInput Invariants Container ContainerFacts States ReaderForms
  ReaderFacts.

Lemma settled_refl (x : string) (g : BaseGraph) : settled_at x g g.
Proof. unfold settled_at. destruct (features_at g x); auto. Qed.

Lemma settled_trans (x : string) (g1 g2 g3 : BaseGraph) :
  settled_at x g1 g2 → settled_at x g2 g3 → settled_at x g1 g3.
Proof.
  unfold settled_at. destruct (features_at g1 x) as [f|].
  - intros ->. done.
  - intros [-> | ->]; [done|]. intros ->. by right.
Qed.

Lemma settled_same (x : string) (g g' : BaseGraph) :
  features_at g' x = features_at g x → settled_at x g g'.
Proof. intros H. unfold settled_at. rewrite H. destruct (features_at g x); auto. Qed.

Lemma node_addEdge_features (n n' : BaseNode) (e : BaseEdge) :
  Node.addEdge n e = JS.Ok n' → _features n' = _features n.
Proof.
  unfold Node.addEdge. destruct (negb _ && negb _); [done|]. cbv zeta.
  destruct (isDirected e).
  - destruct (is_this n (_node_a e) && negb _).
    + destruct (is_this _ (_node_b e) && negb _); by intros [= <-].
    + destruct (negb _); by intros [= <-].
  - destruct (JS.present _ _); [done|]. by intros [= <-].
Qed.

Lemma on_node_features (g g' : BaseGraph) (id : string)
    (f : BaseNode → JS.result BaseNode) :
  (∀ n n', f n = JS.Ok n' → _features n' = _features n) →
  on_node g id f = JS.Ok g' →
  ∀ x, features_at g' x = features_at g x.
Proof.
  intros Hf. unfold on_node. destruct (getNodeById g id) as [n|] eqn:Hn; [|done].
  cbn [mbind result_bind JS.bind]. destruct (f n) as [n'|] eqn:E; [|done].
  intros [= <-] x. unfold features_at, getNodeById, with_nodes. cbn [_nodes].
  rewrite ObjectFacts.get_set. destruct (String.eqb_spec id x) as [<-|Hne]; [|done].
  unfold getNodeById in Hn. rewrite Hn. cbn. f_equal. by apply Hf.
Qed.

Lemma on_node_write (g g' : BaseGraph) (id : string) (w : BaseNode → JS.object any) :
  on_node g id (λ n, JS.Ok (with_features n (w n))) = JS.Ok g' →
  ∃ n, getNodeById g id = Some n
    ∧ ∀ x, features_at g' x = if String.eqb id x then Some (w n) else features_at g x.
Proof.
  unfold on_node. destruct (getNodeById g id) as [n|] eqn:Hn; [|done].
  cbn [mbind result_bind JS.bind]. intros [= <-]. exists n. split; [done|].
  intros x. unfold features_at, getNodeById, with_nodes. cbn [_nodes].
  rewrite ObjectFacts.get_set. by destruct (String.eqb id x).
Qed.

Lemma graph_addEdge_features (g g' : BaseGraph) (e : BaseEdge) :
  Graph.addEdge g e = JS.Ok g' → ∀ x, features_at g' x = features_at g x.
Proof.
  unfold Graph.addEdge.
  destruct (negb _ || negb _); [done|].
  destruct (hasEdgeID g (Edge.getID e)); [done|].
  unfold mbind, result_bind, JS.bind.
  destruct (on_node g (_node_a e) _) as [g1|] eqn:E1; [|done].
  pose proof (on_node_features _ _ _ _ (λ n n', node_addEdge_features n n' e) E1) as H1.
  destruct (isDirected e || negb (_node_a e =? _node_b e)%string).
  - destruct (on_node g1 (_node_b e) _) as [g2|] eqn:E2; [|done].
    pose proof (on_node_features _ _ _ _ (λ n n', node_addEdge_features n n' e) E2) as H2.
    destruct (isDirected e); intros [= <-] x; unfold features_at, getNodeById in *;
      cbn [_nodes]; by rewrite H2, H1.
  - destruct (isDirected e); intros [= <-] x; unfold features_at, getNodeById in *;
      cbn [_nodes]; by rewrite H1.
Qed.

Lemma node_or_add_features (g g' : BaseGraph) (id : string) :
  node_or_add g id = JS.Ok g' →
  hasNodeID g' id = true
  ∧ ∀ x, features_at g' x
         = if hasNodeID g id then features_at g x
           else if String.eqb id x then Some [] else features_at g x.
Proof.
  unfold node_or_add. destruct (hasNodeID g id) eqn:E.
  - intros [= <-]. by split.
  - unfold addNodeByID, Graph.addNode. cbn [Node.getID Node.new Node._id]. rewrite E.
    cbn [mbind result_bind JS.bind]. intros [= <-]. split.
    + unfold hasNodeID, with_nodes. cbn [_nodes].
      by rewrite ObjectFacts.has_set, String.eqb_refl.
    + intros x. unfold features_at, getNodeById, with_nodes. cbn [_nodes].
      rewrite ObjectFacts.get_set. by destruct (String.eqb id x).
Qed.

Lemma node_or_add_settled (g g' : BaseGraph) (id x : string) :
  node_or_add g id = JS.Ok g' → settled_at x g g'.
Proof.
  intros H. destruct (node_or_add_features g g' id H) as [_ Hf].
  unfold settled_at. rewrite Hf. destruct (hasNodeID g id) eqn:E.
  - destruct (features_at g x); auto.
  - destruct (String.eqb_spec id x) as [<-|Hne].
    + unfold features_at, getNodeById. unfold hasNodeID, JS.has in E.
      destruct (JS.get (_nodes g) id); [done|]. cbn. by right.
    + destruct (features_at g x); auto.
Qed.

Section Reading.
Variable parseFloat : string → JS.number.
Variable inp : JSONInput.

Lemma read_edge_settled (node_id x : string) (g g' : BaseGraph) (ei : EdgeInput) :
  read_edge parseFloat inp node_id g ei = JS.Ok g' → settled_at x g g'.
Proof.
  unfold read_edge.
  destruct (node_or_add g (to ei)) as [g1|] eqn:E1; [|done].
  cbn [mbind result_bind JS.bind].
  pose proof (node_or_add_settled g g1 (to ei) x E1) as S1.
  destruct (skipped inp g1 node_id ei); [by intros [= <-]|].
  unfold addEdgeByID. set (e := newEdge _ _ _ _).
  destruct (Graph.addEdge g1 e) as [g2|] eqn:E2; [|done].
  cbn [mbind result_bind JS.bind]. intros [= <-].
  apply (settled_trans x g g1 g2); [done|].
  apply settled_same. by apply (graph_addEdge_features g1 g2 e).
Qed.

Lemma read_edges_settled (node_id x : string) (entries : list EdgeInput) :
  ∀ g g', for_each (read_edge parseFloat inp node_id) entries g = JS.Ok g' →
    settled_at x g g'.
Proof.
  induction entries as [|ei entries IH]; intros g g'; simpl.
  - intros [= <-]. apply settled_refl.
  - destruct (read_edge parseFloat inp node_id g ei) as [g1|] eqn:E1; [|done].
    cbn [mbind result_bind JS.bind]. intros E2.
    apply (settled_trans x g g1 g'); [by apply (read_edge_settled node_id x g g1 ei) | by apply IH].
Qed.

(** One entry of [data]: the other nodes keep their features, and the node
    of the entry has the features and the coordinates of the entry, over
    those it had when the entry gives no features. *)
Lemma read_node_features (g g' : BaseGraph) (k : string) (entry : NodeInput) :
  read_node parseFloat inp g (k, entry) = JS.Ok g' →
  (∀ x, x ≠ k → settled_at x g g')
  ∧ features_at g' k
    = Some (let f := match features entry with
                     | Some f => f
                     | None => default [] (features_at g k)
                     end in
            match coords entry with
            | Some c => JS.set f "coords" (AObj c)
            | None => f
            end).
Proof.
  unfold read_node. cbn [fst snd].
  destruct (node_or_add g k) as [g1|] eqn:E1; [|done].
  cbn [mbind result_bind JS.bind].
  destruct (node_or_add_features g g1 k E1) as [Hk1 F1].
  assert (Hbase : features_at g1 k = Some (default [] (features_at g k))).
  { rewrite F1. destruct (hasNodeID g k) eqn:E.
    - unfold features_at, getNodeById. unfold hasNodeID, JS.has in E.
      by destruct (JS.get (_nodes g) k).
    - rewrite String.eqb_refl. unfold features_at, getNodeById.
      unfold hasNodeID, JS.has in E. by destruct (JS.get (_nodes g) k). }
  destruct (match features entry with Some _ => _ | None => _ end) as [g2|] eqn:E2; [|done].
  cbn [mbind result_bind JS.bind].
  assert (F2 : (∀ x, x ≠ k → features_at g2 x = features_at g1 x)
               ∧ features_at g2 k
                 = Some (match features entry with
                         | Some f => f
                         | None => default [] (features_at g k)
                         end)).
  { destruct (features entry) as [f|].
    - apply (on_node_write g1 g2 k (λ _, f)) in E2 as (n & _ & H). split.
      + intros x Hx. rewrite H. by rewrite (proj2 (String.eqb_neq k x)).
      + by rewrite H, String.eqb_refl.
    - injection E2 as <-. by split. }
  destruct F2 as [F2o F2k].
  destruct (match coords entry with Some _ => _ | None => _ end) as [g3|] eqn:E3; [|done].
  cbn [mbind result_bind JS.bind].
  assert (F3 : (∀ x, x ≠ k → features_at g3 x = features_at g2 x)
               ∧ features_at g3 k
                 = Some (let f := match features entry with
                                  | Some f => f
                                  | None => default [] (features_at g k)
                                  end in
                         match coords entry with
                         | Some c => JS.set f "coords" (AObj c)
                         | None => f
                         end)).
  { destruct (coords entry) as [c|].
    - apply (on_node_write g2 g3 k (λ n, JS.set (_features n) "coords" (AObj c))) in E3
        as (n & Hn & H). split.
      + intros x Hx. rewrite H. by rewrite (proj2 (String.eqb_neq k x)).
      + rewrite H, String.eqb_refl. unfold features_at in F2k. rewrite Hn in F2k.
        cbn in F2k. injection F2k as ->. done.
    - injection E3 as <-. by split. }
  destruct F3 as [F3o F3k].
  intros E4. split.
  - intros x Hx.
    apply (settled_trans x g g1 g'); [by apply (node_or_add_settled g g1 k)|].
    apply (settled_trans x g1 g3 g');
      [| by apply (read_edges_settled k x (edges entry))].
    apply settled_same. by rewrite F3o, F2o.
  - pose proof (read_edges_settled k k (edges entry) g3 g' E4) as S.
    unfold settled_at in S. by rewrite F3k in S.
Qed.

Lemma read_nodes_features (post : JS.object NodeInput) :
  ∀ (pre : JS.object NodeInput) (g g' : BaseGraph),
    NoDup (JS.keys (pre ++ post)) →
    stored pre g →
    for_each (read_node parseFloat inp) post g = JS.Ok g' →
    stored (pre ++ post) g'.
Proof.
  induction post as [|[k entry] post IH]; intros pre g g' Hnd Hpre; simpl.
  - intros [= <-]. by rewrite app_nil_r.
  - destruct (read_node parseFloat inp g (k, entry)) as [g1|] eqn:E1; [|done].
    cbn [mbind result_bind JS.bind]. intros E2.
    replace (pre ++ (k, entry) :: post) with ((pre ++ [(k, entry)]) ++ post)
      by (by rewrite <- app_assoc).
    apply (IH _ g1); [by rewrite <- app_assoc | | done].
    assert (Hk : JS.get pre k = None).
    { apply ObjectFacts.get_None_not_in. unfold JS.keys in Hnd. rewrite map_app in Hnd.
      apply NoDup_app in Hnd as (_ & Hd & _). intros Hin. apply (Hd k Hin). left. }
    destruct (read_node_features g g1 k entry E1) as [Ho Hn].
    intros x. destruct (decide (x = k)) as [->|Hne].
    + rewrite PreprocessingFacts.get_app_fresh
        by (by apply ObjectFacts.get_None_not_in).
      simpl. rewrite String.eqb_refl, Hn. f_equal. unfold stored_features.
      specialize (Hpre k). rewrite Hk in Hpre.
      destruct (features entry); [done|]. by destruct Hpre as [-> | ->].
    + specialize (Hpre x). specialize (Ho x Hne). unfold settled_at in Ho.
      destruct (JS.get pre x) as [en|] eqn:Ex.
      * assert (JS.get (pre ++ [(k, entry)]) x = Some en) as ->.
        { clear -Ex. induction pre as [|[k' v'] pre IH]; simpl in *; [done|].
          destruct (String.eqb k' x); [done | by apply IH]. }
        by rewrite Hpre in Ho.
      * rewrite PreprocessingFacts.get_app_fresh
          by (by apply ObjectFacts.get_None_not_in).
        simpl. rewrite (proj2 (String.eqb_neq k x)) by done.
        destruct Hpre as [Hp|Hp]; rewrite Hp in Ho; [done | by right].
Qed.

End Reading.

(** The reader stores the features of every node of [data]: in the graph
    it returns, the node of a key has the features its entry gives (none
    when the entry gives none), with the coordinates of the entry under
    "coords" when it gives coordinates. *)
Theorem readFromJSON_features (parseFloat : string → JS.number) (inp : JSONInput)
    (json : JSONGraph) (g : BaseGraph) :
  NoDup (JS.keys (data json)) →
  readFromJSON parseFloat inp json = JS.Ok g →
  ∀ k entry, (k, entry) ∈ data json →
    ∃ n, getNodeById g k = Some n ∧ getFeatures n = stored_features entry.
Proof.
  intros Hnd Hg k entry Hin. unfold readFromJSON in Hg.
  pose proof (read_nodes_features parseFloat inp (data json) []
                (Graph.new (name json)) g Hnd) as H.
  specialize (H (λ x, or_introl eq_refl) Hg k). simpl in H.
  apply list_elem_of_lookup in Hin as [i Hi].
  rewrite (ObjectFacts.get_lookup _ i k entry Hnd Hi) in H.
  unfold features_at in H. destruct (getNodeById g k) as [n|]; [|done].
  exists n. split; [done|]. by injection H.
Qed.

End ReaderFeatureFacts.

(** ** The theorems at further sample inputs *)

Module ReaderEdgeExamples.
Import Edge Node Graph JSONInput JSONSamples FeatureSamples ReaderForms.
Import ReaderEdgeFacts ReaderFeatureFacts.

Lemma readFromJSON_edges_witness :
  readFromJSON (fun _ => JS.NaN) weighted_input featured_json = JS.Ok featured_graph
  ∧ JS.keys (Graph._und_edges featured_graph) = ["A_B_u"]
  ∧ (∀ id e, getEdgeById featured_graph id = Some e →
       ∃ k entry ei, (k, entry) ∈ data featured_json ∧ ei ∈ edges entry
         ∧ id = edge_id k weighted_input ei
         ∧ e = newEdge id k (to ei) (edge_config (fun _ => JS.NaN) weighted_input ei))
  ∧ (∀ k entry ei, (k, entry) ∈ data featured_json → ei ∈ edges entry →
       present weighted_input featured_graph k ei).
Proof.
  split; [vm_compute; reflexivity|]. split; [reflexivity|].
  apply (readFromJSON_edges (fun _ => JS.NaN) weighted_input featured_json featured_graph).
  vm_compute; reflexivity.
Defined.

Lemma readFromJSON_features_witness :
  NoDup (JS.keys (data featured_json))
  ∧ readFromJSON (fun _ => JS.NaN) weighted_input featured_json = JS.Ok featured_graph
  ∧ ∃ n, getNodeById featured_graph "A" = Some n
      ∧ getFeatures n
        = [("kind", AStr "hub"); ("coords", AObj [("x", 1%float); ("y", 2%float)])].
Proof.
  assert (NoDup (JS.keys (data featured_json))) as Hnd.
  { apply (NoDup_cons_2 "A" ["B"]); [|apply NoDup_singleton].
    intros H%list_elem_of_singleton. discriminate H. }
  assert (readFromJSON (fun _ => JS.NaN) weighted_input featured_json
          = JS.Ok featured_graph) as Hg by (vm_compute; reflexivity).
  split; [exact Hnd|]. split; [exact Hg|].
  apply (readFromJSON_features (fun _ => JS.NaN) weighted_input featured_json
           featured_graph Hnd Hg "A" featured_A). left.
Defined.

End ReaderEdgeExamples.

Module TypedDeleteExamples.
Import Edge Node Graph Typed TypedForms MoreSamples TypedDeleteFacts.

Lemma deleteNode_unregisters_type_witness :
  NoDup (nodeTypes typed_two)
  ∧ Typed.deleteNode typed_two person_a1 = JS.Ok typed_one_again
  ∧ ∃ k, nrTypedNodes typed_two "PERSON" = Some (S k)
      ∧ nrTypedNodes typed_one_again "PERSON" = match k with 0 => None | S _ => Some k end.
Proof.
  assert (NoDup (nodeTypes typed_two)) as Hn.
  { apply (NoDup_cons_2 "GENERIC" ["PERSON"]); [|apply NoDup_singleton].
    intros H%list_elem_of_singleton. discriminate H. }
  assert (Typed.deleteNode typed_two person_a1 = JS.Ok typed_one_again) as Hd
    by (vm_compute; reflexivity).
  split; [exact Hn|]. split; [exact Hd|].
  destruct (deleteNode_unregisters_type typed_two typed_one_again person_a1 Hn Hd)
    as (k & H1 & H2 & _).
  exists k. split; [exact H1 | exact H2].
Defined.

End TypedDeleteExamples.
